(** * GM8Emulator (PSP port): asset loader and renderer

    A shallow embedding of the game loader ([GameLoad] and its helpers) and of
    the image/draw-command renderer ([RMakeImage], [RDrawPartialImage],
    [RRenderFrame], [_Compile]), followed by the properties established for
    them.

    Conventions.
    - [unsigned int] and [unsigned long] are 32 bits wide (the PSP and Windows
      ABIs the program is built for); their arithmetic is written out with
      [u32].  [int] values are kept as mathematical integers in
      [-2^31, 2^31) and obtained from a dword with [s32].
    - A byte buffer addressed through an [unsigned char*] is a [stream]: a map
      from offsets to bytes.  The C++ code never checks an offset against the
      end of a buffer, and neither does the model: a read returns whatever the
      memory holds at that offset. *)

From Stdlib Require Import String Ascii DecimalString ZArith List Bool Lia.
Import ListNotations.
Open Scope Z_scope.

(** ** Machine integers *)

Definition u32 (z : Z) : Z := z mod 2 ^ 32.
Definition u8 (z : Z) : Z := z mod 256.

(** Conversion of a dword to [int] (two's complement). *)
Definition s32 (z : Z) : Z :=
  let w := u32 z in if w <? 2 ^ 31 then w else w - 2 ^ 32.

(** ** Byte streams *)

Definition stream := Z -> Z.

Definition byte_at (m : stream) (i : Z) : Z := u8 (m i).

(** [p[i] = v] through an [unsigned char*]. *)
Definition poke (m : stream) (i v : Z) : stream :=
  fun j => if j =? i then u8 v else m j.

(** The bytes [m[pos .. pos+n)] as a list. *)
Fixpoint read_bytes (m : stream) (pos : Z) (n : nat) : list Z :=
  match n with
  | O => []
  | S n' => byte_at m pos :: read_bytes m (pos + 1) n'
  end.

(** [memcpy(m + pos, bs, length bs)]. *)
Fixpoint write_bytes (m : stream) (pos : Z) (bs : list Z) : stream :=
  match bs with
  | [] => m
  | b :: bs' => write_bytes (poke m pos b) (pos + 1) bs'
  end.

(** A stream holding the bytes [bs] from offset 0 and zero elsewhere. *)
Definition stream_of_list (bs : list Z) : stream :=
  fun i => if (0 <=? i) && (i <? Z.of_nat (length bs))
           then nth (Z.to_nat i) bs 0 else 0.

(** [v[i] = f(v[i])] on a vector or a table. *)
Fixpoint update_nth {A : Type} (i : nat) (f : A -> A) (l : list A) : list A :=
  match l, i with
  | [], _ => []
  | a :: l', O => f a :: l'
  | a :: l', S i' => a :: update_nth i' f l'
  end.

(** The four little-endian bytes of a dword. *)
Definition dword_bytes (d : Z) : list Z :=
  [u8 d; u8 (d / 2 ^ 8); u8 (d / 2 ^ 16); u8 (d / 2 ^ 24)].

(** ** Primitive stream reader (StreamUtil) *)

(** Modelled from the spec: [ReadDword] of StreamUtil.hpp, which is not among
    the sources; it "returns a 4-byte little-endian unsigned integer at [pos]
    and advances [pos] by 4".  The result is the value and the new cursor. *)
Definition ReadDword (m : stream) (pos : Z) : Z * Z :=
  (byte_at m pos + 2 ^ 8 * byte_at m (pos + 1)
   + 2 ^ 16 * byte_at m (pos + 2) + 2 ^ 24 * byte_at m (pos + 3),
   u32 (pos + 4)).

Definition dword_at (m : stream) (pos : Z) : Z := fst (ReadDword m pos).

(** [n] consecutive calls of [ReadDword]: the values and the cursor after
    them. *)
Fixpoint read_dwords (n : nat) (m : stream) (pos : Z) : list Z * Z :=
  match n with
  | O => ([], pos)
  | S n' =>
      let '(d, pos) := ReadDword m pos in
      let '(ds, pos) := read_dwords n' m pos in
      (d :: ds, pos)
  end.

(** [pos += n] on an [unsigned int] cursor. *)
Definition skip (pos n : Z) : Z := u32 (pos + n).

(** A counted loop [for (i = from; i > to; i--)] whose body changes neither
    bound: it runs for [i = from, from - 1, ..., to + 1]; [n] is the number
    of passes. *)
Fixpoint for_down {S : Type} (n : nat) (i : Z) (body : Z -> S -> S) (s : S) : S :=
  match n with
  | O => s
  | S n' => for_down n' (i - 1) body (body i s)
  end.

(** A counted loop [for (i = from; i < to; i += step)]. *)
Fixpoint for_up {S : Type} (n : nat) (i step : Z) (body : Z -> S -> S) (s : S) : S :=
  match n with
  | O => s
  | S n' => for_up n' (i + step) step body (body i s)
  end.

(** Modelled from the spec: [ReadDouble] of StreamUtil.hpp "returns an 8-byte
    IEEE-754 double and advances by 8".  The value is kept as its eight
    bytes. *)
Definition ReadDouble (m : stream) (pos : Z) : list Z * Z :=
  (read_bytes m pos 8, u32 (pos + 8)).

(** Modelled from the spec: [ReadString] of StreamUtil.hpp "reads a 4-byte
    length prefix followed by that many raw bytes"; the caller receives a copy
    of the bytes (whose length is the optional [outLength]). *)
Definition ReadString (m : stream) (pos : Z) : list Z * Z :=
  let '(len, p) := ReadDword m pos in
  (read_bytes m p (Z.to_nat len), u32 (p + len)).

(** ** Cipher layer: the GM8.1 stream cipher *)

(** [Crc32Reflect]: the lowest [c] bits of [value] in reverse order.  The loop
    runs for [i = 1 .. c]; [k] counts the remaining iterations. *)
Fixpoint Crc32Reflect_loop (k : nat) (i c value rValue : Z) : Z :=
  match k with
  | O => rValue
  | S k' =>
      let rValue := if Z.land value 1 =? 0 then rValue
                    else Z.lor rValue (u32 (Z.shiftl 1 (c - i))) in
      Crc32Reflect_loop k' (i + 1) c (Z.shiftr value 1) rValue
  end.

Definition Crc32Reflect (value c : Z) : Z :=
  Crc32Reflect_loop (Z.to_nat c) 1 c value 0.

Definition crcPolynomial : Z := 0x04C11DB7.

(** The inner [for (j = 0; j < 8; j++)] of the table construction. *)
Fixpoint crc_shift (k : nat) (e : Z) : Z :=
  match k with
  | O => e
  | S k' =>
      crc_shift k'
        (Z.lxor (u32 (Z.shiftl e 1))
                (if Z.land e (u32 (Z.shiftl 1 31)) =? 0 then 0 else crcPolynomial))
  end.

Definition crcTable_entry (i : Z) : Z :=
  Crc32Reflect (crc_shift 8 (u32 (Z.shiftl (Crc32Reflect i 8) 24))) 32.

Definition crcTable : list Z :=
  map (fun i => crcTable_entry (Z.of_nat i)) (seq 0 256).

(** [Crc32]: note that the result is not complemented at the end. *)
Fixpoint Crc32_loop (buffer : list Z) (result : Z) : Z :=
  match buffer with
  | [] => result
  | b :: rest =>
      Crc32_loop rest
        (Z.lxor (Z.shiftr result 8)
                (nth (Z.to_nat (Z.lxor (Z.land result 0xFF) b)) crcTable 0))
  end.

Definition Crc32 (buffer : list Z) : Z := Crc32_loop buffer 0xFFFFFFFF.

(** [GetXorMask]: returns the mask and the two updated seeds. *)
Definition GetXorMask (seed1 seed2 : Z) : Z * Z * Z :=
  let seed1' := u32 (Z.land 0xFFFF seed1 * 0x9069 + Z.shiftr seed1 16) in
  let seed2' := u32 (Z.land 0xFFFF seed2 * 0x4650 + Z.shiftr seed2 16) in
  (u32 (u32 (Z.shiftl seed1' 16) + Z.land seed2' 0xFFFF), seed1', seed2').

(** The character codes of a string. *)
Definition codes (s : string) : list Z :=
  map (fun a => Z.of_nat (nat_of_ascii a)) (list_ascii_of_string s).

(** [snprintf(tmpBuffer, 64, "_MJD%d#RWK", d)]: the dword is printed as an
    [int]; the result is at most 19 characters long. *)
Definition hashKey (d : Z) : list Z :=
  codes "_MJD" ++ codes (NilZero.string_of_int (Z.to_int (s32 d))) ++ codes "#RWK".

(** The key widened to UTF-16LE: every character followed by a zero byte. *)
Definition widen (key : list Z) : list Z := flat_map (fun c => [c; 0]) key.

(** The second seed: the CRC of the widened hash key. *)
Definition hashSeed (d : Z) : Z := Crc32 (widen (hashKey d)).

(** The decryption loop of [Decrypt81]; [fuel] bounds the iterations. *)
Fixpoint Decrypt81_loop (fuel : nat) (pStream : stream)
    (pStreamLength encPos seed1 seed2 : Z) : stream :=
  match fuel with
  | O => pStream
  | S fuel' =>
      if encPos <? pStreamLength then
        if u32 (pStreamLength - encPos) <? 4 then pStream
        else
          let '(d, encPos) := ReadDword pStream encPos in
          let '(mask, seed1, seed2) := GetXorMask seed1 seed2 in
          let decryptedDword := Z.lxor d mask in
          let pStream := poke pStream (u32 (encPos - 4))
                           (Z.land decryptedDword 0x000000FF) in
          let pStream := poke pStream (u32 (encPos - 3))
                           (Z.shiftr (Z.land decryptedDword 0x0000FF00) 8) in
          let pStream := poke pStream (u32 (encPos - 2))
                           (Z.shiftr (Z.land decryptedDword 0x00FF0000) 16) in
          let pStream := poke pStream (u32 (encPos - 1))
                           (Z.shiftr (Z.land decryptedDword 0xFF000000) 24) in
          Decrypt81_loop fuel' pStream pStreamLength encPos seed1 seed2
      else pStream
  end.

(** [Decrypt81]: the decrypted stream and the advanced cursor (the function
    always returns [true]).  Every iteration of the loop moves [encPos]
    forward by four, so [pStreamLength] iterations are never exhausted. *)
Definition Decrypt81 (pStream : stream) (pStreamLength pPos : Z) : stream * Z :=
  let '(key, pPos) := ReadDword pStream pPos in
  let seed2 := hashSeed key in
  let '(seed1, pPos) := ReadDword pStream pPos in
  let encPos := u32 (pPos + Z.land seed2 0xFF + 0xA) in
  (Decrypt81_loop (Z.to_nat pStreamLength) pStream pStreamLength encPos seed1 seed2,
   pPos).

(** The seeds after [k] successive calls of [GetXorMask], and the mask the
    call after them returns: the mask applied to the [k]-th encrypted dword. *)
Fixpoint seeds_after (k : nat) (seed1 seed2 : Z) : Z * Z :=
  match k with
  | O => (seed1, seed2)
  | S k' => let '(_, s1, s2) := GetXorMask seed1 seed2 in seeds_after k' s1 s2
  end.

Definition nth_mask (k : nat) (seed1 seed2 : Z) : Z :=
  let '(s1, s2) := seeds_after k seed1 seed2 in fst (fst (GetXorMask s1 s2)).

(** One iteration of the decryption loop, for a position with a whole dword
    left before the end of the stream. *)
Definition store_dword (m : stream) (e x : Z) : stream :=
  poke (poke (poke (poke m e (Z.land x 0xFF))
                   (e + 1) (Z.shiftr (Z.land x 0xFF00) 8))
             (e + 2) (Z.shiftr (Z.land x 0xFF0000) 16))
       (e + 3) (Z.shiftr (Z.land x 0xFF000000) 24).

(** A 302-byte stream: the cipher applies from offset 18 + (seed2 & 0xFF). *)
Definition cipher_sample : stream :=
  stream_of_list (map (fun i => Z.of_nat i mod 251) (seq 0 302)).

(** ** Renderer (Renderer.cpp) *)

(** Images waiting to be batched into an atlas. *)
Record RPreImage := mkRPreImage {
  pre_w : Z;
  pre_h : Z;
  pre_data : list Z;
  pre_imgIndex : Z;
  pre_x : Z;
  pre_y : Z
}.

(** References to images that may or may not have been put into an atlas.
    [RMakeImage] leaves [atlasId], [x] and [y] unassigned; the model holds 0
    there until [_Compile] assigns them. *)
Record RAtlasImage := mkRAtlasImage {
  atlasId : Z;
  img_x : Z;
  img_y : Z;
  img_w : Z;
  img_h : Z;
  originX : Z;
  originY : Z
}.

(** A command to draw a single image.  The [float] members are not
    represented as such: [transform], [alpha] and [blend] are left out, and
    [atlasXY] and [atlasWH], which the code computes as the quotients
    [(x + partX) / atlas.w], [(y + partY) / atlas.h], [partW / atlas.w] and
    [partH / atlas.h], are kept as their integer numerators (a rectangle of
    texels in the atlas) together with the atlas size they are divided by. *)
Record RDrawCommand := mkRDrawCommand {
  cmd_texX : Z;
  cmd_texY : Z;
  cmd_texW : Z;
  cmd_texH : Z;
  cmd_atlasW : Z;
  cmd_atlasH : Z;
  cmd_atlasId : Z;
  cmd_imageIndex : Z;
  cmd_atlasGlTex : Z
}.

(** Atlas structure, can exist without being used. *)
Record RAtlas := mkRAtlas {
  glTex : Z;
  atlas_w : Z;
  atlas_h : Z
}.

(** [RAtlas _atlases[32]]: the table has 32 slots.  It is addressed without
    a bounds check, so the model keeps it as a map from slot numbers and
    [atlas_slots] records how many of them the array really has. *)
Definition atlas_slots : Z := 32.

(** The module-level state of the renderer.  The window handle and the window
    size only feed the floating-point transform and are left out. *)
Record Renderer := mkRenderer {
  _drawCommands : list RDrawCommand;
  _preImages : list RPreImage;
  _atlasImages : list RAtlasImage;
  _atlases : Z -> RAtlas;
  boundAtlas : Z;
  _tallest : Z;
  _widest : Z;
  _pixelCount : Z;
  _colourOutsideRoom : Z;
  _roomBGColour : Z;
  _contextSet : bool;
  _maxTextures : Z;
  _maxTextureSize : Z
}.

Definition set_drawCommands (r : Renderer) (v : list RDrawCommand) : Renderer :=
  mkRenderer v (_preImages r) (_atlasImages r) (_atlases r) (boundAtlas r)
    (_tallest r) (_widest r) (_pixelCount r) (_colourOutsideRoom r)
    (_roomBGColour r) (_contextSet r) (_maxTextures r) (_maxTextureSize r).

Definition set_boundAtlas (r : Renderer) (v : Z) : Renderer :=
  mkRenderer (_drawCommands r) (_preImages r) (_atlasImages r) (_atlases r) v
    (_tallest r) (_widest r) (_pixelCount r) (_colourOutsideRoom r)
    (_roomBGColour r) (_contextSet r) (_maxTextures r) (_maxTextureSize r).

Definition set_roomBGColour (r : Renderer) (v : Z) : Renderer :=
  mkRenderer (_drawCommands r) (_preImages r) (_atlasImages r) (_atlases r)
    (boundAtlas r) (_tallest r) (_widest r) (_pixelCount r)
    (_colourOutsideRoom r) v (_contextSet r) (_maxTextures r)
    (_maxTextureSize r).

(** The zero-initialised globals at program start. *)
Definition renderer_start : Renderer :=
  mkRenderer [] [] [] (fun _ => mkRAtlas 0 0 0) 0 0 0 0 0 0 false 0 0.

(** [RInit].  The vectors, the atlas table and the two backend limits are not
    touched. *)
Definition RInit (r : Renderer) : Renderer :=
  mkRenderer (_drawCommands r) (_preImages r) (_atlasImages r) (_atlases r)
    (-1) 0 0 0 (_colourOutsideRoom r) (_roomBGColour r) false
    (_maxTextures r) (_maxTextureSize r).

(** [RMakeGameWindow].  In this port everything after [g2dInit()] is
    commented out, including the assignment [_contextSet = true], the queries
    that set [_maxTextures] and [_maxTextureSize], and the call of
    [_Compile]: the function leaves the renderer state as it is. *)
Definition RMakeGameWindow (r : Renderer) (w h : Z) : Renderer * bool :=
  if _contextSet r then (r, false) else (r, true).

Definition RSetBGColour (r : Renderer) (col : Z) : Renderer :=
  set_roomBGColour r col.

(** [RMakeImage].  [None] is the call of [abort()]; otherwise the new state
    and the returned image index.  [bytes] is the memory the pixel pointer
    addresses. *)
Definition RMakeImage (r : Renderer) (w h oX oY : Z) (bytes : stream)
  : option (Renderer * Z) :=
  if _contextSet r then None
  else
    let data := read_bytes bytes 0 (Z.to_nat (u32 (w * h * 4))) in
    let imgIndex := u32 (Z.of_nat (length (_atlasImages r))) in
    let pImg := mkRPreImage w h data imgIndex 0 0 in
    let aImg := mkRAtlasImage 0 0 0 w h oX oY in
    Some (mkRenderer (_drawCommands r) (_preImages r ++ [pImg])
            (_atlasImages r ++ [aImg]) (_atlases r) (boundAtlas r)
            (Z.max (_tallest r) w) (Z.max (_widest r) h)
            (u32 (_pixelCount r + u32 (w * h)))
            (_colourOutsideRoom r) (_roomBGColour r) (_contextSet r)
            (_maxTextures r) (_maxTextureSize r),
          imgIndex).

(** [RDrawPartialImage] without its floating-point parameters.  The image is
    fetched with [_atlasImages.data() + ix], unchecked; the model is only
    meaningful for a registered [ix] and leaves the state alone otherwise. *)
Definition RDrawPartialImage (r : Renderer) (ix partX partY partW partH : Z)
  : Renderer :=
  match nth_error (_atlasImages r) (Z.to_nat ix) with
  | None => r
  | Some aImg =>
      if partX >=? img_w aImg then r
      else if partY >=? img_h aImg then r
      else
        let partW := if u32 (partX + partW) >? img_w aImg
                     then u32 (img_w aImg - partX) else partW in
        let partH := if u32 (partY + partH) >? img_h aImg
                     then u32 (img_h aImg - partY) else partH in
        let atlas := _atlases r (atlasId aImg) in
        let command :=
          mkRDrawCommand (u32 (img_x aImg + partX)) (u32 (img_y aImg + partY))
            partW partH (atlas_w atlas) (atlas_h atlas)
            (atlasId aImg) ix (glTex atlas) in
        set_drawCommands r (_drawCommands r ++ [command])
  end.


(** [RStartFrame]: the clear calls go to the backend; the command list is
    emptied. *)
Definition RStartFrame (r : Renderer) : Renderer := set_drawCommands r [].

(** One pass of the [while] loop of [RRenderFrame]: the run of commands
    [batch_first, batch_first + batch_count) that forms one instanced draw,
    and whether the atlas texture was bound for it.  (The draw call itself is
    commented out in this port; the loop that delimits the runs and tracks
    [boundAtlas] is live.) *)
Record RBatch := mkRBatch {
  batch_first : Z;
  batch_count : Z;
  batch_bind : bool
}.

(** The inner [for (unsigned int i = drawn; i < size; i++)]: counts the
    commands from [i] on that share the atlas [a]. *)
Fixpoint count_run (fuel : nat) (cmds : list RDrawCommand) (a i toDraw : Z) : Z :=
  match fuel with
  | O => toDraw
  | S fuel' =>
      if i <? Z.of_nat (length cmds) then
        match nth_error cmds (Z.to_nat i) with
        | Some c =>
            if cmd_atlasId c =? a
            then count_run fuel' cmds a (u32 (i + 1)) (u32 (toDraw + 1))
            else toDraw
        | None => toDraw
        end
      else toDraw
  end.

(** The outer [while (drawn < _drawCommands.size())].  [boundAtlas] is an
    [int] compared with, and assigned from, an [unsigned int].  [None]: the
    loop did not finish within [fuel] passes. *)
Fixpoint RRenderFrame_loop (fuel : nat) (cmds : list RDrawCommand)
    (drawn bound : Z) : option (Z * list RBatch) :=
  if drawn <? Z.of_nat (length cmds) then
    match fuel with
    | O => None
    | S fuel' =>
        match nth_error cmds (Z.to_nat drawn) with
        | None => None
        | Some first =>
            let toDraw := count_run (length cmds) cmds (cmd_atlasId first) drawn 0 in
            let bind := negb (u32 bound =? cmd_atlasId first) in
            let bound := if bind then s32 (cmd_atlasId first) else bound in
            match RRenderFrame_loop fuel' cmds (u32 (drawn + toDraw)) bound with
            | Some (b, bs) => Some (b, mkRBatch drawn toDraw bind :: bs)
            | None => None
            end
        end
    end
  else Some (bound, []).

(** [RRenderFrame]: the state afterwards and the batches in the order they
    were flushed. *)
Definition RRenderFrame (r : Renderer) : option (Renderer * list RBatch) :=
  match RRenderFrame_loop (length (_drawCommands r)) (_drawCommands r) 0
          (boundAtlas r) with
  | Some (b, bs) => Some (set_boundAtlas r b, bs)
  | None => None
  end.

(** The commands a batch covers. *)
Definition batch_commands (cmds : list RDrawCommand) (b : RBatch)
  : list RDrawCommand :=
  firstn (Z.to_nat (batch_count b)) (skipn (Z.to_nat (batch_first b)) cmds).

(** The number of leading commands of [l] whose atlas id is [a]. *)
Fixpoint run_length (a : Z) (l : list RDrawCommand) : nat :=
  match l with
  | [] => O
  | c :: l' => if cmd_atlasId c =? a then S (run_length a l') else O
  end.

(** The batches tile the index range [start, stop) from left to right,
    each with at least one command. *)
Fixpoint batches_cover (start : Z) (bs : list RBatch) (stop : Z) : Prop :=
  match bs with
  | [] => start = stop
  | b :: bs' =>
      batch_first b = start /\ 0 < batch_count b
      /\ batches_cover (start + batch_count b) bs' stop
  end.

(** Every run is non-empty, all of its commands share the atlas id of its
    first command, and the run that follows starts with another atlas id. *)
Fixpoint maximal_runs (runs : list (list RDrawCommand)) : Prop :=
  match runs with
  | [] => True
  | run :: rest =>
      match run with
      | [] => False
      | c :: _ =>
          Forall (fun d => cmd_atlasId d = cmd_atlasId c) run
          /\ match rest with
             | (d :: _) :: _ => cmd_atlasId d <> cmd_atlasId c
             | _ => True
             end
          /\ maximal_runs rest
      end
  end.

(** With [bound] the atlas bound on entry, each batch binds its texture
    exactly when its atlas id differs from the one bound at that moment,
    which afterwards is the batch's own. *)
Fixpoint binds_follow (bound : Z) (cmds : list RDrawCommand)
    (bs : list RBatch) : Prop :=
  match bs with
  | [] => True
  | b :: bs' =>
      match nth_error cmds (Z.to_nat (batch_first b)) with
      | None => False
      | Some c =>
          (batch_bind b = true <-> cmd_atlasId c <> bound)
          /\ binds_follow (cmd_atlasId c) cmds bs'
      end
  end.

(** *** Atlas compilation *)

Section AtlasCompiler.

(** rectpack2D's [find_best_packing] is an external library.  Given the
    maximal bin side and the rectangles' sizes it returns the size of the
    bin it settled on and, in the order in which it calls the two report
    callbacks, the index of each rectangle with its position when it was
    placed ([report_successful]) or nothing when it was not
    ([report_unsuccessful]). *)
Variable find_best_packing :
  Z -> list (Z * Z) -> (Z * Z) * list (nat * option (Z * Z)).

(** [malloc] is part of the environment too: whether the call that asks
    for the pixel buffer of the atlas being composed, with the given number
    of bytes, returns a buffer. *)
Variable pixel_malloc : Z -> Z -> bool.

(** The two callbacks: [report_successful] stores the position in
    [_preImages[index]] and pushes that entry to [packed];
    [report_unsuccessful] pushes the entry to [unpacked]. *)
Fixpoint run_callbacks (pre : list RPreImage)
    (reports : list (nat * option (Z * Z)))
    (packed unpacked : list RPreImage)
  : list RPreImage * list RPreImage * list RPreImage :=
  match reports with
  | [] => (pre, packed, unpacked)
  | (index, report) :: rest =>
      match nth_error pre index with
      | None => run_callbacks pre rest packed unpacked
      | Some p =>
          match report with
          | Some (x, y) =>
              let p' := mkRPreImage (pre_w p) (pre_h p) (pre_data p)
                          (pre_imgIndex p) x y in
              run_callbacks (update_nth index (fun _ => p') pre) rest
                (packed ++ [p']) unpacked
          | None => run_callbacks pre rest packed (unpacked ++ [p])
          end
      end
  end.

(** The loop over [packed] that records each image's atlas and position. *)
Fixpoint place_images (packed : list RPreImage) (firstAtlas : Z)
    (imgs : list RAtlasImage) : list RAtlasImage :=
  match packed with
  | [] => imgs
  | img :: rest =>
      place_images rest firstAtlas
        (update_nth (Z.to_nat (pre_imgIndex img))
           (fun a => mkRAtlasImage firstAtlas (pre_x img) (pre_y img)
                       (pre_w img) (pre_h img) (originX a) (originY a))
           imgs)
  end.

(** [_Compile(firstAtlas)].  The recursion on the next atlas is bounded by
    [fuel]; [None] means the bound was reached.  The two callbacks run
    inside [find_best_packing], so the positions they store are in
    [_preImages] already when [malloc] is asked for the pixel buffer and
    [_Compile] returns [false] if there is none.  The composed pixel buffer
    is local and freed again (the upload is commented out).  The store to
    [_atlases[firstAtlas]] is recorded at whatever slot [firstAtlas] names;
    for a slot from [atlas_slots] on it lies outside the array, and what it
    does to the neighbouring globals is outside this model. *)
Fixpoint _Compile_rec (fuel : nat) (r : Renderer) (firstAtlas : Z)
  : option (Renderer * bool) :=
  if _tallest r >? _maxTextureSize r then Some (r, false)
  else if _widest r >? _maxTextureSize r then Some (r, false)
  else if firstAtlas >? _maxTextures r then Some (r, false)
  else if _pixelCount r =? 0 then Some (r, true)
  else
    let rectangles := map (fun p => (pre_w p, pre_h p)) (_preImages r) in
    let '(result_size, reports) :=
      find_best_packing (_maxTextureSize r) rectangles in
    let '(pre, packed, unpacked) :=
      run_callbacks (_preImages r) reports [] [] in
    if negb (pixel_malloc firstAtlas
               (u32 (fst result_size * snd result_size * 4)))
    then Some (mkRenderer (_drawCommands r) pre (_atlasImages r) (_atlases r)
                 (boundAtlas r) (_tallest r) (_widest r) (_pixelCount r)
                 (_colourOutsideRoom r) (_roomBGColour r) (_contextSet r)
                 (_maxTextures r) (_maxTextureSize r), false)
    else
    let imgs := place_images packed firstAtlas (_atlasImages r) in
    let atlases := fun i =>
      if i =? firstAtlas
      then mkRAtlas (glTex (_atlases r i)) (fst result_size) (snd result_size)
      else _atlases r i in
    let r1 := mkRenderer (_drawCommands r) pre imgs atlases
                (boundAtlas r) (_tallest r) (_widest r) (_pixelCount r)
                (_colourOutsideRoom r) (_roomBGColour r) (_contextSet r)
                (_maxTextures r) (_maxTextureSize r) in
    match unpacked with
    | [] => Some (r1, true)
    | _ :: _ =>
        let r2 := mkRenderer (_drawCommands r1) unpacked (_atlasImages r1)
                    (_atlases r1) (boundAtlas r1) (_tallest r1) (_widest r1)
                    (_pixelCount r1) (_colourOutsideRoom r1)
                    (_roomBGColour r1) (_contextSet r1) (_maxTextures r1)
                    (_maxTextureSize r1) in
        match fuel with
        | O => None
        | S fuel' => _Compile_rec fuel' r2 (u32 (firstAtlas + 1))
        end
    end.

(** Each level of the recursion raises [firstAtlas] by one and the third
    sanity check stops it above [_maxTextures]. *)
Definition _Compile (r : Renderer) (firstAtlas : Z) : option (Renderer * bool) :=
  _Compile_rec (Z.to_nat (_maxTextures r + 1)) r firstAtlas.

End AtlasCompiler.

(** A call of [RMakeImage] as data, and a sequence of such calls made one
    after the other; the result collects the returned indices in order. *)
Record Submission := mkSubmission {
  sub_w : Z;
  sub_h : Z;
  sub_originX : Z;
  sub_originY : Z;
  sub_bytes : stream
}.

Fixpoint RMakeImages (r : Renderer) (subs : list Submission)
  : option (Renderer * list Z) :=
  match subs with
  | [] => Some (r, [])
  | s :: rest =>
      match RMakeImage r (sub_w s) (sub_h s) (sub_originX s) (sub_originY s)
              (sub_bytes s) with
      | None => None
      | Some (r1, ix) =>
          match RMakeImages r1 rest with
          | None => None
          | Some (r2, ixs) => Some (r2, ix :: ixs)
          end
      end
  end.

(** *** Sample data *)

Definition sample_pixels : stream := stream_of_list [1; 2; 3; 4; 5; 6; 7; 8].

Definition sample_submissions : list Submission :=
  [mkSubmission 1 1 0 0 sample_pixels; mkSubmission 2 1 1 0 sample_pixels;
   mkSubmission 1 2 0 1 sample_pixels].

(** A renderer holding one 4x4 image, packed at (8, 16) of atlas 0. *)
Definition one_image : Renderer :=
  mkRenderer [] [] [mkRAtlasImage 0 8 16 4 4 0 0]
    (fun _ => mkRAtlas 0 64 64) (-1) 4 4 16 0 0 false 0 0.

(** A frame of seven commands over the atlases 0, 0, 1, 0, 0, 0, 2. *)
Definition sample_frame : Renderer :=
  set_drawCommands (RInit renderer_start)
    (map (fun a => mkRDrawCommand 0 0 1 1 64 64 a 0 0) [0; 0; 1; 0; 0; 0; 2]).

(** A stand-in for rectpack2D used to run [_Compile] on examples: it places
    the first rectangle alone at the origin of a bin of exactly its size
    (when it fits within [max_side]) and reports every other rectangle as
    not placed. *)
Definition pack_one_per_bin (max_side : Z) (rects : list (Z * Z))
  : (Z * Z) * list (nat * option (Z * Z)) :=
  match rects with
  | [] => ((0, 0), [])
  | (w, h) :: rest =>
      let later := map (fun i => (S i, @None (Z * Z))) (seq 0 (length rest)) in
      if (w <=? max_side) && (h <=? max_side)
      then ((w, h), (O, Some (0, 0)) :: later)
      else ((0, 0), (O, None) :: later)
  end.

(** A heap that never runs out: every [malloc] returns a buffer. *)
Definition malloc_always (firstAtlas bytes : Z) : bool := true.

(** A backend that reports 32 texture units and a maximal texture side of 4
    ([_maxTextures] and [_maxTextureSize] are assigned from the backend's
    answers in the original window code). *)
Definition backend_32_4 : Renderer :=
  mkRenderer [] [] [] (fun _ => mkRAtlas 0 0 0) (-1) 0 0 0 0 0 false 32 4.

(** 33 images of 4x4 pixels: each of them fills a whole 4x4 bin. *)
Definition full_size_images : list Submission :=
  repeat (mkSubmission 4 4 0 0 (fun _ => 0)) 33.

(** ** Cipher layer: the paragraph cipher and the extension-file cipher *)

(** [for (i = from; i < to; i++)] with a body that changes neither bound. *)
Definition for_range {S : Type} (from to : Z) (body : Z -> S -> S) (s : S) : S :=
  for_up (Z.to_nat (to - from)) from 1 body s.

(** A byte table held in an [unsigned char] array. *)
Definition tbl_get (t : list Z) (i : Z) : Z := nth (Z.to_nat i) t 0.

Definition tbl_set (t : list Z) (i v : Z) : list Z :=
  update_nth (Z.to_nat i) (fun _ => u8 v) t.

(** [DecryptData]: the decrypted stream and the cursor, which ends at the
    start of the encrypted area (the function always returns [true]).
    [reverseTable] is an uninitialised stack array; the model starts it from
    zeros. *)
Definition DecryptData (pStream : stream) (pPos : Z) : stream * Z :=
  let '(g1, pPos) := ReadDword pStream pPos in
  let garbageTable1Size := u32 (4 * g1) in
  let '(g2, pPos) := ReadDword pStream pPos in
  let garbageTable2Size := u32 (4 * g2) in
  let pPos := skip pPos garbageTable1Size in
  let swapTable := read_bytes pStream pPos 256 in
  let pPos := skip pPos (u32 (garbageTable2Size + 256)) in
  let reverseTable :=
    for_range 0 256 (fun i t => tbl_set t (tbl_get swapTable i) i) (repeat 0 256%nat) in
  let '(len, pPos) := ReadDword pStream pPos in
  (* Decryption first pass *)
  let pStream :=
    for_down (Z.to_nat (u32 (pPos + len) - u32 (pPos + 1))) (u32 (pPos + len))
      (fun i m =>
         poke m (i - 1)
           (tbl_get reverseTable (byte_at m (i - 1))
            - (byte_at m (i - 2) + u32 (i - u32 (pPos + 1)))))
      pStream in
  (* Decryption second pass *)
  let pStream :=
    for_down (Z.to_nat (u32 (pPos + len - 1) - pPos)) (u32 (pPos + len - 1))
      (fun i m =>
         let b := u32 (i - tbl_get swapTable (Z.land (u32 (i - pPos)) 0xFF)) in
         let b := if b <? pPos then pPos else b in
         let a := byte_at m i in
         poke (poke m i (byte_at m b)) b a)
      pStream in
  (pStream, pPos).

(** The two seeds of the extension-file cipher, from the dword that opens the
    file data: [int] arithmetic, with [%] and [/] truncating towards zero. *)
Definition ext_seeds (d : Z) : Z * Z :=
  let seed1 := s32 d in
  let seed2 := Z.rem seed1 0xFA + 6 in
  let seed1 := Z.quot seed1 0xFA in
  let seed1 := if seed1 <? 0 then seed1 + 100 else seed1 in
  let seed2 := if seed2 <? 0 then seed2 + 100 else seed2 in
  (seed1, seed2).

(** [for (i = 0; i < 0x200; i++) charTable[i] = i;] *)
Definition charTable_init : list Z :=
  for_range 0 0x200 (fun i t => tbl_set t i i) (repeat 0 512%nat).

(** The swap position of pass [i], computed in [unsigned int]. *)
Definition swap_position (seed1 seed2 i : Z) : Z :=
  u32 (u32 (u32 (i * seed2) + seed1) mod 0xFE + 1).

(** One pass of the first loop: the entries at [AX] and [AX + 1] change
    places. *)
Definition swap_step (seed1 seed2 i : Z) (charTable : list Z) : list Z :=
  let AX := swap_position seed1 seed2 i in
  let b1 := tbl_get charTable AX in
  let b2 := tbl_get charTable (AX + 1) in
  tbl_set (tbl_set charTable AX b2) (AX + 1) b1.

(** Byte table first pass: [for (i = 1; i < 0x2711; i++)]. *)
Definition table_first_pass (seed1 seed2 : Z) (charTable : list Z) : list Z :=
  for_range 1 0x2711 (swap_step seed1 seed2) charTable.

(** Byte table second pass: [for (i = 0; i < 0x100; i++)]. *)
Definition table_second_pass (charTable : list Z) : list Z :=
  for_range 0 0x100
    (fun i t => let DX := tbl_get t (i + 1) in tbl_set t (DX + 0x100) (i + 1))
    charTable.

Definition ext_charTable (d : Z) : list Z :=
  let '(seed1, seed2) := ext_seeds d in
  table_second_pass (table_first_pass seed1 seed2 charTable_init).

(** Decrypting the data block: [for (i = dataPos + 1; i < pos; i++)], with
    [dataPos] the cursor after the seed dword and [pos] the end of the
    region. *)
Definition ext_decrypt_block (charTable : list Z) (buffer : stream)
    (dataPos pos : Z) : stream :=
  for_range (u32 (dataPos + 1)) pos
    (fun i m => poke m i (tbl_get charTable (byte_at m i + 0x100)))
    buffer.

(** The extension's data region as the loader treats it: [endpos] is the
    length dword, the region runs from the cursor after it to
    [pos + endpos].  The result is the decrypted buffer, the cursor inside
    the region after the seed dword, and the cursor behind the region. *)
Definition ext_decrypt_region (buffer : stream) (pos : Z) : stream * Z * Z :=
  let '(endpos, pos) := ReadDword buffer pos in
  let dataPos := pos in
  let pos := skip pos endpos in
  let '(seed, dataPos) := ReadDword buffer dataPos in
  let charTable := ext_charTable seed in
  (ext_decrypt_block charTable buffer dataPos pos, dataPos, pos).

(** The swap pass as the specification words it, over the indices 1..9999,
    and the table built from it. *)
Definition spec_table_first_pass (seed1 seed2 : Z) (charTable : list Z) : list Z :=
  for_range 1 10000 (swap_step seed1 seed2) charTable.

Definition spec_charTable (d : Z) : list Z :=
  let '(seed1, seed2) := ext_seeds d in
  table_second_pass (spec_table_first_pass seed1 seed2 charTable_init).

(** The shape the byte table keeps through the swap pass: 512 bytes, the
    entries 1..255 a permutation of 1..255, entry 0 zero, the second half
    still as initialised. *)
Definition table_ok (t : list Z) : Prop :=
  length t = 512%nat
  /\ (forall j, 0 <= j < 512 -> 0 <= tbl_get t j < 256)
  /\ tbl_get t 0 = 0
  /\ (forall j, 1 <= j <= 255 -> 1 <= tbl_get t j <= 255)
  /\ (forall j k, 1 <= j <= 255 -> 1 <= k <= 255 ->
        tbl_get t j = tbl_get t k -> j = k)
  /\ (forall v, 1 <= v <= 255 -> exists j, 1 <= j <= 255 /\ tbl_get t j = v)
  /\ (forall j, 256 <= j < 512 -> tbl_get t j = j - 256).

(** ** Asset store (AssetManager) and code registry (CodeManager) *)

(** The record types follow the fields [GameLoad] assigns.  Runs of plain
    dword fields that nothing else in the loader looks at are kept as the
    list of their values in reading order. *)

Record ExtensionFileFunction := mkExtensionFileFunction {
  eff_name : list Z;
  eff_externalName : list Z;
  eff_convention : Z;
  eff_argCount : Z;
  eff_argTypes : list Z;
  eff_returnType : Z
}.

Record ExtensionFileConst := mkExtensionFileConst {
  efc_name : list Z;
  efc_value : list Z
}.

Record ExtensionFile := mkExtensionFile {
  ef_filename : list Z;
  ef_kind : Z;
  ef_initializer : list Z;
  ef_finalizer : list Z;
  ef_functions : list ExtensionFileFunction;
  ef_consts : list ExtensionFileConst;
  ef_data : list Z
}.

Record Extension := mkExtension {
  ext_name : list Z;
  ext_folderName : list Z;
  ext_files : list ExtensionFile
}.

Record Trigger := mkTrigger {
  trg_exists : bool;
  trg_name : list Z;
  trg_checkMoment : Z;
  trg_constantName : list Z;
  trg_codeObj : Z
}.

Record Constant := mkConstant {
  cst_name : list Z;
  cst_value : list Z
}.

Record Sound := mkSound {
  snd_exists : bool;
  snd_name : list Z;
  snd_kind : Z;
  snd_fileType : list Z;
  snd_fileName : list Z;
  snd_data : option (list Z);
  snd_volume : list Z;
  snd_pan : list Z;
  snd_preload : Z
}.

(** [left], [right], [bottom], [top] and the mask are kept as read. *)
Record CollisionMap := mkCollisionMap {
  cm_width : Z;
  cm_height : Z;
  cm_bbox : list Z;
  cm_collision : list bool
}.

Record Sprite := mkSprite {
  spr_exists : bool;
  spr_name : list Z;
  spr_originX : Z;
  spr_originY : Z;
  spr_frameCount : Z;
  spr_frames : list Z;
  spr_width : Z;
  spr_height : Z;
  spr_separateCollision : Z;
  spr_collisionMaps : list CollisionMap
}.

Record Background := mkBackground {
  bg_exists : bool;
  bg_name : list Z;
  bg_width : Z;
  bg_height : Z;
  bg_image : option Z
}.

Record Path := mkPath {
  pth_exists : bool;
  pth_name : list Z;
  pth_kind : Z;
  pth_closed : Z;
  pth_precision : Z;
  pth_points : list (list Z * list Z * list Z)
}.

Record Script := mkScript {
  scr_exists : bool;
  scr_name : list Z;
  scr_codeObj : Z
}.

Record Font := mkFont {
  fnt_exists : bool;
  fnt_name : list Z;
  fnt_fontName : list Z;
  fnt_size : Z;
  fnt_bold : Z;
  fnt_italic : Z;
  fnt_rangeBegin : Z;
  fnt_rangeEnd : Z;
  fnt_charset : Z;
  fnt_aaLevel : Z;
  fnt_dmap : list Z;
  fnt_image : Z
}.

(** An indexed list of actions: a [std::map] from the moment or event index
    to the actions stored under it. *)
Definition ActionMap (Action : Type) : Type := list (Z * list Action).

(** [m[index] = actions]. *)
Fixpoint map_assign {Action : Type} (m : ActionMap Action) (index : Z)
    (actions : list Action) : ActionMap Action :=
  match m with
  | [] => [(index, actions)]
  | (k, v) :: rest =>
      if k =? index then (k, actions) :: rest
      else (k, v) :: map_assign rest index actions
  end.

Record Timeline (Action : Type) := mkTimeline {
  tml_exists : bool;
  tml_name : list Z;
  tml_momentCount : Z;
  tml_moments : ActionMap Action
}.
Arguments mkTimeline {Action}.
Arguments tml_exists {Action}.
Arguments tml_name {Action}.
Arguments tml_momentCount {Action}.
Arguments tml_moments {Action}.

Record Object (Action : Type) := mkObject {
  obj_exists : bool;
  obj_name : list Z;
  obj_spriteIndex : Z;
  obj_solid : Z;
  obj_visible : Z;
  obj_depth : Z;
  obj_persistent : Z;
  obj_parentIndex : Z;
  obj_maskIndex : Z;
  obj_events : list (ActionMap Action)
}.
Arguments mkObject {Action}.
Arguments obj_exists {Action}.
Arguments obj_name {Action}.
Arguments obj_spriteIndex {Action}.
Arguments obj_solid {Action}.
Arguments obj_visible {Action}.
Arguments obj_depth {Action}.
Arguments obj_persistent {Action}.
Arguments obj_parentIndex {Action}.
Arguments obj_maskIndex {Action}.
Arguments obj_events {Action}.

Record RoomInstance := mkRoomInstance {
  ri_x : Z;
  ri_y : Z;
  ri_objectIndex : Z;
  ri_id : Z;
  ri_creation : Z
}.

Record Room := mkRoom {
  rm_exists : bool;
  rm_name : list Z;
  rm_caption : list Z;
  rm_width : Z;
  rm_height : Z;
  rm_speed : Z;
  rm_persistent : Z;
  rm_backgroundColour : Z;
  rm_drawBackgroundColour : Z;
  rm_creationCode : Z;
  rm_backgrounds : list (list Z);
  rm_enableViews : Z;
  rm_views : list (list Z);
  rm_instances : list RoomInstance;
  rm_tiles : list (list Z)
}.

Record IncludeFile := mkIncludeFile {
  inc_exists : bool;
  inc_filename : list Z;
  inc_filepath : list Z;
  inc_originalSize : Z;
  inc_data : option (list Z);
  inc_exportFlags : Z;
  inc_exportFolder : list Z;
  inc_overwrite : Z;
  inc_freeMemory : Z;
  inc_removeAtGameEnd : Z
}.

(** Modelled from the spec: the record a call of [AssetManager::AddX()]
    appends (AssetManager is not among the sources).  The loader only ever
    clears [exists], so a new record starts with [exists] set and its other
    fields empty. *)
Definition new_Trigger : Trigger := mkTrigger true [] 0 [] 0.
Definition new_Sound : Sound := mkSound true [] 0 [] [] None [] [] 0.
Definition new_Sprite : Sprite := mkSprite true [] 0 0 0 [] 0 0 0 [].
Definition new_Background : Background := mkBackground true [] 0 0 None.
Definition new_Path : Path := mkPath true [] 0 0 0 [].
Definition new_Script : Script := mkScript true [] 0.
Definition new_Font : Font := mkFont true [] [] 0 0 0 0 0 0 0 [] 0.
Definition new_Timeline {Action : Type} : Timeline Action := mkTimeline true [] 0 [].
Definition new_Object {Action : Type} : Object Action :=
  mkObject true [] 0 0 0 0 0 0 0 (repeat [] 12%nat).
Definition new_Room : Room := mkRoom true [] [] 0 0 0 0 0 0 0 [] 0 [] [] [].
Definition new_IncludeFile : IncludeFile :=
  mkIncludeFile true [] [] 0 None 0 [] 0 0 0.

(** [x->exists = false] on a record just added. *)
Definition tomb_Trigger (t : Trigger) : Trigger :=
  mkTrigger false (trg_name t) (trg_checkMoment t) (trg_constantName t) (trg_codeObj t).
Definition tomb_Sound (s : Sound) : Sound :=
  mkSound false (snd_name s) (snd_kind s) (snd_fileType s) (snd_fileName s)
    (snd_data s) (snd_volume s) (snd_pan s) (snd_preload s).
Definition tomb_Sprite (s : Sprite) : Sprite :=
  mkSprite false (spr_name s) (spr_originX s) (spr_originY s) (spr_frameCount s)
    (spr_frames s) (spr_width s) (spr_height s) (spr_separateCollision s)
    (spr_collisionMaps s).
Definition tomb_Background (b : Background) : Background :=
  mkBackground false (bg_name b) (bg_width b) (bg_height b) (bg_image b).
Definition tomb_Path (p : Path) : Path :=
  mkPath false (pth_name p) (pth_kind p) (pth_closed p) (pth_precision p) (pth_points p).
Definition tomb_Script (s : Script) : Script :=
  mkScript false (scr_name s) (scr_codeObj s).
Definition tomb_Font (f : Font) : Font :=
  mkFont false (fnt_name f) (fnt_fontName f) (fnt_size f) (fnt_bold f)
    (fnt_italic f) (fnt_rangeBegin f) (fnt_rangeEnd f) (fnt_charset f)
    (fnt_aaLevel f) (fnt_dmap f) (fnt_image f).
Definition tomb_Timeline {Action : Type} (t : Timeline Action) : Timeline Action :=
  mkTimeline false (tml_name t) (tml_momentCount t) (tml_moments t).
Definition tomb_Object {Action : Type} (o : Object Action) : Object Action :=
  mkObject false (obj_name o) (obj_spriteIndex o) (obj_solid o) (obj_visible o)
    (obj_depth o) (obj_persistent o) (obj_parentIndex o) (obj_maskIndex o)
    (obj_events o).
Definition tomb_Room (r : Room) : Room :=
  mkRoom false (rm_name r) (rm_caption r) (rm_width r) (rm_height r)
    (rm_speed r) (rm_persistent r) (rm_backgroundColour r)
    (rm_drawBackgroundColour r) (rm_creationCode r) (rm_backgrounds r)
    (rm_enableViews r) (rm_views r) (rm_instances r) (rm_tiles r).
Definition tomb_IncludeFile (f : IncludeFile) : IncludeFile :=
  mkIncludeFile false (inc_filename f) (inc_filepath f) (inc_originalSize f)
    (inc_data f) (inc_exportFlags f) (inc_exportFolder f) (inc_overwrite f)
    (inc_freeMemory f) (inc_removeAtGameEnd f).

(** Modelled from the spec: [AssetManager::GetX(id)] looks a record up by its
    position in its table. *)
Definition GetAsset {R : Type} (table : list R) (id : Z) : option R :=
  if id <? 0 then None else nth_error table (Z.to_nat id).

(** Modelled from the spec: the code registry behind
    [CodeManager::Register] and [CodeManager::RegisterQuestion].  A code
    blob is kept with its kind ([true] for a question) and its handle is its
    position in the registry. *)
Definition CodeRegistry : Type := list (bool * list Z).

Definition Register (reg : CodeRegistry) (question : bool) (code : list Z)
  : CodeRegistry * Z :=
  (reg ++ [(question, code)], Z.of_nat (length reg)).

(** What the loader changes besides its cursors and tables: the renderer
    (through [RMakeImage]) and the code registry. *)
Record World := mkWorld {
  w_rend : Renderer;
  w_code : CodeRegistry
}.

(** ** The asset loader (Game.cpp) *)

(** The ways a piece of [GameLoad] can end: [Return code] is a [return]
    statement of [GameLoad] reached inside it, [Continue a] is falling
    through to the next statement, [Abort] is the call of [abort()] in
    [RMakeImage], and [Diverge] stands for a loop that did not end within
    the allotted number of passes. *)
Inductive flow (A : Type) : Type :=
| Return (code : bool)
| Continue (a : A)
| Abort
| Diverge.
Arguments Return {A} code.
Arguments Continue {A} a.
Arguments Abort {A}.
Arguments Diverge {A}.

Definition bind {A B : Type} (m : flow A) (k : A -> flow B) : flow B :=
  match m with
  | Return code => Return code
  | Continue a => k a
  | Abort => Abort
  | Diverge => Diverge
  end.

Notation "'do' x <- m ; k" := (bind m (fun x => k))
  (at level 10, x pattern, m at level 100, k at level 200).

(** A loop [for (; count > 0; count--)] whose body may leave [GameLoad]. *)
Fixpoint repeat_flow {S : Type} (n : nat) (step : S -> flow S) (s : S) : flow S :=
  match n with
  | O => Continue s
  | S n' => do s' <- step s; repeat_flow n' step s'
  end.

(** [table.back() = f(table.back())]: a write through the pointer that
    [AssetManager::AddX()] returned. *)
Definition modify_last {R : Type} (f : R -> R) (table : list R) : list R :=
  update_nth (length table - 1) f table.

(** The pixel loops of the sprite and background sections:
    [for (; dataPos < pixelDataEnd; dataPos += 4)] exchanging the bytes at
    [dataPos] and [dataPos + 2]. *)
Definition swap_channels (data : stream) (dataPos pixelDataEnd : Z) : stream * Z :=
  let n := Z.to_nat ((pixelDataEnd - dataPos + 3) / 4) in
  (for_up n dataPos 4
     (fun p m => let tmp := byte_at m p in
                 poke (poke m p (byte_at m (p + 2))) (p + 2) tmp)
     data,
   u32 (dataPos + 4 * Z.of_nat n)).

(** The GM8.1 header scan: [n] passes of the [for] loop from [pos]; the
    result is the cursor behind the two header dwords when they are found. *)
Fixpoint scan_81 (n : nat) (buffer : stream) (pos : Z) : option Z :=
  match n with
  | O => None
  | S n' =>
      let '(d1, pos) := ReadDword buffer pos in
      if Z.land d1 0xFF00FF00 =? 0xF7000000 then
        let '(d2, pos) := ReadDword buffer pos in
        if Z.land d2 0x00FF00FF =? 0x00140067 then Some pos
        else scan_81 n' buffer (u32 (pos - 4))
      else scan_81 n' buffer pos
  end.

(** "Find game version by searching for headers": the version (0 when no
    header was found), the buffer (decrypted for 8.1) and the cursor.  The
    dwords are read at fixed offsets without a look at [file_size]; the
    result is what the memory holds there, and it is the program's answer
    for a file when those offsets lie inside its buffer (see
    [detect_version_reads]). *)
Definition detect_version (buffer : stream) (file_size : Z) : Z * stream * Z :=
  let '(d, pos) := ReadDword buffer 2000000 in
  if d =? 1234321 then (800, buffer, skip pos 8)
  else
    match scan_81 1024 buffer 3800004 with
    | Some pos =>
        let '(buffer, pos) := Decrypt81 buffer (u32 file_size) pos in
        (810, buffer, skip pos 16)
    | None => (0, buffer, 0)
    end.

(** The file as [GameLoad] finds it on disk. *)
Record GameFile := mkGameFile {
  file_size : Z;
  file_bytes : stream
}.

(** What the environment answers before parsing starts: the two [Init]
    calls, opening the file ([None] when it cannot be opened) and the
    allocation of the buffer. *)
Record Host := mkHost {
  actions_init : bool;
  code_init : bool;
  game_file : option GameFile;
  buffer_alloc : bool
}.

(** The form in which the loader leaves the settings block: the 23 leading
    dwords in order ([fullscreen] ... [freeze]), the six dwords after the
    load image ([transparent] ... [errorAbort]) and the fields it tests. *)
Record GameSettings := mkGameSettings {
  gs_main : list Z;
  gs_loadingBar : Z;
  gs_customLoadImage : Z;
  gs_tail : list Z;
  gs_treatAsZero : Z;
  gs_errorOnUninitialization : Z
}.

Record GameInfo := mkGameInfo {
  gi_backgroundColour : Z;
  gi_separateWindow : Z;
  gi_caption : list Z;
  gi_window : list Z;
  gi_gameInfo : list Z
}.

Section Loader.

(** zlib: inflating a block of compressed bytes gives the decompressed
    bytes, or fails. *)
Variable zinflate : list Z -> option (list Z).

(** CodeActionManager: the type of a code action, reading one from a
    stream (the action and the advanced cursor, or failure) and compiling
    one. *)
Variable Action : Type.
Variable readAction : stream -> Z -> option (Action * Z).
Variable compileAction : Action -> bool.

(** [CodeManager::Compile] on a registered blob. *)
Variable compileCode : bool * list Z -> bool.

(** The number of passes allowed to the [while (true)] loop that reads an
    object's event list. *)
Variable event_fuel : nat.

(** [InflateBlock]: on success the advanced cursor, the output buffer
    holding the inflated bytes from its start, and their number.  The
    chunked calls of [inflate] and the growth of the buffer are folded
    into [zinflate]. *)
Definition InflateBlock (pStream : stream) (pPos : Z) (pOutBuffer : stream)
  : option (Z * stream * Z) :=
  let '(len, pPos) := ReadDword pStream pPos in
  match zinflate (read_bytes pStream pPos (Z.to_nat len)) with
  | None => None
  | Some out =>
      Some (u32 (pPos + len),
            (fun i => if (0 <=? i) && (i <? Z.of_nat (length out))
                      then nth (Z.to_nat i) out 0 else pOutBuffer i),
            u32 (Z.of_nat (length out)))
  end.

(** *** Settings *)

Definition read_settings (version : Z) (data : stream) : flow GameSettings :=
  let settingsPos := 0 in
  let '(main, settingsPos) := read_dwords 23 data settingsPos in
  let '(loadingBar, settingsPos) := ReadDword data settingsPos in
  do settingsPos <-
    (if loadingBar =? 0 then Continue settingsPos
     else
       let loadingData : stream := fun _ => 0 in
       let '(back, settingsPos) := ReadDword data settingsPos in
       do (settingsPos, loadingData) <-
         (if back =? 0 then Continue (settingsPos, loadingData)
          else match InflateBlock data settingsPos loadingData with
               | None => Return false
               | Some (p, ld, _) => Continue (p, ld)
               end);
       let '(front, settingsPos) := ReadDword data settingsPos in
       if front =? 0 then Continue settingsPos
       else match InflateBlock data settingsPos loadingData with
            | None => Return false
            | Some (p, _, _) => Continue p
            end);
  let '(customLoadImage, settingsPos) := ReadDword data settingsPos in
  do settingsPos <-
    (if customLoadImage =? 0 then Continue settingsPos
     else match InflateBlock data settingsPos (fun _ => 0) with
          | None => Return false
          | Some (p, _, _) => Continue p
          end);
  let '(tail, settingsPos) := read_dwords 6 data settingsPos in
  let '(uninit, settingsPos) := ReadDword data settingsPos in
  Continue
    (if version =? 810
     then mkGameSettings main loadingBar customLoadImage tail
            (Z.land uninit 1) (Z.land uninit 2)
     else mkGameSettings main loadingBar customLoadImage tail uninit 1).

(** *** Extensions *)

Fixpoint read_functions (n : nat) (buffer : stream) (pos : Z)
  : list ExtensionFileFunction * Z :=
  match n with
  | O => ([], pos)
  | S n' =>
      let pos := skip pos 4 in
      let '(name, pos) := ReadString buffer pos in
      let '(externalName, pos) := ReadString buffer pos in
      let '(convention, pos) := ReadDword buffer pos in
      let pos := skip pos 4 in
      let '(argCount, pos) := ReadDword buffer pos in
      let '(argTypes, pos) := read_dwords 17 buffer pos in
      let '(returnType, pos) := ReadDword buffer pos in
      let '(rest, pos) := read_functions n' buffer pos in
      (mkExtensionFileFunction name externalName convention argCount
         argTypes returnType :: rest, pos)
  end.

Fixpoint read_consts (n : nat) (buffer : stream) (pos : Z)
  : list ExtensionFileConst * Z :=
  match n with
  | O => ([], pos)
  | S n' =>
      let pos := skip pos 4 in
      let '(name, pos) := ReadString buffer pos in
      let '(value, pos) := ReadString buffer pos in
      let '(rest, pos) := read_consts n' buffer pos in
      (mkExtensionFileConst name value :: rest, pos)
  end.

(** The list of files inside the extension (their data comes later). *)
Fixpoint read_ext_files (n : nat) (buffer : stream) (pos : Z)
  : list ExtensionFile * Z :=
  match n with
  | O => ([], pos)
  | S n' =>
      let pos := skip pos 4 in
      let '(filename, pos) := ReadString buffer pos in
      let '(kind, pos) := ReadDword buffer pos in
      let '(initializer, pos) := ReadString buffer pos in
      let '(finalizer, pos) := ReadString buffer pos in
      let '(functionCount, pos) := ReadDword buffer pos in
      let '(functions, pos) := read_functions (Z.to_nat functionCount) buffer pos in
      let '(constCount, pos) := ReadDword buffer pos in
      let '(consts, pos) := read_consts (Z.to_nat constCount) buffer pos in
      let '(rest, pos) := read_ext_files n' buffer pos in
      (mkExtensionFile filename kind initializer finalizer functions consts []
         :: rest, pos)
  end.

(** "Read the files": one [InflateBlock] per file; [None] when one of
    them fails. *)
Fixpoint read_ext_data (files : list ExtensionFile) (buffer : stream)
    (dataPos : Z) (data : stream) : option (list ExtensionFile * stream) :=
  match files with
  | [] => Some ([], data)
  | f :: rest =>
      match InflateBlock buffer dataPos data with
      | None => None
      | Some (dataPos, data, outputSize) =>
          let f := mkExtensionFile (ef_filename f) (ef_kind f)
                     (ef_initializer f) (ef_finalizer f) (ef_functions f)
                     (ef_consts f) (read_bytes data 0 (Z.to_nat outputSize)) in
          match read_ext_data rest buffer dataPos data with
          | None => None
          | Some (rest, data) => Some (f :: rest, data)
          end
      end
  end.

(** One pass of the extension loop.  A failing file read leaves
    [GameLoad] with [return true]. *)
Definition load_extension (st : stream * Z * stream * list Extension)
  : flow (stream * Z * stream * list Extension) :=
  let '(buffer, pos, data, extensions) := st in
  let pos := skip pos 4 in
  let '(name, pos) := ReadString buffer pos in
  let '(folderName, pos) := ReadString buffer pos in
  let '(fileCount, pos) := ReadDword buffer pos in
  let '(files, pos) := read_ext_files (Z.to_nat fileCount) buffer pos in
  let '(buffer, dataPos, pos) := ext_decrypt_region buffer pos in
  match read_ext_data files buffer dataPos data with
  | None => Return true
  | Some (files, data) =>
      Continue (buffer, pos, data,
                extensions ++ [mkExtension name folderName files])
  end.

Definition load_extensions (buffer : stream) (pos : Z) (data : stream)
  : flow (stream * Z * stream * list Extension) :=
  let pos := skip pos 4 in
  let '(count, pos) := ReadDword buffer pos in
  repeat_flow (Z.to_nat count) load_extension (buffer, pos, data, []).

(** *** Sections with one compressed block per record *)

Section Records.

Context {R : Type}.

(** The record [AssetManager::AddX()] appends, the assignment
    [x->exists = false], and the parser of a record's body: it gets the
    inflated block, the cursor behind the leading dword, and the record
    to fill in. *)
Variable fresh : R.
Variable tombstone : R -> R.
Variable body : stream -> Z -> R -> World -> flow (R * stream * World).

(** One pass of a section's loop: inflate the record's block, add the
    record, test the leading dword, parse the body. *)
Definition load_record (buffer : stream) (st : Z * stream * World * list R)
  : flow (Z * stream * World * list R) :=
  let '(pos, data, w, table) := st in
  match InflateBlock buffer pos data with
  | None => Return false
  | Some (pos, data, _) =>
      let table := table ++ [fresh] in
      let '(flag, dataPos) := ReadDword data 0 in
      if flag =? 0 then Continue (pos, data, w, modify_last tombstone table)
      else
        do (r, data, w) <- body data dataPos fresh w;
        Continue (pos, data, w, modify_last (fun _ => r) table)
  end.

(** A whole section: [pos += 4], the record count, the loop. *)
Definition load_section (buffer : stream) (pos : Z) (data : stream) (w : World)
  : flow (Z * stream * World * list R) :=
  let pos := skip pos 4 in
  let '(count, pos) := ReadDword buffer pos in
  repeat_flow (Z.to_nat count) (load_record buffer) (pos, data, w, []).

End Records.

(** *** The bodies of the records *)

Definition trigger_body (data : stream) (dataPos : Z) (t : Trigger) (w : World)
  : flow (Trigger * stream * World) :=
  let dataPos := skip dataPos 4 in
  let '(name, dataPos) := ReadString data dataPos in
  let '(condition, dataPos) := ReadString data dataPos in
  let '(checkMoment, dataPos) := ReadDword data dataPos in
  let '(constantName, dataPos) := ReadString data dataPos in
  let '(reg, codeObj) := Register (w_code w) true condition in
  Continue (mkTrigger (trg_exists t) name checkMoment constantName codeObj,
            data, mkWorld (w_rend w) reg).

(** The sound bytes are copied from the cursor, which is not moved past
    them. *)
Definition sound_body (data : stream) (dataPos : Z) (s : Sound) (w : World)
  : flow (Sound * stream * World) :=
  let '(name, dataPos) := ReadString data dataPos in
  let dataPos := skip dataPos 4 in
  let '(kind, dataPos) := ReadDword data dataPos in
  let '(fileType, dataPos) := ReadString data dataPos in
  let '(fileName, dataPos) := ReadString data dataPos in
  let '(present, dataPos) := ReadDword data dataPos in
  let '(sdata, dataPos) :=
    if present =? 0 then (None, dataPos)
    else let '(l, dataPos) := ReadDword data dataPos in
         (Some (read_bytes data dataPos (Z.to_nat l)), dataPos) in
  let dataPos := skip dataPos 4 in
  let '(volume, dataPos) := ReadDouble data dataPos in
  let '(pan, dataPos) := ReadDouble data dataPos in
  let '(preload, dataPos) := ReadDword data dataPos in
  Continue (mkSound (snd_exists s) name kind fileType fileName sdata volume
              pan preload, data, w).

(** "Frame data": one pass per frame; the accumulator holds the block, the
    cursor, the world, the frames so far and the sprite's size. *)
Fixpoint sprite_frames (n : nat) (i : Z) (oX oY : Z)
    (st : stream * Z * World * list Z * Z * Z)
  : flow (stream * Z * World * list Z * Z * Z) :=
  match n with
  | O => Continue st
  | S n' =>
      let '(data, dataPos, w, frames, width, height) := st in
      let dataPos := skip dataPos 4 in
      let '(frameW, dataPos) := ReadDword data dataPos in
      let '(frameH, dataPos) := ReadDword data dataPos in
      let '(pixelDataLength, dataPos) := ReadDword data dataPos in
      if negb (pixelDataLength =? u32 (frameW * frameH * 4)) then Return false
      else
        let pixelData := dataPos in
        let pixelDataEnd := u32 (dataPos + pixelDataLength) in
        let '(data, dataPos) := swap_channels data dataPos pixelDataEnd in
        match RMakeImage (w_rend w) frameW frameH oX oY
                (fun k => data (pixelData + k)) with
        | None => Abort
        | Some (rend, ix) =>
            let '(width, height) :=
              if i =? 0 then (frameW, frameH) else (width, height) in
            sprite_frames n' (i + 1) oX oY
              (data, dataPos, mkWorld rend (w_code w), frames ++ [ix],
               width, height)
        end
  end.

Definition read_collision_map (data : stream) (dataPos : Z) : CollisionMap * Z :=
  let dataPos := skip dataPos 4 in
  let '(width, dataPos) := ReadDword data dataPos in
  let '(height, dataPos) := ReadDword data dataPos in
  let '(bbox, dataPos) := read_dwords 4 data dataPos in
  let maskSize := u32 (width * height) in
  let '(mask, dataPos) := read_dwords (Z.to_nat maskSize) data dataPos in
  (mkCollisionMap width height bbox (map (fun d => negb (d =? 0)) mask), dataPos).

Fixpoint read_collision_maps (n : nat) (data : stream) (dataPos : Z)
  : list CollisionMap * Z :=
  match n with
  | O => ([], dataPos)
  | S n' =>
      let '(m, dataPos) := read_collision_map data dataPos in
      let '(rest, dataPos) := read_collision_maps n' data dataPos in
      (m :: rest, dataPos)
  end.

Definition sprite_body (data : stream) (dataPos : Z) (s : Sprite) (w : World)
  : flow (Sprite * stream * World) :=
  let '(name, dataPos) := ReadString data dataPos in
  let dataPos := skip dataPos 4 in
  let '(oX, dataPos) := ReadDword data dataPos in
  let '(oY, dataPos) := ReadDword data dataPos in
  let '(frameCount, dataPos) := ReadDword data dataPos in
  if frameCount =? 0 then
    Continue (mkSprite (spr_exists s) name oX oY frameCount (spr_frames s) 1 1
                (spr_separateCollision s) (spr_collisionMaps s), data, w)
  else
    do (data, dataPos, w, frames, width, height) <-
      sprite_frames (Z.to_nat frameCount) 0 oX oY
        (data, dataPos, w, [], spr_width s, spr_height s);
    let '(separateCollision, dataPos) := ReadDword data dataPos in
    let '(maps, dataPos) :=
      if separateCollision =? 0
      then let '(m, dataPos) := read_collision_map data dataPos in ([m], dataPos)
      else read_collision_maps (Z.to_nat frameCount) data dataPos in
    Continue (mkSprite (spr_exists s) name oX oY frameCount frames width
                height separateCollision maps, data, w).

Definition background_body (data : stream) (dataPos : Z) (b : Background)
    (w : World) : flow (Background * stream * World) :=
  let '(name, dataPos) := ReadString data dataPos in
  let dataPos := skip dataPos 8 in
  let '(width, dataPos) := ReadDword data dataPos in
  let '(height, dataPos) := ReadDword data dataPos in
  if (width >? 0) && (height >? 0) then
    let '(len, dataPos) := ReadDword data dataPos in
    let dStart := dataPos in
    let pixelDataEnd := u32 (dataPos + len) in
    let '(data, dataPos) := swap_channels data dataPos pixelDataEnd in
    match RMakeImage (w_rend w) width height 0 0 (fun k => data (dStart + k)) with
    | None => Abort
    | Some (rend, ix) =>
        Continue (mkBackground (bg_exists b) name width height (Some ix),
                  data, mkWorld rend (w_code w))
    end
  else Continue (mkBackground (bg_exists b) name width height (bg_image b),
                 data, w).

Fixpoint read_points (n : nat) (data : stream) (dataPos : Z)
  : list (list Z * list Z * list Z) * Z :=
  match n with
  | O => ([], dataPos)
  | S n' =>
      let '(x, dataPos) := ReadDouble data dataPos in
      let '(y, dataPos) := ReadDouble data dataPos in
      let '(speed, dataPos) := ReadDouble data dataPos in
      let '(rest, dataPos) := read_points n' data dataPos in
      ((x, y, speed) :: rest, dataPos)
  end.

Definition path_body (data : stream) (dataPos : Z) (p : Path) (w : World)
  : flow (Path * stream * World) :=
  let '(name, dataPos) := ReadString data dataPos in
  let dataPos := skip dataPos 4 in
  let '(kind, dataPos) := ReadDword data dataPos in
  let '(closed, dataPos) := ReadDword data dataPos in
  let '(precision, dataPos) := ReadDword data dataPos in
  let '(pointCount, dataPos) := ReadDword data dataPos in
  let '(points, dataPos) := read_points (Z.to_nat pointCount) data dataPos in
  Continue (mkPath (pth_exists p) name kind closed precision points, data, w).

Definition script_body (data : stream) (dataPos : Z) (s : Script) (w : World)
  : flow (Script * stream * World) :=
  let '(name, dataPos) := ReadString data dataPos in
  let dataPos := skip dataPos 4 in
  let '(code, dataPos) := ReadString data dataPos in
  let '(reg, codeObj) := Register (w_code w) false code in
  Continue (mkScript (scr_exists s) name codeObj, data, mkWorld (w_rend w) reg).

(** The glyph image is built in a buffer of [dlen * 4] bytes set to 0xFF
    whose every fourth byte (the alpha channel) comes from the block. *)
Definition font_body (version : Z) (data : stream) (dataPos : Z) (f : Font)
    (w : World) : flow (Font * stream * World) :=
  let '(name, dataPos) := ReadString data dataPos in
  let dataPos := skip dataPos 4 in
  let '(fontName, dataPos) := ReadString data dataPos in
  let '(size, dataPos) := ReadDword data dataPos in
  let '(bold, dataPos) := ReadDword data dataPos in
  let '(italic, dataPos) := ReadDword data dataPos in
  let '(rangeBegin, dataPos) := ReadDword data dataPos in
  let '(rangeEnd, dataPos) := ReadDword data dataPos in
  let '(charset, aaLevel, rangeBegin) :=
    if version =? 810
    then (Z.land rangeBegin 0xFF000000, Z.land rangeBegin 0x00FF0000,
          Z.land rangeBegin 0x0000FFFF)
    else (fnt_charset f, fnt_aaLevel f, rangeBegin) in
  let '(dmap, dataPos) := read_dwords 0x600 data dataPos in
  let '(gw, dataPos) := ReadDword data dataPos in
  let '(gh, dataPos) := ReadDword data dataPos in
  let '(dlen, dataPos) := ReadDword data dataPos in
  if negb (u32 (gw * gh) =? dlen) then Return false
  else
    let d : stream :=
      fun k => if k mod 4 =? 3 then byte_at data (u32 (dataPos + k / 4)) else 0xFF in
    match RMakeImage (w_rend w) gw gh 0 0 d with
    | None => Abort
    | Some (rend, ix) =>
        Continue (mkFont (fnt_exists f) name fontName size bold italic
                    rangeBegin rangeEnd charset aaLevel dmap ix,
                  data, mkWorld rend (w_code w))
    end.

(** [n] calls of [CodeActionManager::Read]; [None] when one fails. *)
Fixpoint read_actions (n : nat) (data : stream) (dataPos : Z)
  : option (list Action * Z) :=
  match n with
  | O => Some ([], dataPos)
  | S n' =>
      match readAction data dataPos with
      | None => None
      | Some (a, dataPos) =>
          match read_actions n' data dataPos with
          | None => None
          | Some (rest, dataPos) => Some (a :: rest, dataPos)
          end
      end
  end.

Fixpoint timeline_moments (n : nat) (data : stream) (dataPos : Z)
    (moments : ActionMap Action) : flow (ActionMap Action * Z) :=
  match n with
  | O => Continue (moments, dataPos)
  | S n' =>
      let '(index, dataPos) := ReadDword data dataPos in
      let dataPos := skip dataPos 4 in
      let '(actionCount, dataPos) := ReadDword data dataPos in
      match read_actions (Z.to_nat actionCount) data dataPos with
      | None => Return false
      | Some (actions, dataPos) =>
          timeline_moments n' data dataPos (map_assign moments index actions)
      end
  end.

Definition timeline_body (data : stream) (dataPos : Z) (t : Timeline Action)
    (w : World) : flow (Timeline Action * stream * World) :=
  let '(name, dataPos) := ReadString data dataPos in
  let dataPos := skip dataPos 4 in
  let '(momentCount, dataPos) := ReadDword data dataPos in
  do (moments, dataPos) <-
    timeline_moments (Z.to_nat momentCount) data dataPos (tml_moments t);
  Continue (mkTimeline (tml_exists t) name momentCount moments, data, w).

(** The [while (true)] loop over the events of one type; it ends at the
    index -1. *)
Fixpoint object_event_list (passes : nat) (data : stream) (dataPos : Z)
    (events : ActionMap Action) : flow (ActionMap Action * Z) :=
  match passes with
  | O => Diverge
  | S passes' =>
      let '(index, dataPos) := ReadDword data dataPos in
      if index =? 0xFFFFFFFF then Continue (events, dataPos)
      else
        let dataPos := skip dataPos 4 in
        let '(actionCount, dataPos) := ReadDword data dataPos in
        match read_actions (Z.to_nat actionCount) data dataPos with
        | None => Return false
        | Some (actions, dataPos) =>
            object_event_list passes' data dataPos
              (map_assign events index actions)
        end
  end.

(** "Read each of the 12 event types". *)
Fixpoint object_events (types : list (ActionMap Action)) (data : stream)
    (dataPos : Z) : flow (list (ActionMap Action) * Z) :=
  match types with
  | [] => Continue ([], dataPos)
  | events :: rest =>
      do (events, dataPos) <- object_event_list event_fuel data dataPos events;
      do (rest, dataPos) <- object_events rest data dataPos;
      Continue (events :: rest, dataPos)
  end.

Definition object_body (data : stream) (dataPos : Z) (o : Object Action)
    (w : World) : flow (Object Action * stream * World) :=
  let '(name, dataPos) := ReadString data dataPos in
  let dataPos := skip dataPos 4 in
  let '(spriteIndex, dataPos) := ReadDword data dataPos in
  let '(solid, dataPos) := ReadDword data dataPos in
  let '(visible, dataPos) := ReadDword data dataPos in
  let '(depth, dataPos) := ReadDword data dataPos in
  let '(persistent, dataPos) := ReadDword data dataPos in
  let '(parentIndex, dataPos) := ReadDword data dataPos in
  let '(maskIndex, dataPos) := ReadDword data dataPos in
  let dataPos := skip dataPos 4 in
  do (events, dataPos) <- object_events (obj_events o) data dataPos;
  Continue (mkObject (obj_exists o) name (s32 spriteIndex) solid visible
              (s32 depth) persistent (s32 parentIndex) (s32 maskIndex) events,
            data, w).

Fixpoint read_groups (n : nat) (size : nat) (data : stream) (dataPos : Z)
  : list (list Z) * Z :=
  match n with
  | O => ([], dataPos)
  | S n' =>
      let '(g, dataPos) := read_dwords size data dataPos in
      let '(rest, dataPos) := read_groups n' size data dataPos in
      (g :: rest, dataPos)
  end.

Fixpoint read_room_instances (n : nat) (data : stream) (dataPos : Z)
    (reg : CodeRegistry) : list RoomInstance * Z * CodeRegistry :=
  match n with
  | O => ([], dataPos, reg)
  | S n' =>
      let '(x, dataPos) := ReadDword data dataPos in
      let '(y, dataPos) := ReadDword data dataPos in
      let '(objectIndex, dataPos) := ReadDword data dataPos in
      let '(id, dataPos) := ReadDword data dataPos in
      let '(code, dataPos) := ReadString data dataPos in
      let '(reg, creation) := Register reg false code in
      let '(rest, dataPos, reg) := read_room_instances n' data dataPos reg in
      (mkRoomInstance (s32 x) (s32 y) objectIndex id creation :: rest,
       dataPos, reg)
  end.

Definition room_body (data : stream) (dataPos : Z) (r : Room) (w : World)
  : flow (Room * stream * World) :=
  let '(name, dataPos) := ReadString data dataPos in
  let dataPos := skip dataPos 4 in
  let '(caption, dataPos) := ReadString data dataPos in
  let '(width, dataPos) := ReadDword data dataPos in
  let '(height, dataPos) := ReadDword data dataPos in
  let '(speed, dataPos) := ReadDword data dataPos in
  let '(persistent, dataPos) := ReadDword data dataPos in
  let '(backgroundColour, dataPos) := ReadDword data dataPos in
  let '(drawBackgroundColour, dataPos) := ReadDword data dataPos in
  let '(creation, dataPos) := ReadString data dataPos in
  let '(reg, creationCode) := Register (w_code w) false creation in
  let '(backgroundCount, dataPos) := ReadDword data dataPos in
  let '(backgrounds, dataPos) :=
    read_groups (Z.to_nat backgroundCount) 10 data dataPos in
  let '(enableViews, dataPos) := ReadDword data dataPos in
  let '(viewCount, dataPos) := ReadDword data dataPos in
  let '(views, dataPos) := read_groups (Z.to_nat viewCount) 14 data dataPos in
  let '(instanceCount, dataPos) := ReadDword data dataPos in
  let '(instances, dataPos, reg) :=
    read_room_instances (Z.to_nat instanceCount) data dataPos reg in
  let '(tileCount, dataPos) := ReadDword data dataPos in
  let '(tiles, dataPos) := read_groups (Z.to_nat tileCount) 9 data dataPos in
  Continue (mkRoom (rm_exists r) name caption width height speed persistent
              backgroundColour drawBackgroundColour creationCode backgrounds
              enableViews views instances tiles,
            data, mkWorld (w_rend w) reg).

(** [inExe = inExe && ReadDword(...)]: the second dword is only read when
    the first is set.  As for sounds, the cursor is not moved past the
    copied bytes. *)
Definition include_body (data : stream) (dataPos : Z) (f : IncludeFile)
    (w : World) : flow (IncludeFile * stream * World) :=
  let dataPos := skip dataPos 4 in
  let '(filename, dataPos) := ReadString data dataPos in
  let '(filepath, dataPos) := ReadString data dataPos in
  let '(inExe, dataPos) := ReadDword data dataPos in
  let '(originalSize, dataPos) := ReadDword data dataPos in
  let '(inExe, dataPos) :=
    if inExe =? 0 then (false, dataPos)
    else let '(stored, dataPos) := ReadDword data dataPos in
         (negb (stored =? 0), dataPos) in
  let '(fdata, dataPos) :=
    if inExe
    then let '(dataLength, dataPos) := ReadDword data dataPos in
         (Some (read_bytes data dataPos (Z.to_nat dataLength)), dataPos)
    else (inc_data f, dataPos) in
  let '(exportFlags, dataPos) := ReadDword data dataPos in
  let '(exportFolder, dataPos) := ReadString data dataPos in
  let '(overwrite, dataPos) := ReadDword data dataPos in
  let '(freeMemory, dataPos) := ReadDword data dataPos in
  let '(removeAtGameEnd, dataPos) := ReadDword data dataPos in
  Continue (mkIncludeFile (inc_exists f) filename filepath originalSize fdata
              exportFlags exportFolder overwrite freeMemory removeAtGameEnd,
            data, w).

(** The constants are not compressed and carry no leading flag. *)
Fixpoint read_constants (n : nat) (buffer : stream) (pos : Z)
  : list Constant * Z :=
  match n with
  | O => ([], pos)
  | S n' =>
      let '(name, pos) := ReadString buffer pos in
      let '(value, pos) := ReadString buffer pos in
      let '(rest, pos) := read_constants n' buffer pos in
      (mkConstant name value :: rest, pos)
  end.

(** *** The post-load compilation pass *)

(** [CodeManager::Compile(codeObj)]. *)
Definition compile_handle (reg : CodeRegistry) (codeObj : Z) : bool :=
  match GetAsset reg codeObj with
  | Some blob => compileCode blob
  | None => false
  end.

(** Every action stored in an action map compiles. *)
Definition compile_actions (m : ActionMap Action) : bool :=
  forallb (fun e => forallb compileAction (snd e)) m.

Definition compile_scripts (reg : CodeRegistry) (scripts : list Script) : bool :=
  forallb (fun s => if scr_exists s then compile_handle reg (scr_codeObj s) else true)
    scripts.

Definition compile_timelines (timelines : list (Timeline Action)) : bool :=
  forallb (fun t => if tml_exists t then compile_actions (tml_moments t) else true)
    timelines.

Definition compile_objects (objects : list (Object Action)) : bool :=
  forallb (fun o => if obj_exists o then forallb compile_actions (obj_events o)
                    else true)
    objects.

Definition compile_triggers (reg : CodeRegistry) (triggers : list Trigger) : bool :=
  forallb (fun t => if trg_exists t then compile_handle reg (trg_codeObj t) else true)
    triggers.

Definition compile_rooms (reg : CodeRegistry) (rooms : list Room) : bool :=
  forallb (fun r => if rm_exists r
                    then compile_handle reg (rm_creationCode r)
                         && forallb (fun i => compile_handle reg (ri_creation i))
                              (rm_instances r)
                    else true)
    rooms.

(** *** GameLoad *)

(** What a completed load leaves behind. *)
Record Loaded := mkLoaded {
  ld_version : Z;
  ld_settings : GameSettings;
  ld_extensions : list Extension;
  ld_triggers : list Trigger;
  ld_constants : list Constant;
  ld_sounds : list Sound;
  ld_sprites : list Sprite;
  ld_backgrounds : list Background;
  ld_paths : list Path;
  ld_scripts : list Script;
  ld_fonts : list Font;
  ld_timelines : list (Timeline Action);
  ld_objects : list (Object Action);
  ld_rooms : list Room;
  ld_lastIDs : Z * Z;
  ld_includes : list IncludeFile;
  ld_info : GameInfo;
  ld_roomOrder : list Z;
  ld_world : World
}.

(** "Garbage?": [count] passes of [pos += ReadDword(buffer, &pos)]. *)
Fixpoint skip_garbage (n : nat) (buffer : stream) (pos : Z) : Z :=
  match n with
  | O => pos
  | S n' => let '(d, pos) := ReadDword buffer pos in
            skip_garbage n' buffer (skip pos d)
  end.

(** Everything from "Read all the data blocks" on, for a recognised
    version. *)
Definition load_blocks (version : Z) (buffer : stream) (pos : Z)
    (rend : Renderer) : flow Loaded :=
  let data : stream := fun _ => 0 in
  (* Settings Data Chunk *)
  let pos := skip pos 4 in
  match InflateBlock buffer pos data with
  | None => Return false
  | Some (pos, data, _) =>
  do settings <- read_settings version data;
  (* Skip over the D3D wrapper *)
  let '(d, pos) := ReadDword buffer pos in
  let pos := skip pos d in
  let '(d, pos) := ReadDword buffer pos in
  let pos := skip pos d in
  let '(buffer, pos) := DecryptData buffer pos in
  (* Garbage fields *)
  let '(g, pos) := ReadDword buffer pos in
  let pos := skip pos (u32 ((g + 6) * 4)) in
  do (buffer, pos, data, extensions) <- load_extensions buffer pos data;
  let w := mkWorld rend [] in
  do (pos, data, w, triggers) <-
    load_section new_Trigger tomb_Trigger trigger_body buffer pos data w;
  (* Constants *)
  let pos := skip pos 4 in
  let '(count, pos) := ReadDword buffer pos in
  let '(constants, pos) := read_constants (Z.to_nat count) buffer pos in
  do (pos, data, w, sounds) <-
    load_section new_Sound tomb_Sound sound_body buffer pos data w;
  do (pos, data, w, sprites) <-
    load_section new_Sprite tomb_Sprite sprite_body buffer pos data w;
  do (pos, data, w, backgrounds) <-
    load_section new_Background tomb_Background background_body buffer pos data w;
  do (pos, data, w, paths) <-
    load_section new_Path tomb_Path path_body buffer pos data w;
  do (pos, data, w, scripts) <-
    load_section new_Script tomb_Script script_body buffer pos data w;
  do (pos, data, w, fonts) <-
    load_section new_Font tomb_Font (font_body version) buffer pos data w;
  do (pos, data, w, timelines) <-
    load_section new_Timeline tomb_Timeline timeline_body buffer pos data w;
  do (pos, data, w, objects) <-
    load_section new_Object tomb_Object object_body buffer pos data w;
  do (pos, data, w, rooms) <-
    load_section new_Room tomb_Room room_body buffer pos data w;
  (* Last instance and tile ID placed *)
  let '(lastInstanceID, pos) := ReadDword buffer pos in
  let '(lastTileID, pos) := ReadDword buffer pos in
  do (pos, data, w, includes) <-
    load_section new_IncludeFile tomb_IncludeFile include_body buffer pos data w;
  (* Game information data *)
  let pos := skip pos 4 in
  match InflateBlock buffer pos data with
  | None => Return false
  | Some (pos, data, _) =>
  let dataPos := 0 in
  let '(backgroundColour, dataPos) := ReadDword data dataPos in
  let '(separateWindow, dataPos) := ReadDword data dataPos in
  let '(caption, dataPos) := ReadString data dataPos in
  let '(window, dataPos) := read_dwords 8 data dataPos in
  let '(gameInfo, dataPos) := ReadString data dataPos in
  let info := mkGameInfo backgroundColour separateWindow caption window gameInfo in
  (* Garbage? *)
  let pos := skip pos 4 in
  let '(count, pos) := ReadDword buffer pos in
  let pos := skip_garbage (Z.to_nat count) buffer pos in
  (* Room order *)
  let pos := skip pos 4 in
  let '(roomOrderCount, pos) := ReadDword buffer pos in
  let '(roomOrder, pos) := read_dwords (Z.to_nat roomOrderCount) buffer pos in
  (* Compile scripts, timelines, object events, triggers, room creation code *)
  if negb (compile_scripts (w_code w) scripts) then Return false
  else if negb (compile_timelines timelines) then Return false
  else if negb (compile_objects objects) then Return false
  else if negb (compile_triggers (w_code w) triggers) then Return false
  else if negb (compile_rooms (w_code w) rooms) then Return false
  else
    Continue (mkLoaded version settings extensions triggers constants sounds
                sprites backgrounds paths scripts fonts timelines objects
                rooms (lastInstanceID, lastTileID) includes info roomOrder w)
  end
  end.

(** [GameLoad]: [Continue] is reaching the final [return true]. *)
Definition GameLoad (host : Host) (rend : Renderer) : flow Loaded :=
  if negb (actions_init host) then Return false
  else if negb (code_init host) then Return false
  else
    match game_file host with
    | None => Return false
    | Some file =>
        if negb (buffer_alloc host) then Return false
        else
          let buffer := file_bytes file in
          if u32 (file_size file) <? 0x1B then Return false
          else if negb ((byte_at buffer 0 =? 77) && (byte_at buffer 1 =? 90))
          then Return false
          else
            let '(version, buffer, pos) :=
              detect_version buffer (file_size file) in
            if version =? 0 then Return false
            else load_blocks version buffer pos rend
    end.

(** What the caller of [GameLoad] receives, when it receives anything. *)
Definition GameLoad_result (host : Host) (rend : Renderer) : option bool :=
  match GameLoad host rend with
  | Return code => Some code
  | Continue _ => Some true
  | Abort => None
  | Diverge => None
  end.

End Loader.



(** ** The reads of the version detection *)

(** [GameLoad] checks the size of the file against 0x1B only; the dwords
    the detection reads are taken from the buffer of [file_size] bytes
    without a check.  [detect_version] gives what the memory holds at those
    offsets; it describes the program when they lie inside the buffer.
    The functions below list the offsets of the dwords read, in order, so
    that this can be stated. *)

(** The dwords the header scan reads: one per pass, and the one behind it
    when the first matches. *)
Fixpoint scan_81_reads (n : nat) (buffer : stream) (pos : Z) : list Z :=
  match n with
  | O => []
  | S n' =>
      let first := pos in
      let '(d1, pos) := ReadDword buffer pos in
      if Z.land d1 0xFF00FF00 =? 0xF7000000 then
        let second := pos in
        let '(d2, pos) := ReadDword buffer pos in
        if Z.land d2 0x00FF00FF =? 0x00140067 then [first; second]
        else first :: second :: scan_81_reads n' buffer (u32 (pos - 4))
      else first :: scan_81_reads n' buffer pos
  end.

(** The dwords read by "Find game version by searching for headers": the
    one at 2000000, those of the scan, and the key and seed dwords that
    [Decrypt81] reads behind the 8.1 header.  (The decryption loop itself
    stays below [pStreamLength].) *)
Definition detect_version_reads (buffer : stream) : list Z :=
  let '(d, _) := ReadDword buffer 2000000 in
  if d =? 1234321 then [2000000]
  else
    2000000
    :: scan_81_reads 1024 buffer 3800004
    ++ match scan_81 1024 buffer 3800004 with
       | Some pos => [pos; u32 (pos + 4)]
       | None => []
       end.

(** Every dword of the list lies inside a buffer of [size] bytes. *)
Definition reads_inside (size : Z) (reads : list Z) : bool :=
  forallb (fun p => (0 <=? p) && (p + 4 <=? size)) reads.

(** ** The block inflator in detail *)

(** [InflateBlock] drives zlib through [inflateInit] and repeated calls of
    [inflate].  zlib is an external library; here it is represented by what
    it answers: whether [inflateInit] succeeds and, for each call of
    [inflate] in turn, the bytes it writes at the start of the output buffer
    (their number is what [avail_out] drops by) and the code it returns. *)
Inductive zcode : Type :=
| Z_OK
| Z_STREAM_END
| Z_OTHER.

(** What a call of [InflateBlock] leaves: [true] with [*pPos], [*pOutBuffer],
    [*pOutBufferSize] and [*pOutSize]; [false]; or no return, when zlib never
    reports the end of the stream. *)
Inductive InflateResult : Type :=
| InflateTrue (pPos : Z) (pOutBuffer : stream) (pOutBufferSize pOutSize : Z)
| InflateFalse
| InflateStuck.

(** The loop [while (ret != Z_STREAM_END)]: each pass lets zlib fill the
    buffer from its start again and appends what it wrote to
    [inflatedData].  [Some None] is [return false]. *)
Fixpoint InflateBlock_loop (calls : list (list Z * zcode)) (buffer : stream)
    (inflatedData : list Z) : option (option (stream * list Z)) :=
  match calls with
  | [] => None
  | (chunk, ret) :: rest =>
      let buffer := write_bytes buffer 0 chunk in
      match ret with
      | Z_OTHER => Some None
      | Z_STREAM_END =>
          Some (Some (buffer, inflatedData ++ read_bytes buffer 0 (length chunk)))
      | Z_OK =>
          InflateBlock_loop rest buffer
            (inflatedData ++ read_bytes buffer 0 (length chunk))
      end
  end.

(** [InflateBlock], statement by statement. *)
Definition InflateBlock_calls (init_ok : bool) (calls : list (list Z * zcode))
    (pStream : stream) (pPos : Z) (pOutBuffer : stream) (pOutBufferSize : Z)
  : InflateResult :=
  let '(len, pPos) := ReadDword pStream pPos in
  if negb init_ok then InflateFalse
  else
    match calls with
    | [] => InflateStuck
    | (chunk, ret) :: rest =>
        let buffer := write_bytes pOutBuffer 0 chunk in
        match ret with
        | Z_STREAM_END =>
            InflateTrue (u32 (pPos + len)) buffer pOutBufferSize
              (u32 (Z.of_nat (length chunk)))
        | Z_OTHER => InflateFalse
        | Z_OK =>
            let inflatedData := read_bytes buffer 0 (length chunk) in
            match InflateBlock_loop rest buffer inflatedData with
            | None => InflateStuck
            | Some None => InflateFalse
            | Some (Some (buffer, inflatedData)) =>
                let inflatedDataSize := u32 (Z.of_nat (length inflatedData)) in
                if inflatedDataSize >? pOutBufferSize
                then InflateTrue (u32 (pPos + len)) (stream_of_list inflatedData)
                       inflatedDataSize inflatedDataSize
                else InflateTrue (u32 (pPos + len))
                       (write_bytes buffer 0 inflatedData)
                       pOutBufferSize inflatedDataSize
            end
        end
    end.

(** A run of zlib that delivers [chunks] one call after the other, each time
    asking for more room, and finishes with [last]. *)
Definition zlib_run (chunks : list (list Z)) (last : list Z)
  : list (list Z * zcode) :=
  map (fun c => (c, Z_OK)) chunks ++ [(last, Z_STREAM_END)].

(** A piece of the loader that never leaves [GameLoad] with [return true]. *)
Definition fails_false {A : Type} (m : flow A) : Prop := m <> Return true.


(** ** The record sections as a family *)

(** The sections of the file that hold one compressed block per record. *)
Inductive AssetKind : Type :=
| KTrigger | KSound | KSprite | KBackground | KPath | KScript | KFont
| KTimeline | KObject | KRoom | KIncludeFile.

Definition asset_type (Action : Type) (k : AssetKind) : Type :=
  match k with
  | KTrigger => Trigger
  | KSound => Sound
  | KSprite => Sprite
  | KBackground => Background
  | KPath => Path
  | KScript => Script
  | KFont => Font
  | KTimeline => Timeline Action
  | KObject => Object Action
  | KRoom => Room
  | KIncludeFile => IncludeFile
  end.

(** The record [AssetManager::AddX()] appends, per section. *)
Definition asset_new (Action : Type) (k : AssetKind) : asset_type Action k :=
  match k with
  | KTrigger => new_Trigger
  | KSound => new_Sound
  | KSprite => new_Sprite
  | KBackground => new_Background
  | KPath => new_Path
  | KScript => new_Script
  | KFont => new_Font
  | KTimeline => new_Timeline
  | KObject => new_Object
  | KRoom => new_Room
  | KIncludeFile => new_IncludeFile
  end.

(** [x->exists = false], per section. *)
Definition asset_tomb (Action : Type) (k : AssetKind)
  : asset_type Action k -> asset_type Action k :=
  match k with
  | KTrigger => tomb_Trigger
  | KSound => tomb_Sound
  | KSprite => tomb_Sprite
  | KBackground => tomb_Background
  | KPath => tomb_Path
  | KScript => tomb_Script
  | KFont => tomb_Font
  | KTimeline => tomb_Timeline
  | KObject => tomb_Object
  | KRoom => tomb_Room
  | KIncludeFile => tomb_IncludeFile
  end.

(** The [exists] flag, per section. *)
Definition asset_exists (Action : Type) (k : AssetKind)
  : asset_type Action k -> bool :=
  match k with
  | KTrigger => trg_exists
  | KSound => snd_exists
  | KSprite => spr_exists
  | KBackground => bg_exists
  | KPath => pth_exists
  | KScript => scr_exists
  | KFont => fnt_exists
  | KTimeline => tml_exists
  | KObject => obj_exists
  | KRoom => rm_exists
  | KIncludeFile => inc_exists
  end.

(** The body parser [load_blocks] uses for the section. *)
Definition asset_body (zinflate : list Z -> option (list Z)) (Action : Type)
    (readAction : stream -> Z -> option (Action * Z)) (event_fuel : nat)
    (version : Z) (k : AssetKind)
  : stream -> Z -> asset_type Action k -> World
    -> flow (asset_type Action k * stream * World) :=
  match k with
  | KTrigger => trigger_body
  | KSound => sound_body
  | KSprite => sprite_body
  | KBackground => background_body
  | KPath => path_body
  | KScript => script_body
  | KFont => font_body version
  | KTimeline => timeline_body Action readAction
  | KObject => object_body Action readAction event_fuel
  | KRoom => room_body
  | KIncludeFile => include_body
  end.

(** ** Sample files *)

(** A stream given by byte runs placed at offsets; zero elsewhere. *)
Fixpoint place (runs : list (Z * list Z)) : stream :=
  match runs with
  | [] => fun _ => 0
  | (base, bytes) :: rest =>
      fun i => if (base <=? i) && (i <? base + Z.of_nat (length bytes))
               then nth (Z.to_nat (i - base)) bytes 0
               else place rest i
  end.

(** A stand-in for zlib used to run the loader on examples: a block is its
    payload behind a marker byte 1; anything else, the empty input included,
    is rejected as corrupt. *)
Definition toy_inflate (block : list Z) : option (list Z) :=
  match block with
  | 1 :: payload => Some payload
  | _ => None
  end.

(** A block for [toy_inflate]: length prefix, marker, payload. *)
Definition toy_block (payload : list Z) : list Z :=
  dword_bytes (Z.of_nat (S (length payload))) ++ 1 :: payload.

Definition dwords (ds : list Z) : list Z := flat_map dword_bytes ds.

(** A length-prefixed string. *)
Definition toy_string (s : string) : list Z :=
  dword_bytes (Z.of_nat (length (codes s))) ++ codes s.

(** The part of a GM8.0 file from offset 2,000,012 up to the extensions: the
    settings block (32 zero dwords), the two D3D lengths, the paragraph
    cipher header with an empty encrypted area, and the garbage fields. *)
Definition toy_prologue : list Z :=
  dwords [0] ++ toy_block (dwords (repeat 0 32%nat))
  ++ dwords [0; 0]
  ++ dwords [0; 0] ++ repeat 0 256%nat ++ dwords [0]
  ++ dwords [0; 0; 0; 0; 0; 0; 0].

(** A GM8.0 file with one extension holding one file whose data block is
    empty, which zlib rejects. *)
Definition broken_extension_file : GameFile :=
  mkGameFile 2001000
    (place [(0, codes "MZ"); (2000000, dwords [1234321]);
            (2000012,
             toy_prologue
             ++ dwords [0; 1]                     (* extensions: one *)
             ++ dwords [700] ++ toy_string "ext" ++ toy_string "dir"
             ++ dwords [1]                        (* one file *)
             ++ dwords [700] ++ toy_string "a.dll" ++ dwords [1]
             ++ toy_string "" ++ toy_string "" ++ dwords [0; 0]
             ++ dwords [8]                        (* data region: 8 bytes *)
             ++ dwords [0]                        (* seed *)
             ++ dwords [0])]).                    (* block length 0 *)

Definition toy_host (f : GameFile) : Host := mkHost true true (Some f) true.

(** The loader run with the stand-ins: no code actions, every blob
    compiles. *)
Definition toy_GameLoad (f : GameFile) : flow (Loaded unit) :=
  GameLoad toy_inflate unit (fun _ _ => None) (fun _ => true) (fun _ => true)
    16 (toy_host f) (RInit renderer_start).

(** A complete GM8.0 file: one constant, three sprite records of which the
    second is a tombstone, and one object that refers to sprite 2. *)
Definition sprite_A_block : list Z :=
  toy_block
    (dwords [1] ++ toy_string "sprA" ++ dwords [800; 0; 0; 1]
     ++ dwords [800; 1; 1; 4] ++ [10; 20; 30; 255]
     ++ dwords [0] ++ dwords [800; 1; 1; 0; 0; 0; 0] ++ dwords [1]).

Definition tombstone_block : list Z := toy_block (dwords [0]).

Definition sprite_C_block : list Z :=
  toy_block (dwords [1] ++ toy_string "sprC" ++ dwords [800; 2; 3; 0]).

Definition object_block : list Z :=
  toy_block
    (dwords [1] ++ toy_string "obj" ++ dwords [430; 2; 0; 1; 0; 0]
     ++ dwords [0xFFFFFFFF; 0xFFFFFFFF; 11]
     ++ dwords (repeat 0xFFFFFFFF 12%nat)).

Definition info_block : list Z :=
  toy_block (dwords [0; 0] ++ toy_string "" ++ dwords (repeat 0 8%nat)
             ++ toy_string "").

Definition small_game_file : GameFile :=
  mkGameFile 2001000
    (place [(0, codes "MZ"); (2000000, dwords [1234321]);
            (2000012,
             toy_prologue
             ++ dwords [700; 0]                       (* extensions *)
             ++ dwords [800; 0]                       (* triggers *)
             ++ dwords [800; 1] ++ toy_string "c" ++ toy_string "1"
             ++ dwords [800; 0]                       (* sounds *)
             ++ dwords [800; 3] ++ sprite_A_block ++ tombstone_block
                ++ sprite_C_block
             ++ dwords [800; 0]                       (* backgrounds *)
             ++ dwords [800; 0]                       (* paths *)
             ++ dwords [800; 0]                       (* scripts *)
             ++ dwords [800; 0]                       (* fonts *)
             ++ dwords [800; 0]                       (* timelines *)
             ++ dwords [800; 1] ++ object_block
             ++ dwords [800; 0]                       (* rooms *)
             ++ dwords [100000; 10000000]             (* last ids *)
             ++ dwords [800; 0]                       (* include files *)
             ++ dwords [800] ++ info_block
             ++ dwords [700; 0]                       (* garbage *)
             ++ dwords [700; 0])]).                   (* room order *)

(** A data region of 12 bytes: the seed dword 0 and eight bytes of value 3. *)
Definition ext_region_sample : stream :=
  place [(0, dwords [12; 0] ++ [3; 3; 3; 3; 3; 3; 3; 3])].

(** A paragraph-cipher header at offset 0: one garbage dword before the swap
    table and none after it, the swap table [i -> (i + 7) mod 256], and an
    encrypted area of six bytes. *)
Definition paragraph_sample : stream :=
  place [(0, dwords [1; 0] ++ [9; 9; 9; 9]
             ++ map (fun i => (Z.of_nat i + 7) mod 256) (seq 0 256)
             ++ dwords [6] ++ [11; 22; 33; 44; 55; 66] ++ [77; 88])].

(** ** Invariants of the renderer's tables *)

(** A pending pre-image is in order when its [imgIndex] names a record of
    [_atlasImages] with the same size and when it is no larger than the
    two running maxima.  ([_tallest] is raised with the widths and
    [_widest] with the heights.) *)
Definition pre_image_ok (r : Renderer) (p : RPreImage) : Prop :=
  (exists a, nth_error (_atlasImages r) (Z.to_nat (pre_imgIndex p)) = Some a
             /\ img_w a = pre_w p /\ img_h a = pre_h p)
  /\ pre_w p <= _tallest r
  /\ pre_h p <= _widest r.

Definition pending_ok (r : Renderer) : Prop :=
  Forall (pre_image_ok r) (_preImages r).

(** What [_Compile] leaves alone between two renderer states: every scalar
    of the module, the draw commands, the number of image records and their
    origins, and the texture names of the atlases. *)
Definition compile_frame (r r' : Renderer) : Prop :=
  _drawCommands r' = _drawCommands r
  /\ boundAtlas r' = boundAtlas r
  /\ _tallest r' = _tallest r
  /\ _widest r' = _widest r
  /\ _pixelCount r' = _pixelCount r
  /\ _colourOutsideRoom r' = _colourOutsideRoom r
  /\ _roomBGColour r' = _roomBGColour r
  /\ _contextSet r' = _contextSet r
  /\ _maxTextures r' = _maxTextures r
  /\ _maxTextureSize r' = _maxTextureSize r
  /\ map (fun a => (originX a, originY a)) (_atlasImages r')
     = map (fun a => (originX a, originY a)) (_atlasImages r)
  /\ (forall i, glTex (_atlases r' i) = glTex (_atlases r i)).

(** The backend of [backend_32_4] after one 5x5 image has been submitted:
    the image is larger than the 4x4 textures the backend takes. *)
Definition oversize_pending : Renderer :=
  match RMakeImage backend_32_4 5 5 0 0 (fun _ => 0) with
  | Some (r, _) => r
  | None => backend_32_4
  end.

(** A backend that reports 8 texture units and a maximal texture side of
    4, with two 4x4 images pending: each of them needs an atlas of its
    own. *)
Definition backend_8_4 : Renderer :=
  mkRenderer [] [] [] (fun _ => mkRAtlas 0 0 0) (-1) 0 0 0 0 0 false 8 4.

Definition two_pending : Renderer :=
  match RMakeImages backend_8_4
          [mkSubmission 4 4 0 0 (fun _ => 0); mkSubmission 4 4 1 1 (fun _ => 0)] with
  | Some (r, _) => r
  | None => backend_8_4
  end.

(** The entry [report_successful] pushes to [packed] for the pre-image [p]
    placed at [xy], and the list it builds over a run of successful
    reports. *)
Definition placed_image (p : RPreImage) (xy : Z * Z) : RPreImage :=
  mkRPreImage (pre_w p) (pre_h p) (pre_data p) (pre_imgIndex p) (fst xy) (snd xy).

Definition packed_of (pre : list RPreImage) (placed : list (nat * (Z * Z)))
  : list RPreImage :=
  flat_map (fun e => match nth_error pre (fst e) with
                     | Some p => [placed_image p (snd e)]
                     | None => []
                     end) placed.

(** The backend of [backend_32_4] with one 4x4 image pending, origin
    (1, 2). *)
Definition one_pending : Renderer :=
  match RMakeImage backend_32_4 4 4 1 2 (fun _ => 0) with
  | Some (r, _) => r
  | None => backend_32_4
  end.

(** ** Properties of a piece of the loader that runs to its end *)

(** [P] holds of whatever the piece hands on when it does not leave
    [GameLoad]. *)
Definition completes_with {A : Type} (P : A -> Prop) (m : flow A) : Prop :=
  forall a, m = Continue a -> P a.

(** A piece of the loader does not end in [abort()], and [Q] holds of what
    it hands on. *)
Definition no_abort {A : Type} (Q : A -> Prop) (m : flow A) : Prop :=
  match m with
  | Abort => False
  | Continue a => Q a
  | Return _ => True
  | Diverge => True
  end.

(** ** Sample files for the version detection *)

(** A file of 3,900,000 bytes with the GM8.1 fingerprint at the third
    offset of the scan, and a file that is nothing but the two bytes
    "MZ" padded to the 27 bytes [GameLoad] asks for. *)
Definition gm81_header_sample : GameFile :=
  mkGameFile 3900000
    (place [(0, codes "MZ"); (3800012, dwords [0xF7000000; 0x00140067])]).

Definition short_file_sample : GameFile :=
  mkGameFile 27 (place [(0, codes "MZ")]).

(** ** The frame headers of a sprite record *)

(** Width, height and pixel data length of the frames as the frame loop
    finds them: each header is read where the pass before left the cursor,
    behind the pixel data it converted.  The length check is left out
    here, so that the list also names the frames behind a bad one. *)
Fixpoint sprite_frame_sizes (n : nat) (data : stream) (dataPos : Z)
  : list (Z * Z * Z) :=
  match n with
  | O => []
  | S n' =>
      let dataPos := skip dataPos 4 in
      let '(frameW, dataPos) := ReadDword data dataPos in
      let '(frameH, dataPos) := ReadDword data dataPos in
      let '(pixelDataLength, dataPos) := ReadDword data dataPos in
      let pixelDataEnd := u32 (dataPos + pixelDataLength) in
      let '(data, dataPos) := swap_channels data dataPos pixelDataEnd in
      (frameW, frameH, pixelDataLength) :: sprite_frame_sizes n' data dataPos
  end.

(** The frame headers of the sprite record whose body starts at
    [dataPos]. *)
Definition sprite_frame_list (data : stream) (dataPos : Z) : list (Z * Z * Z) :=
  let '(name, dataPos) := ReadString data dataPos in
  let dataPos := skip dataPos 4 in
  let '(oX, dataPos) := ReadDword data dataPos in
  let '(oY, dataPos) := ReadDword data dataPos in
  let '(frameCount, dataPos) := ReadDword data dataPos in
  sprite_frame_sizes (Z.to_nat frameCount) data dataPos.


(** The body of a sprite record with two frames of 1 x 1 pixels, and the
    same with the pixel data length of the second frame set to 5. *)
Definition two_frame_sprite (secondLength : Z) : stream :=
  stream_of_list
    (toy_string "s" ++ dwords [800; 3; 5; 2]
     ++ dwords [800; 1; 1; 4] ++ [10; 20; 30; 255]
     ++ dwords [800; 1; 1; secondLength] ++ [40; 50; 60; 255]
     ++ dwords [0] ++ dwords [800; 1; 1; 0; 0; 0; 0] ++ dwords [1]).

(** * Properties *)

(** ** Machine integers and streams *)

Lemma u32_range z : 0 <= u32 z < 2 ^ 32.
Proof. unfold u32. apply Z.mod_pos_bound. reflexivity. Qed.

Lemma u32_small z : 0 <= z < 2 ^ 32 -> u32 z = z.
Proof. intros H. unfold u32. apply Z.mod_small. exact H. Qed.

Lemma u8_range z : 0 <= u8 z < 256.
Proof. unfold u8. apply Z.mod_pos_bound. reflexivity. Qed.

Lemma u8_small z : 0 <= z < 256 -> u8 z = z.
Proof. intros H. unfold u8. apply Z.mod_small. exact H. Qed.

Lemma byte_at_range m i : 0 <= byte_at m i < 256.
Proof. apply u8_range. Qed.

Lemma byte_at_poke m i v j :
  byte_at (poke m i v) j = if j =? i then u8 v else byte_at m j.
Proof.
  unfold byte_at, poke. destruct (j =? i); [|reflexivity].
  apply u8_small, u8_range.
Qed.

Lemma dword_at_eq m pos :
  dword_at m pos =
  byte_at m pos + 256 * byte_at m (pos + 1)
  + 65536 * byte_at m (pos + 2) + 16777216 * byte_at m (pos + 3).
Proof. reflexivity. Qed.

Lemma ReadDword_eq m pos : ReadDword m pos = (dword_at m pos, u32 (pos + 4)).
Proof. reflexivity. Qed.

Lemma dword_at_range m pos : 0 <= dword_at m pos < 2 ^ 32.
Proof.
  rewrite dword_at_eq.
  pose proof (byte_at_range m pos). pose proof (byte_at_range m (pos + 1)).
  pose proof (byte_at_range m (pos + 2)). pose proof (byte_at_range m (pos + 3)).
  change (2 ^ 32) with 4294967296. lia.
Qed.

(** A dword only depends on the four bytes it covers. *)
Lemma dword_at_ext m m' pos :
  (forall j, pos <= j < pos + 4 -> m' j = m j) ->
  dword_at m' pos = dword_at m pos.
Proof.
  intros H. rewrite !dword_at_eq. unfold byte_at.
  rewrite !H by lia. reflexivity.
Qed.

(** The four byte stores of the decryption loop write a dword back in
    little-endian order. *)
Lemma le_split x :
  0 <= x < 2 ^ 32 ->
  u8 (Z.land x 0xFF) + 2 ^ 8 * u8 (Z.shiftr (Z.land x 0xFF00) 8)
  + 2 ^ 16 * u8 (Z.shiftr (Z.land x 0xFF0000) 16)
  + 2 ^ 24 * u8 (Z.shiftr (Z.land x 0xFF000000) 24) = x.
Proof.
  intros Hx.
  assert (E0 : Z.land x 0xFF = x mod 2 ^ 8) by (apply (Z.land_ones x 8); lia).
  assert (E1 : Z.shiftr (Z.land x 0xFF00) 8 = (x / 2 ^ 8) mod 2 ^ 8).
  { rewrite Z.shiftr_land. change (Z.shiftr 0xFF00 8) with (Z.ones 8).
    rewrite Z.land_ones, Z.shiftr_div_pow2 by lia. reflexivity. }
  assert (E2 : Z.shiftr (Z.land x 0xFF0000) 16 = (x / 2 ^ 16) mod 2 ^ 8).
  { rewrite Z.shiftr_land. change (Z.shiftr 0xFF0000 16) with (Z.ones 8).
    rewrite Z.land_ones, Z.shiftr_div_pow2 by lia. reflexivity. }
  assert (E3 : Z.shiftr (Z.land x 0xFF000000) 24 = (x / 2 ^ 24) mod 2 ^ 8).
  { rewrite Z.shiftr_land. change (Z.shiftr 0xFF000000 24) with (Z.ones 8).
    rewrite Z.land_ones, Z.shiftr_div_pow2 by lia. reflexivity. }
  rewrite E0, E1, E2, E3. unfold u8.
  change (2 ^ 8) with 256 in *. change (2 ^ 16) with 65536 in *.
  change (2 ^ 24) with 16777216 in *. change (2 ^ 32) with 4294967296 in *.
  rewrite !Z.mod_mod by lia.
  Z.div_mod_to_equations. lia.
Qed.

Lemma lxor_range_32 a b : 0 <= a < 2 ^ 32 -> 0 <= b < 2 ^ 32 -> 0 <= Z.lxor a b < 2 ^ 32.
Proof.
  intros Ha Hb. split.
  - apply Z.lxor_nonneg. lia.
  - destruct (Z.eq_dec (Z.lxor a b) 0) as [->|Hne]; [reflexivity|].
    assert (Hpos : 0 < Z.lxor a b) by (pose proof (proj2 (Z.lxor_nonneg a b)); lia).
    apply Z.log2_lt_pow2; [exact Hpos|].
    assert (La : Z.log2 a < 32).
    { destruct (Z.eq_dec a 0) as [->|]; [reflexivity|]. apply Z.log2_lt_pow2; lia. }
    assert (Lb : Z.log2 b < 32).
    { destruct (Z.eq_dec b 0) as [->|]; [reflexivity|]. apply Z.log2_lt_pow2; lia. }
    pose proof (Z.log2_lxor a b ltac:(lia) ltac:(lia)). lia.
Qed.

(** ** The GM8.1 stream cipher *)

(** The generator of [GetXorMask] in arithmetic form. *)
Lemma GetXorMask_eq seed1 seed2 :
  0 <= seed1 -> 0 <= seed2 ->
  let s1 := ((seed1 mod 2 ^ 16) * 0x9069 + seed1 / 2 ^ 16) mod 2 ^ 32 in
  let s2 := ((seed2 mod 2 ^ 16) * 0x4650 + seed2 / 2 ^ 16) mod 2 ^ 32 in
  GetXorMask seed1 seed2 = ((s1 * 2 ^ 16 + s2 mod 2 ^ 16) mod 2 ^ 32, s1, s2).
Proof.
  intros H1 H2. unfold GetXorMask, u32.
  change 0xFFFF with (Z.ones 16).
  rewrite !(Z.land_comm (Z.ones 16)), !Z.land_ones, !Z.shiftr_div_pow2 by lia.
  rewrite Z.shiftl_mul_pow2 by lia.
  cbv zeta. f_equal. f_equal.
  rewrite Zplus_mod_idemp_l. reflexivity.
Qed.

Lemma GetXorMask_mask_range seed1 seed2 :
  0 <= fst (fst (GetXorMask seed1 seed2)) < 2 ^ 32.
Proof. unfold GetXorMask. cbn [fst]. apply u32_range. Qed.

Lemma nth_mask_range k : forall s1 s2, 0 <= nth_mask k s1 s2 < 2 ^ 32.
Proof.
  intros s1 s2. unfold nth_mask.
  destruct (seeds_after k s1 s2) as [a b]. apply GetXorMask_mask_range.
Qed.

Lemma nth_mask_S k s1 s2 :
  nth_mask (S k) s1 s2 =
  nth_mask k (snd (fst (GetXorMask s1 s2))) (snd (GetXorMask s1 s2)).
Proof. reflexivity. Qed.


Lemma store_dword_other m e x j :
  j < e \/ e + 4 <= j -> store_dword m e x j = m j.
Proof.
  intros H. unfold store_dword, poke.
  repeat match goal with |- context [?a =? ?b] => destruct (Z.eqb_spec a b); [lia|] end.
  reflexivity.
Qed.

Lemma dword_at_store_dword m e x :
  0 <= x < 2 ^ 32 -> dword_at (store_dword m e x) e = x.
Proof.
  intros Hx. rewrite dword_at_eq. unfold store_dword.
  rewrite !byte_at_poke.
  repeat match goal with
         | |- context [?a =? ?b] =>
             destruct (Z.eqb_spec a b); [try lia | try lia]
         end.
  pose proof (le_split x Hx) as E.
  change (2 ^ 8) with 256 in E. change (2 ^ 16) with 65536 in E.
  change (2 ^ 24) with 16777216 in E. exact E.
Qed.

Lemma Decrypt81_loop_S fuel m len e s1 s2 :
  0 <= e -> len < 2 ^ 32 ->
  Decrypt81_loop (S fuel) m len e s1 s2 =
  if e <? len then
    if len - e <? 4 then m
    else Decrypt81_loop fuel
           (store_dword m e (Z.lxor (dword_at m e) (fst (fst (GetXorMask s1 s2)))))
           len (e + 4) (snd (fst (GetXorMask s1 s2))) (snd (GetXorMask s1 s2))
  else m.
Proof.
  intros He Hlen. cbn [Decrypt81_loop].
  destruct (Z.ltb_spec e len) as [Hlt|]; [|reflexivity].
  rewrite (u32_small (len - e)) by lia.
  destruct (Z.ltb_spec (len - e) 4) as [|Hge]; [reflexivity|].
  unfold ReadDword. fold (dword_at m e).
  destruct (GetXorMask s1 s2) as [[mask s1'] s2']. cbn [fst snd].
  rewrite (u32_small (e + 4)) by lia.
  unfold store_dword.
  replace (u32 (e + 4 - 4)) with e by (rewrite u32_small; lia).
  replace (u32 (e + 4 - 3)) with (e + 1) by (rewrite u32_small; lia).
  replace (u32 (e + 4 - 2)) with (e + 2) by (rewrite u32_small; lia).
  replace (u32 (e + 4 - 1)) with (e + 3) by (rewrite u32_small; lia).
  reflexivity.
Qed.

Lemma Decrypt81_loop_spec fuel : forall m len encPos s1 s2,
  0 <= encPos -> len < 2 ^ 32 -> len - encPos <= 4 * Z.of_nat fuel ->
  (forall k, encPos + 4 * Z.of_nat k + 4 <= len ->
     dword_at (Decrypt81_loop fuel m len encPos s1 s2) (encPos + 4 * Z.of_nat k)
     = Z.lxor (dword_at m (encPos + 4 * Z.of_nat k)) (nth_mask k s1 s2))
  /\ (forall j, j < encPos \/ len - (len - encPos) mod 4 <= j ->
        Decrypt81_loop fuel m len encPos s1 s2 j = m j).
Proof.
  induction fuel as [|fuel IH]; intros m len e s1 s2 He Hlen Hfuel.
  - cbn [Decrypt81_loop]. split; [intros k Hk; lia | reflexivity].
  - rewrite Decrypt81_loop_S by assumption.
    destruct (Z.ltb_spec e len) as [Hlt|Hge];
      [|split; [intros k Hk; lia | reflexivity]].
    destruct (Z.ltb_spec (len - e) 4) as [Hshort|Hwhole];
      [split; [intros k Hk; lia | reflexivity]|].
    set (x := Z.lxor (dword_at m e) (fst (fst (GetXorMask s1 s2)))).
    assert (Hx : 0 <= x < 2 ^ 32)
      by (apply lxor_range_32; [apply dword_at_range | apply GetXorMask_mask_range]).
    destruct (IH (store_dword m e x) len (e + 4)
                 (snd (fst (GetXorMask s1 s2))) (snd (GetXorMask s1 s2)))
      as [IHd IHo]; [lia | lia | lia |].
    assert (Hmod : (len - (e + 4)) mod 4 = (len - e) mod 4).
    { replace (len - (e + 4)) with (len - e + (-1) * 4) by lia.
      apply Z.mod_add. lia. }
    split.
    + intros [|k] Hk.
      * rewrite Z.mul_0_r, Z.add_0_r.
        rewrite (dword_at_ext (store_dword m e x)).
        -- apply dword_at_store_dword. exact Hx.
        -- intros j Hj. apply IHo. lia.
      * replace (e + 4 * Z.of_nat (S k)) with (e + 4 + 4 * Z.of_nat k) by lia.
        rewrite IHd by lia. rewrite nth_mask_S. f_equal.
        apply dword_at_ext. intros j Hj. apply store_dword_other. lia.
    + intros j Hj. rewrite IHo by (rewrite Hmod; pose proof (Z.mod_pos_bound (len - e) 4); lia).
      apply store_dword_other.
      pose proof (Z.mod_pos_bound (len - e) 4).
      pose proof (Z.div_mod (len - e) 4). lia.
Qed.

(** C5.  [Decrypt81] reads the key dword and the raw [seed1] dword (the
    cursor ends 8 bytes further), skips [(seed2 & 0xFF) + 0xA] bytes after
    them, and replaces every following whole dword, taken at 4-byte steps
    from there, by its XOR with the next mask of the two-seed generator
    ([seed1 := (seed1 & 0xFFFF) * 0x9069 + (seed1 >> 16)], [seed2] likewise
    with its own multiplier, [mask = (seed1 << 16) + (seed2 & 0xFFFF)], all
    modulo 2^32).  The skipped bytes, a trailing partial dword of fewer than
    4 bytes and everything outside the stream are left as they were. *)
Theorem Decrypt81_stream_cipher (m : stream) (len pos : Z) :
  0 <= pos < 2 ^ 31 -> 0 <= len < 2 ^ 32 ->
  let seed2 := hashSeed (dword_at m pos) in
  let seed1 := dword_at m (pos + 4) in
  let encPos := pos + 8 + ((seed2 mod 256) + 0xA) in
  let m' := fst (Decrypt81 m len pos) in
  snd (Decrypt81 m len pos) = pos + 8
  /\ (forall k : nat, encPos + 4 * Z.of_nat k + 4 <= len ->
        dword_at m' (encPos + 4 * Z.of_nat k)
        = Z.lxor (dword_at m (encPos + 4 * Z.of_nat k)) (nth_mask k seed1 seed2))
  /\ (forall j, j < encPos \/ len - (len - encPos) mod 4 <= j -> m' j = m j)
  /\ (forall s1 s2, 0 <= s1 -> 0 <= s2 ->
        let s1' := ((s1 mod 2 ^ 16) * 0x9069 + s1 / 2 ^ 16) mod 2 ^ 32 in
        let s2' := ((s2 mod 2 ^ 16) * 0x4650 + s2 / 2 ^ 16) mod 2 ^ 32 in
        GetXorMask s1 s2 = ((s1' * 2 ^ 16 + s2' mod 2 ^ 16) mod 2 ^ 32, s1', s2')).
Proof.
  intros Hpos Hlen seed2 seed1 encPos m'.
  assert (Hp : 2 ^ 31 = 2147483648) by reflexivity.
  assert (Hq : 2 ^ 32 = 4294967296) by reflexivity.
  assert (Hs : 0 <= seed2 mod 256 < 256) by (apply Z.mod_pos_bound; lia).
  assert (HD : Decrypt81 m len pos
               = (Decrypt81_loop (Z.to_nat len) m len encPos seed1 seed2, pos + 8)).
  { unfold Decrypt81. rewrite ReadDword_eq. cbv beta iota.
    rewrite ReadDword_eq. cbv beta iota zeta.
    rewrite (u32_small (pos + 4)) by lia.
    rewrite (u32_small (pos + 4 + 4)) by lia.
    fold seed1. fold seed2.
    change 0xFF with (Z.ones 8). rewrite Z.land_ones by lia.
    change (2 ^ 8) with 256.
    rewrite u32_small by lia.
    replace (pos + 4 + 4 + seed2 mod 256 + 0xA) with encPos by (unfold encPos; lia).
    replace (pos + 4 + 4) with (pos + 8) by lia. reflexivity. }
  subst m'. rewrite HD. cbn [fst snd].
  destruct (Decrypt81_loop_spec (Z.to_nat len) m len encPos seed1 seed2)
    as [Hd Ho]; [unfold encPos; lia | lia | unfold encPos; lia |].
  repeat split.
  - exact Hd.
  - exact Ho.
  - intros s1 s2 H1 H2. apply GetXorMask_eq; assumption.
Qed.


Lemma Decrypt81_stream_cipher_witness :
  let m := cipher_sample in
  let seed2 := hashSeed (dword_at m 0) in
  let seed1 := dword_at m 4 in
  let encPos := 8 + ((seed2 mod 256) + 0xA) in
  let m' := fst (Decrypt81 m 302 0) in
  snd (Decrypt81 m 302 0) = 8
  /\ (forall k : nat, encPos + 4 * Z.of_nat k + 4 <= 302 ->
        dword_at m' (encPos + 4 * Z.of_nat k)
        = Z.lxor (dword_at m (encPos + 4 * Z.of_nat k)) (nth_mask k seed1 seed2))
  /\ (forall j, j < encPos \/ 302 - (302 - encPos) mod 4 <= j -> m' j = m j)
  /\ (forall s1 s2, 0 <= s1 -> 0 <= s2 ->
        let s1' := ((s1 mod 2 ^ 16) * 0x9069 + s1 / 2 ^ 16) mod 2 ^ 32 in
        let s2' := ((s2 mod 2 ^ 16) * 0x4650 + s2 / 2 ^ 16) mod 2 ^ 32 in
        GetXorMask s1 s2 = ((s1' * 2 ^ 16 + s2' mod 2 ^ 16) mod 2 ^ 32, s1', s2')).
Proof.
  apply (Decrypt81_stream_cipher cipher_sample 302 0); split; (reflexivity || discriminate).
Defined.


(** ** Image submission *)

Lemma RMakeImage_accepts r w h oX oY bytes :
  _contextSet r = false ->
  exists r',
    RMakeImage r w h oX oY bytes
    = Some (r', u32 (Z.of_nat (length (_atlasImages r))))
    /\ _atlasImages r' = _atlasImages r ++ [mkRAtlasImage 0 0 0 w h oX oY]
    /\ _contextSet r' = false
    /\ _drawCommands r' = _drawCommands r.
Proof.
  intros Hc. unfold RMakeImage. rewrite Hc.
  eexists. split; [reflexivity|]. cbn. auto.
Qed.

Lemma RMakeImages_spec subs : forall r,
  _contextSet r = false ->
  Z.of_nat (length (_atlasImages r) + length subs) <= 2 ^ 32 ->
  exists r',
    RMakeImages r subs
    = Some (r', map (fun n => Z.of_nat (length (_atlasImages r) + n))
                  (seq 0 (length subs)))
    /\ _atlasImages r'
       = _atlasImages r
         ++ map (fun s => mkRAtlasImage 0 0 0 (sub_w s) (sub_h s)
                            (sub_originX s) (sub_originY s)) subs
    /\ _contextSet r' = false.
Proof.
  induction subs as [|s rest IH]; intros r Hc Hlen.
  - exists r. cbn. rewrite app_nil_r. auto.
  - destruct (RMakeImage_accepts r (sub_w s) (sub_h s) (sub_originX s)
                (sub_originY s) (sub_bytes s) Hc) as (r1 & E1 & T1 & C1 & _).
    destruct (IH r1 C1) as (r2 & E2 & T2 & C2).
    { rewrite T1, length_app. cbn [length] in *. lia. }
    exists r2. cbn [RMakeImages]. rewrite E1, E2.
    rewrite T1, length_app in *. cbn [length] in *.
    split; [|split; [|exact C2]].
    + rewrite u32_small by lia. cbn [seq map]. do 3 f_equal.
      * lia.
      * rewrite <- seq_shift, map_map. apply map_ext. intros n. f_equal. lia.
    + rewrite T2, <- app_assoc. reflexivity.
Qed.

(** C10.  Before the window exists ([_contextSet] is false), a sequence of
    [RMakeImage] calls returns consecutive indices in submission order: with
    [k] images in the table before, the [n]-th call (counting from 0)
    returns [k + n], and the reference record of that image (its size and
    origin) sits at exactly that position in [_atlasImages] afterwards, the
    earlier records staying where they were.  With an empty table ([k = 0])
    the [n]-th submitted image gets index [n - 1] counting from 1.  The
    index is an [unsigned int], so the table is assumed to hold at most 2^32
    images. *)
Theorem RMakeImage_dense_indices (r : Renderer) (subs : list Submission) :
  _contextSet r = false ->
  Z.of_nat (length (_atlasImages r) + length subs) <= 2 ^ 32 ->
  exists r' ixs,
    RMakeImages r subs = Some (r', ixs)
    /\ length ixs = length subs
    /\ (forall n s, nth_error subs n = Some s ->
          nth_error ixs n = Some (Z.of_nat (length (_atlasImages r) + n))
          /\ nth_error (_atlasImages r') (length (_atlasImages r) + n)
             = Some (mkRAtlasImage 0 0 0 (sub_w s) (sub_h s)
                       (sub_originX s) (sub_originY s)))
    /\ (forall i a, nth_error (_atlasImages r) i = Some a ->
          nth_error (_atlasImages r') i = Some a)
    /\ length (_atlasImages r') = (length (_atlasImages r) + length subs)%nat.
Proof.
  intros Hc Hlen.
  destruct (RMakeImages_spec subs r Hc Hlen) as (r' & E & T & _).
  exists r', (map (fun n => Z.of_nat (length (_atlasImages r) + n))
                (seq 0 (length subs))).
  split; [exact E|]. split; [now rewrite length_map, length_seq|].
  split; [|split].
  - intros n s Hn.
    assert (Hlt : (n < length subs)%nat) by (apply nth_error_Some; congruence).
    split.
    + rewrite nth_error_map, nth_error_seq.
      destruct (Nat.ltb_spec n (length subs)); [reflexivity | lia].
    + rewrite T, nth_error_app2 by lia.
      replace (length (_atlasImages r) + n - length (_atlasImages r))%nat with n by lia.
      rewrite nth_error_map, Hn. reflexivity.
  - intros i a Hi. rewrite T. rewrite nth_error_app1; [exact Hi|].
    apply nth_error_Some. congruence.
  - rewrite T, length_app, length_map. reflexivity.
Qed.


Lemma RMakeImage_dense_indices_witness :
  exists r' ixs,
    RMakeImages (RInit renderer_start) sample_submissions = Some (r', ixs)
    /\ length ixs = length sample_submissions
    /\ (forall n s, nth_error sample_submissions n = Some s ->
          nth_error ixs n
          = Some (Z.of_nat (length (_atlasImages (RInit renderer_start)) + n))
          /\ nth_error (_atlasImages r')
               (length (_atlasImages (RInit renderer_start)) + n)
             = Some (mkRAtlasImage 0 0 0 (sub_w s) (sub_h s)
                       (sub_originX s) (sub_originY s)))
    /\ (forall i a, nth_error (_atlasImages (RInit renderer_start)) i = Some a ->
          nth_error (_atlasImages r') i = Some a)
    /\ length (_atlasImages r')
       = (length (_atlasImages (RInit renderer_start))
          + length sample_submissions)%nat.
Proof.
  apply (RMakeImage_dense_indices (RInit renderer_start) sample_submissions).
  - reflexivity.
  - vm_compute. discriminate.
Defined.

Example RMakeImages_sample :
  option_map snd (RMakeImages (RInit renderer_start) sample_submissions)
  = Some [0; 1; 2].
Proof. reflexivity. Qed.

(** ** Partial draws *)


(** C9, as stated, fails.  With [partX] inside the image but [partY] at or
    beyond its height no command is appended either; and when
    [partX + partW] wraps around 2^32 the width is not clamped, so the
    appended command spans texels far outside the 4x4 image. *)
Lemma RDrawPartialImage_counterexample :
  (0 < img_w (mkRAtlasImage 0 8 16 4 4 0 0)
   /\ _drawCommands (RDrawPartialImage one_image 0 0 4 1 1)
      = _drawCommands one_image)
  /\ _drawCommands (RDrawPartialImage one_image 0 1 0 4294967295 1)
     = [mkRDrawCommand 9 16 4294967295 1 64 64 0 0 0].
Proof. repeat split. Qed.

(** C9, amended.  For a registered image, [RDrawPartialImage] appends no
    command when [partX >= width] or [partY >= height].  In every other
    case, provided [partX + partW] and [partY + partH] stay below 2^32, it
    appends exactly one command for that image whose subregion starts at
    [(partX, partY)] of the image and is clamped to its bounds ([partW]
    reduced to [width - partX] and [partH] to [height - partY] when they
    would exceed them): the command's texel rectangle lies inside the
    image's packed rectangle. *)
Theorem RDrawPartialImage_clamped
    (r : Renderer) (ix : Z) (aImg : RAtlasImage) (partX partY partW partH : Z) :
  nth_error (_atlasImages r) (Z.to_nat ix) = Some aImg ->
  0 <= img_x aImg -> 0 <= img_y aImg ->
  img_x aImg + img_w aImg < 2 ^ 32 -> img_y aImg + img_h aImg < 2 ^ 32 ->
  0 <= partX -> 0 <= partY -> 0 <= partW -> 0 <= partH ->
  partX + partW < 2 ^ 32 -> partY + partH < 2 ^ 32 ->
  let r' := RDrawPartialImage r ix partX partY partW partH in
  (partX >= img_w aImg \/ partY >= img_h aImg -> r' = r)
  /\ (partX < img_w aImg -> partY < img_h aImg ->
      exists c,
        _drawCommands r' = _drawCommands r ++ [c]
        /\ cmd_imageIndex c = ix /\ cmd_atlasId c = atlasId aImg
        /\ cmd_texX c = img_x aImg + partX /\ cmd_texY c = img_y aImg + partY
        /\ cmd_texW c = Z.min partW (img_w aImg - partX)
        /\ cmd_texH c = Z.min partH (img_h aImg - partY)
        /\ img_x aImg <= cmd_texX c
        /\ cmd_texX c + cmd_texW c <= img_x aImg + img_w aImg
        /\ img_y aImg <= cmd_texY c
        /\ cmd_texY c + cmd_texH c <= img_y aImg + img_h aImg).
Proof.
  intros Hix Hx Hy Hxw Hyh HpX HpY HpW HpH HW HH r'.
  subst r'. unfold RDrawPartialImage. rewrite Hix. split.
  - intros [H|H].
    + destruct (Z.geb_spec partX (img_w aImg)); [reflexivity | lia].
    + destruct (Z.geb_spec partX (img_w aImg)); [reflexivity |].
      destruct (Z.geb_spec partY (img_h aImg)); [reflexivity | lia].
  - intros HX HY.
    destruct (Z.geb_spec partX (img_w aImg)); [lia|].
    destruct (Z.geb_spec partY (img_h aImg)); [lia|].
    rewrite (u32_small (partX + partW)), (u32_small (partY + partH)) by lia.
    rewrite (u32_small (img_x aImg + partX)), (u32_small (img_y aImg + partY)) by lia.
    rewrite (u32_small (img_w aImg - partX)), (u32_small (img_h aImg - partY)) by lia.
    eexists. split; [reflexivity|]. cbn.
    destruct (Z.gtb_spec (partX + partW) (img_w aImg));
      destruct (Z.gtb_spec (partY + partH) (img_h aImg)); lia.
Qed.

Lemma RDrawPartialImage_clamped_witness :
  let r := one_image in
  let aImg := mkRAtlasImage 0 8 16 4 4 0 0 in
  let r' := RDrawPartialImage r 0 1 2 7 1 in
  (1 >= img_w aImg \/ 2 >= img_h aImg -> r' = r)
  /\ (1 < img_w aImg -> 2 < img_h aImg ->
      exists c,
        _drawCommands r' = _drawCommands r ++ [c]
        /\ cmd_imageIndex c = 0 /\ cmd_atlasId c = atlasId aImg
        /\ cmd_texX c = img_x aImg + 1 /\ cmd_texY c = img_y aImg + 2
        /\ cmd_texW c = Z.min 7 (img_w aImg - 1)
        /\ cmd_texH c = Z.min 1 (img_h aImg - 2)
        /\ img_x aImg <= cmd_texX c
        /\ cmd_texX c + cmd_texW c <= img_x aImg + img_w aImg
        /\ img_y aImg <= cmd_texY c
        /\ cmd_texY c + cmd_texH c <= img_y aImg + img_h aImg).
Proof.
  apply (RDrawPartialImage_clamped one_image 0 (mkRAtlasImage 0 8 16 4 4 0 0)
           1 2 7 1); (reflexivity || (vm_compute; discriminate)).
Defined.

Example RDrawPartialImage_sample :
  _drawCommands (RDrawPartialImage one_image 0 1 2 7 1)
  = [mkRDrawCommand 9 18 3 1 64 64 0 0 0].
Proof. reflexivity. Qed.

(** ** Flushing the draw commands *)

Lemma skipn_nth_error {A : Type} (l : list A) : forall n c,
  nth_error l n = Some c -> skipn n l = c :: skipn (S n) l.
Proof.
  induction l as [|a l IH]; intros [|n] c H; cbn in *; try discriminate.
  - congruence.
  - apply IH. exact H.
Qed.

Lemma run_length_le a l : (run_length a l <= length l)%nat.
Proof.
  induction l as [|c l IH]; cbn; [lia|].
  destruct (cmd_atlasId c =? a); lia.
Qed.

Lemma run_length_same a l :
  Forall (fun d => cmd_atlasId d = a) (firstn (run_length a l) l).
Proof.
  induction l as [|c l IH]; cbn; [constructor|].
  destruct (Z.eqb_spec (cmd_atlasId c) a); cbn; constructor; assumption.
Qed.

Lemma run_length_stop a l d :
  nth_error l (run_length a l) = Some d -> cmd_atlasId d <> a.
Proof.
  induction l as [|c l IH]; cbn; [discriminate|].
  destruct (Z.eqb_spec (cmd_atlasId c) a); cbn.
  - exact IH.
  - intros [= <-]. assumption.
Qed.

Lemma count_run_spec cmds a : forall fuel i t,
  Z.of_nat (length cmds) < 2 ^ 32 ->
  0 <= t <= i ->
  (length cmds - Z.to_nat i <= fuel)%nat ->
  count_run fuel cmds a i t
  = t + Z.of_nat (run_length a (skipn (Z.to_nat i) cmds)).
Proof.
  induction fuel as [|fuel IH]; intros i t Hlen Ht Hfuel.
  - cbn. rewrite skipn_all2 by lia. cbn. lia.
  - cbn [count_run].
    destruct (Z.ltb_spec i (Z.of_nat (length cmds))) as [Hlt|Hge].
    + destruct (nth_error cmds (Z.to_nat i)) as [c|] eqn:Hc.
      * rewrite (skipn_nth_error _ _ _ Hc). cbn [run_length].
        destruct (cmd_atlasId c =? a); [|lia].
        rewrite (u32_small (i + 1)), (u32_small (t + 1)) by lia.
        rewrite IH by lia.
        replace (Z.to_nat (i + 1)) with (S (Z.to_nat i)) by lia. lia.
      * apply nth_error_None in Hc. lia.
    + rewrite skipn_all2 by lia. cbn. lia.
Qed.

Lemma u32_s32 a : 0 <= a < 2 ^ 32 -> u32 (s32 a) = a.
Proof.
  intros Ha. unfold s32. rewrite (u32_small a) by exact Ha.
  destruct (a <? 2 ^ 31).
  - apply u32_small. exact Ha.
  - unfold u32. replace (a - 2 ^ 32) with (a + (-1) * 2 ^ 32) by lia.
    rewrite Z.mod_add by lia. apply Z.mod_small. exact Ha.
Qed.

Lemma RRenderFrame_loop_spec cmds :
  Z.of_nat (length cmds) < 2 ^ 32 ->
  Forall (fun c => 0 <= cmd_atlasId c < 2 ^ 32) cmds ->
  forall fuel drawn bound,
    0 <= drawn <= Z.of_nat (length cmds) ->
    Z.of_nat (length cmds) - drawn <= Z.of_nat fuel ->
    exists b bs,
      RRenderFrame_loop fuel cmds drawn bound = Some (b, bs)
      /\ batches_cover drawn bs (Z.of_nat (length cmds))
      /\ concat (map (batch_commands cmds) bs) = skipn (Z.to_nat drawn) cmds
      /\ maximal_runs (map (batch_commands cmds) bs)
      /\ binds_follow (u32 bound) cmds bs.
Proof.
  intros Hlen Hids.
  induction fuel as [|fuel IH]; intros drawn bound Hd Hfuel.
  - exists bound, []. cbn.
    destruct (Z.ltb_spec drawn (Z.of_nat (length cmds))); [lia|].
    rewrite skipn_all2 by lia. repeat split; lia.
  - cbn [RRenderFrame_loop].
    destruct (Z.ltb_spec drawn (Z.of_nat (length cmds))) as [Hlt|Hge].
    2:{ exists bound, []. cbn. rewrite skipn_all2 by lia. repeat split; lia. }
    destruct (nth_error cmds (Z.to_nat drawn)) as [c|] eqn:Hc.
    2:{ apply nth_error_None in Hc. lia. }
    assert (Hin : 0 <= cmd_atlasId c < 2 ^ 32).
    { rewrite Forall_forall in Hids. apply Hids.
      apply nth_error_In with (n := Z.to_nat drawn). exact Hc. }
    rewrite count_run_spec by lia.
    set (k := run_length (cmd_atlasId c) (skipn (Z.to_nat drawn) cmds)).
    assert (Hk1 : (1 <= k)%nat).
    { subst k. rewrite (skipn_nth_error _ _ _ Hc). cbn.
      rewrite Z.eqb_refl. lia. }
    assert (Hk2 : (k <= length cmds - Z.to_nat drawn)%nat).
    { subst k. etransitivity; [apply run_length_le|]. rewrite length_skipn. lia. }
    rewrite Z.add_0_l.
    rewrite (u32_small (drawn + Z.of_nat k)) by lia.
    set (bind := negb (u32 bound =? cmd_atlasId c)).
    set (bound' := if bind then s32 (cmd_atlasId c) else bound).
    destruct (IH (drawn + Z.of_nat k) bound') as (b & bs & E & Hcov & Hcat & Hmax & Hbind);
      [lia | lia |].
    rewrite E. exists b, (mkRBatch drawn (Z.of_nat k) bind :: bs).
    assert (Hrun : batch_commands cmds (mkRBatch drawn (Z.of_nat k) bind)
                   = firstn k (skipn (Z.to_nat drawn) cmds)).
    { unfold batch_commands. cbn. rewrite Nat2Z.id. reflexivity. }
    assert (Hrest : skipn (Z.to_nat (drawn + Z.of_nat k)) cmds
                    = skipn k (skipn (Z.to_nat drawn) cmds)).
    { rewrite skipn_skipn. f_equal. lia. }
    split; [reflexivity|]. split; [|split; [|split]].
    + cbn. repeat split; [lia | exact Hcov].
    + cbn [map concat]. rewrite Hrun, Hcat, Hrest. apply firstn_skipn.
    + cbn [map maximal_runs]. rewrite Hrun.
      destruct (firstn k (skipn (Z.to_nat drawn) cmds)) as [|c0 run] eqn:Hf.
      { apply (f_equal (@length _)) in Hf. rewrite length_firstn, length_skipn in Hf.
        cbn in Hf. lia. }
      assert (Hc0 : c0 = c).
      { rewrite (skipn_nth_error _ _ _ Hc) in Hf. destruct k; [lia|].
        cbn in Hf. congruence. }
      subst c0. split; [|split; [|exact Hmax]].
      * rewrite <- Hf. apply run_length_same.
      * destruct bs as [|b1 bs1]; [exact I|]. cbn [map].
        destruct (batch_commands cmds b1) as [|d run1] eqn:Hb1; [exact I|].
        destruct Hcov as (Hf1 & Hc1 & _).
        unfold batch_commands in Hb1. rewrite Hf1, Hrest in Hb1.
        apply (run_length_stop _ (skipn (Z.to_nat drawn) cmds)).
        fold k. rewrite <- (Nat.add_0_r k), <- nth_error_skipn.
        destruct (skipn k (skipn (Z.to_nat drawn) cmds)) as [|d' rest'];
          [rewrite firstn_nil in Hb1; discriminate|].
        destruct (Z.to_nat (batch_count b1)); cbn in Hb1; [discriminate|].
        cbn. congruence.
    + cbn [binds_follow batch_first batch_bind]. rewrite Hc. split.
      * subst bind. destruct (Z.eqb_spec (u32 bound) (cmd_atlasId c)); cbn;
          split; intros; congruence.
      * replace (cmd_atlasId c) with (u32 bound'); [exact Hbind|].
        subst bound' bind.
        destruct (Z.eqb_spec (u32 bound) (cmd_atlasId c)); cbn;
          [assumption | apply u32_s32; exact Hin].
Qed.

(** C7.  [RRenderFrame] leaves the command list as it is and flushes it in
    batches that tile it from the first command to the last, so every
    command is consumed exactly once and in submission order.  Each batch is
    a maximal run of consecutive commands with one atlas id (the command
    before it and the command after it, if any, belong to another atlas),
    and a batch binds its texture exactly when its atlas id differs from the
    atlas bound at that moment.  (Sizes and ids are [unsigned int]: fewer
    than 2^32 commands, atlas ids below 2^32.) *)
Theorem RRenderFrame_batches (r : Renderer) :
  Z.of_nat (length (_drawCommands r)) < 2 ^ 32 ->
  Forall (fun c => 0 <= cmd_atlasId c < 2 ^ 32) (_drawCommands r) ->
  exists r' bs,
    RRenderFrame r = Some (r', bs)
    /\ _drawCommands r' = _drawCommands r
    /\ batches_cover 0 bs (Z.of_nat (length (_drawCommands r)))
    /\ concat (map (batch_commands (_drawCommands r)) bs) = _drawCommands r
    /\ maximal_runs (map (batch_commands (_drawCommands r)) bs)
    /\ binds_follow (u32 (boundAtlas r)) (_drawCommands r) bs.
Proof.
  intros Hlen Hids.
  destruct (RRenderFrame_loop_spec (_drawCommands r) Hlen Hids
              (length (_drawCommands r)) 0 (boundAtlas r))
    as (b & bs & E & Hcov & Hcat & Hmax & Hbind); [lia | lia |].
  exists (set_boundAtlas r b), bs. unfold RRenderFrame. rewrite E.
  repeat split; assumption.
Qed.

Lemma RRenderFrame_batches_witness :
  exists r' bs,
    RRenderFrame sample_frame = Some (r', bs)
    /\ _drawCommands r' = _drawCommands sample_frame
    /\ batches_cover 0 bs (Z.of_nat (length (_drawCommands sample_frame)))
    /\ concat (map (batch_commands (_drawCommands sample_frame)) bs)
       = _drawCommands sample_frame
    /\ maximal_runs (map (batch_commands (_drawCommands sample_frame)) bs)
    /\ binds_follow (u32 (boundAtlas sample_frame)) (_drawCommands sample_frame) bs.
Proof.
  apply (RRenderFrame_batches sample_frame).
  - reflexivity.
  - repeat constructor; vm_compute; discriminate.
Defined.

Example RRenderFrame_sample :
  option_map snd (RRenderFrame sample_frame)
  = Some [mkRBatch 0 2 true; mkRBatch 2 1 true; mkRBatch 3 3 true;
          mkRBatch 6 1 true].
Proof. reflexivity. Qed.

Example RRenderFrame_sample_rebind :
  option_map snd (RRenderFrame (set_boundAtlas sample_frame 0))
  = Some [mkRBatch 0 2 false; mkRBatch 2 1 true; mkRBatch 3 3 true;
          mkRBatch 6 1 true].
Proof. reflexivity. Qed.

(** ** The phase check of [RMakeImage] *)

(** [RMakeImage] calls [abort()] exactly when [_contextSet] is set. *)
Lemma RMakeImage_aborts_iff r w h oX oY bytes :
  RMakeImage r w h oX oY bytes = None <-> _contextSet r = true.
Proof.
  unfold RMakeImage. destruct (_contextSet r); split; intros H;
    (reflexivity || discriminate).
Qed.

(** Nothing in the renderer sets [_contextSet]: creating the window and
    compiling the atlases leave it as it was. *)
Lemma RMakeGameWindow_contextSet r w h :
  _contextSet (fst (RMakeGameWindow r w h)) = _contextSet r.
Proof.
  unfold RMakeGameWindow. destruct (_contextSet r) eqn:E; cbn [fst]; exact E.
Qed.

Lemma _Compile_rec_contextSet pack alloc : forall fuel r firstAtlas r' ok,
  _Compile_rec pack alloc fuel r firstAtlas = Some (r', ok) ->
  _contextSet r' = _contextSet r.
Proof.
  assert (Hstep : forall fuel,
            (forall r fa r' ok, _Compile_rec pack alloc fuel r fa = Some (r', ok) ->
                                _contextSet r' = _contextSet r) ->
            forall r fa r' ok, _Compile_rec pack alloc (S fuel) r fa = Some (r', ok) ->
                               _contextSet r' = _contextSet r).
  { intros fuel IH r fa r' ok. cbn [_Compile_rec].
    destruct (_tallest r >? _maxTextureSize r); [intros [= <- _]; reflexivity|].
    destruct (_widest r >? _maxTextureSize r); [intros [= <- _]; reflexivity|].
    destruct (fa >? _maxTextures r); [intros [= <- _]; reflexivity|].
    destruct (_pixelCount r =? 0); [intros [= <- _]; reflexivity|].
    destruct (pack _ _) as [sz reports].
    destruct (run_callbacks _ _ _ _) as [[pre packed] unpacked].
    destruct (negb (alloc fa _)); [intros [= <- _]; reflexivity|].
    destruct unpacked as [|u us]; [intros [= <- _]; reflexivity|].
    intros H. apply IH in H. exact H. }
  induction fuel as [|fuel IH]; [|apply Hstep; exact IH].
  intros r fa r' ok. cbn [_Compile_rec].
  destruct (_tallest r >? _maxTextureSize r); [intros [= <- _]; reflexivity|].
  destruct (_widest r >? _maxTextureSize r); [intros [= <- _]; reflexivity|].
  destruct (fa >? _maxTextures r); [intros [= <- _]; reflexivity|].
  destruct (_pixelCount r =? 0); [intros [= <- _]; reflexivity|].
  destruct (pack _ _) as [sz reports].
  destruct (run_callbacks _ _ _ _) as [[pre packed] unpacked].
  destruct (negb (alloc fa _)); [intros [= <- _]; reflexivity|].
  destruct unpacked as [|u us]; [intros [= <- _]; reflexivity | discriminate].
Qed.

(** C8 fails on this port.  After [RInit], creating the game window
    succeeds and compiling the atlases succeeds, and an image submitted
    afterwards is accepted under index 0 instead of aborting the program:
    the assignment [_contextSet = true] sits in the part of
    [RMakeGameWindow] that is commented out, so the check in [RMakeImage]
    can never fire. *)
Theorem RMakeImage_after_window_accepted :
  exists r1 r2 r3,
    RMakeGameWindow (RInit renderer_start) 640 480 = (r1, true)
    /\ _Compile pack_one_per_bin malloc_always r1 0 = Some (r2, true)
    /\ RMakeImage r2 1 1 0 0 sample_pixels = Some (r3, 0)
    /\ length (_atlasImages r3) = 1%nat.
Proof. do 3 eexists. repeat split. Qed.

(** ** Atlas compilation *)

(** C3 fails when the backend reports 32 or more texture units.  With
    [_maxTextures = 32] and 33 images that each fill a whole bin,
    [_Compile] reaches [firstAtlas = 32], passes the check
    [firstAtlas > _maxTextures], writes slot 32 of the 32-slot table
    [_atlases] and returns [true] with the images spread over 33 atlases. *)
Theorem _Compile_overflows_atlas_table :
  exists r r' last,
    RMakeImages backend_32_4 full_size_images
    = Some (r, map Z.of_nat (seq 0 33))
    /\ Forall (fun p => pre_w p <= _maxTextureSize r /\ pre_h p <= _maxTextureSize r)
         (_preImages r)
    /\ _Compile pack_one_per_bin malloc_always r 0 = Some (r', true)
    /\ map atlasId (_atlasImages r') = map Z.of_nat (seq 0 33)
    /\ nth_error (_atlasImages r') 32 = Some last
    /\ atlasId last = atlas_slots
    /\ _atlases r' atlas_slots = mkRAtlas 0 4 4.
Proof.
  assert (Hall :
    match RMakeImages backend_32_4 full_size_images with
    | Some (r, ixs) =>
        ixs = map Z.of_nat (seq 0 33)
        /\ forallb (fun p => (pre_w p <=? _maxTextureSize r)
                             && (pre_h p <=? _maxTextureSize r))
             (_preImages r) = true
        /\ match _Compile pack_one_per_bin malloc_always r 0 with
           | Some (r', ok) =>
               ok = true
               /\ map atlasId (_atlasImages r') = map Z.of_nat (seq 0 33)
               /\ option_map atlasId (nth_error (_atlasImages r') 32)
                  = Some atlas_slots
               /\ _atlases r' atlas_slots = mkRAtlas 0 4 4
           | None => False
           end
    | None => False
    end) by (vm_compute; repeat split).
  revert Hall.
  destruct (RMakeImages backend_32_4 full_size_images) as [[r ixs]|] eqn:Hr;
    [|contradiction].
  intros (-> & Hb & Hc). revert Hc.
  destruct (_Compile pack_one_per_bin malloc_always r 0) as [[r' ok]|] eqn:Hcomp;
    [|contradiction].
  intros (-> & Hids & Hlast & Hslot).
  destruct (nth_error (_atlasImages r') 32) as [last|] eqn:Hn; [|discriminate].
  cbn [option_map] in Hlast. injection Hlast as Hlast.
  exists r, r', last. repeat split; try assumption.
  rewrite forallb_forall in Hb. apply Forall_forall. intros p Hp.
  specialize (Hb p Hp). apply andb_prop in Hb. destruct Hb as [H1 H2].
  split; apply Z.leb_le; assumption.
Qed.

(** ** Version detection *)










(** In the sample the scan finds the fingerprint in its third pass, after
    reading four dwords, and [Decrypt81] reads its key and seed behind
    it. *)
Example detect_version_reads_sample :
  scan_81 1024 (file_bytes gm81_header_sample) 3800004 = Some 3800020
  /\ detect_version_reads (file_bytes gm81_header_sample)
     = [2000000; 3800004; 3800008; 3800012; 3800016; 3800020; 3800024].
Proof. vm_compute. split; reflexivity. Qed.

(** The 27-byte file passes the size check and the "MZ" check of
    [GameLoad], and the very first dword of the detection lies outside its
    buffer: a file this short is read out of bounds. *)
Example detect_version_reads_short_file :
  (u32 (file_size short_file_sample) <? 0x1B) = false
  /\ byte_at (file_bytes short_file_sample) 0 = 77
  /\ byte_at (file_bytes short_file_sample) 1 = 90
  /\ hd 0 (detect_version_reads (file_bytes short_file_sample)) = 2000000
  /\ reads_inside (file_size short_file_sample)
       (detect_version_reads (file_bytes short_file_sample)) = false.
Proof. vm_compute. repeat split. Qed.

(** ** The extension-file cipher *)

Lemma for_up_ind {St : Type} (P : Z -> St -> Prop) (body : Z -> St -> St) n :
  forall i s,
    P i s ->
    (forall k s', i <= k < i + Z.of_nat n -> P k s' -> P (k + 1) (body k s')) ->
    P (i + Z.of_nat n) (for_up n i 1 body s).
Proof.
  induction n as [|n IH]; intros i s H0 Hstep; cbn [for_up].
  - rewrite Z.add_0_r. exact H0.
  - replace (i + Z.of_nat (S n)) with (i + 1 + Z.of_nat n) by lia.
    apply IH.
    + apply Hstep; [lia | exact H0].
    + intros k s' Hk. apply Hstep. lia.
Qed.

Lemma for_up_fold {St : Type} (body : Z -> St -> St) n : forall i s,
  for_up n i 1 body s
  = fold_left (fun s' k => body k s') (map (fun k => i + Z.of_nat k) (seq 0 n)) s.
Proof.
  induction n as [|n IH]; intros i s; cbn [for_up seq map fold_left]; [reflexivity|].
  rewrite Z.add_0_r, IH, <- seq_shift, map_map. f_equal.
  apply map_ext. intros k. lia.
Qed.

Lemma length_update_nth {A : Type} (f : A -> A) (l : list A) : forall i,
  length (update_nth i f l) = length l.
Proof.
  induction l as [|a l IH]; intros [|i]; cbn; try reflexivity.
  now rewrite IH.
Qed.

Lemma nth_update_nth {A : Type} (f : A -> A) (d : A) (l : list A) : forall i j,
  (i < length l)%nat ->
  nth j (update_nth i f l) d = if Nat.eqb j i then f (nth i l d) else nth j l d.
Proof.
  induction l as [|a l IH]; intros [|i] [|j] Hi; cbn in *; try lia; try reflexivity.
  apply IH. lia.
Qed.

Lemma length_tbl_set t i v : length (tbl_set t i v) = length t.
Proof. apply length_update_nth. Qed.

Lemma tbl_get_set t i v j :
  0 <= i < Z.of_nat (length t) -> 0 <= j ->
  tbl_get (tbl_set t i v) j = if j =? i then u8 v else tbl_get t j.
Proof.
  intros Hi Hj. unfold tbl_get, tbl_set.
  rewrite nth_update_nth by lia.
  destruct (Z.eqb_spec j i) as [->|Hne].
  - now rewrite Nat.eqb_refl.
  - destruct (Nat.eqb_spec (Z.to_nat j) (Z.to_nat i)); [lia | reflexivity].
Qed.

Lemma nth_map_seq {A : Type} (f : nat -> A) (d : A) (len n : nat) :
  (n < len)%nat -> nth n (map f (seq 0 len)) d = f n.
Proof.
  intros H. rewrite (nth_indep _ d (f O)) by (rewrite length_map, length_seq; lia).
  rewrite (map_nth f), seq_nth by lia. reflexivity.
Qed.

Lemma charTable_init_eq :
  charTable_init = map (fun k => Z.of_nat k mod 256) (seq 0 512).
Proof. vm_compute. reflexivity. Qed.

Lemma charTable_init_get j :
  0 <= j < 512 -> tbl_get charTable_init j = j mod 256.
Proof.
  intros Hj. unfold tbl_get. rewrite charTable_init_eq.
  rewrite nth_map_seq by lia. now rewrite Z2Nat.id by lia.
Qed.

Lemma charTable_init_ok : table_ok charTable_init.
Proof.
  unfold table_ok.
  split; [rewrite charTable_init_eq, length_map, length_seq; reflexivity|].
  split; [intros j Hj; rewrite charTable_init_get by lia;
          apply Z.mod_pos_bound; lia|].
  split; [reflexivity|].
  split; [intros j Hj; rewrite charTable_init_get, Z.mod_small by lia; lia|].
  split; [intros j k Hj Hk; rewrite !charTable_init_get, !Z.mod_small by lia; auto|].
  split; [intros v Hv; exists v; split; [lia|];
          rewrite charTable_init_get, Z.mod_small by lia; reflexivity|].
  intros j Hj. rewrite charTable_init_get by lia.
  replace j with (j - 256 + 1 * 256) at 1 by lia.
  rewrite Z.mod_add, Z.mod_small by lia. reflexivity.
Qed.

Lemma swap_position_eq seed1 seed2 i :
  swap_position seed1 seed2 i = (i * seed2 + seed1) mod 2 ^ 32 mod 254 + 1.
Proof.
  unfold swap_position, u32.
  rewrite Zplus_mod_idemp_l.
  apply Z.mod_small.
  pose proof (Z.mod_pos_bound ((i * seed2 + seed1) mod 2 ^ 32) 254 ltac:(lia)).
  change (2 ^ 32) with 4294967296 in *. lia.
Qed.

Lemma swap_position_range seed1 seed2 i :
  1 <= swap_position seed1 seed2 i <= 254.
Proof.
  rewrite swap_position_eq.
  pose proof (Z.mod_pos_bound ((i * seed2 + seed1) mod 2 ^ 32) 254 ltac:(lia)).
  lia.
Qed.

(** A swap of two neighbouring entries among 1..255 keeps the shape. *)
Lemma swap_step_ok seed1 seed2 i t :
  table_ok t -> table_ok (swap_step seed1 seed2 i t).
Proof.
  intros (Hlen & Hrng & H0 & Hin & Hinj & Hsur & Hhi).
  pose proof (swap_position_range seed1 seed2 i) as HAX.
  unfold swap_step. set (AX := swap_position seed1 seed2 i) in *.
  assert (Hget : forall j, 0 <= j ->
            tbl_get (tbl_set (tbl_set t AX (tbl_get t (AX + 1))) (AX + 1) (tbl_get t AX)) j
            = if j =? AX + 1 then tbl_get t AX
              else if j =? AX then tbl_get t (AX + 1) else tbl_get t j).
  { intros j Hj. rewrite tbl_get_set by (rewrite ?length_tbl_set; lia).
    rewrite tbl_get_set by lia.
    rewrite !u8_small by (apply Hrng; lia). reflexivity. }
  unfold table_ok. rewrite !length_tbl_set.
  split; [exact Hlen|].
  split.
  { intros j Hj. rewrite Hget by lia.
    destruct (j =? AX + 1); [apply Hrng; lia|].
    destruct (j =? AX); apply Hrng; lia. }
  split.
  { rewrite Hget by lia.
    destruct (Z.eqb_spec 0 (AX + 1)); [lia|].
    destruct (Z.eqb_spec 0 AX); [lia | exact H0]. }
  split.
  { intros j Hj. rewrite Hget by lia.
    destruct (j =? AX + 1); [apply Hin; lia|].
    destruct (j =? AX); apply Hin; lia. }
  split.
  { intros j k Hj Hk. rewrite !Hget by lia.
    destruct (Z.eqb_spec j (AX + 1)); destruct (Z.eqb_spec j AX);
      destruct (Z.eqb_spec k (AX + 1)); destruct (Z.eqb_spec k AX);
      intros E; try lia; apply Hinj in E; lia. }
  split.
  { intros v Hv. destruct (Hsur v Hv) as (j & Hj & Ej).
    destruct (Z.eq_dec j AX) as [->|Hne1].
    - exists (AX + 1). split; [lia|]. rewrite Hget by lia.
      rewrite Z.eqb_refl. exact Ej.
    - destruct (Z.eq_dec j (AX + 1)) as [->|Hne2].
      + exists AX. split; [lia|]. rewrite Hget by lia.
        destruct (Z.eqb_spec AX (AX + 1)); [lia|]. rewrite Z.eqb_refl. exact Ej.
      + exists j. split; [lia|]. rewrite Hget by lia.
        destruct (Z.eqb_spec j (AX + 1)); [lia|].
        destruct (Z.eqb_spec j AX); [lia | exact Ej]. }
  intros j Hj. rewrite Hget by lia.
  destruct (Z.eqb_spec j (AX + 1)); [lia|].
  destruct (Z.eqb_spec j AX); [lia | apply Hhi; lia].
Qed.

Lemma table_first_pass_ok seed1 seed2 t :
  table_ok t -> table_ok (table_first_pass seed1 seed2 t).
Proof.
  intros Ht. unfold table_first_pass, for_range.
  apply (for_up_ind (fun _ t' => table_ok t') (swap_step seed1 seed2)
           (Z.to_nat (0x2711 - 1)) 1 t Ht).
  intros k s' _. apply swap_step_ok.
Qed.

(** The second pass writes, behind offset 0x100, the inverse of the
    permutation held in the first half. *)
Lemma table_second_pass_spec t0 :
  table_ok t0 ->
  length (table_second_pass t0) = 512%nat
  /\ (forall j, 0 <= j < 256 -> tbl_get (table_second_pass t0) j = tbl_get t0 j)
  /\ (forall j, 1 <= j <= 255 ->
        tbl_get (table_second_pass t0) (0x100 + tbl_get t0 j) = j)
  /\ tbl_get (table_second_pass t0) 0x100 = 0
  /\ (forall j, 0 <= j < 512 -> 0 <= tbl_get (table_second_pass t0) j < 256).
Proof.
  intros (Hlen & Hrng & H0 & Hin & Hinj & Hsur & Hhi).
  unfold table_second_pass, for_range.
  set (body := fun i t => let DX := tbl_get t (i + 1) in tbl_set t (DX + 0x100) (i + 1)).
  pose (P := fun (k : Z) (t : list Z) =>
    length t = 512%nat
    /\ (forall j, 0 <= j < 256 -> tbl_get t j = tbl_get t0 j)
    /\ (forall j, 1 <= j <= 255 -> j <= k -> tbl_get t (0x100 + tbl_get t0 j) = j)
    /\ tbl_get t 0x100 = 0
    /\ (forall j, 0 <= j < 512 -> 0 <= tbl_get t j < 256)).
  assert (HP : P (0 + Z.of_nat (Z.to_nat (0x100 - 0))) (for_up (Z.to_nat (0x100 - 0)) 0 1 body t0)).
  { apply (for_up_ind P body).
    - unfold P. repeat split; auto; try (apply Hrng; lia).
      + intros j Hj Hk. lia.
      + rewrite Hhi by lia. reflexivity.
    - intros k t Hk (Tlen & Tlow & Tinv & T100 & Trng).
      assert (Hk' : 0 <= k < 256) by lia. clear Hk.
      unfold body. cbv zeta.
      destruct (Z.eq_dec k 255) as [->|Hne].
      + (* the last pass reads entry 256 and writes entry 0x100 *)
        change (255 + 1) with 256. change 256 with 0x100 in T100 |- *.
        rewrite T100. change (0 + 0x100) with 0x100.
        assert (G : forall j, 0 <= j ->
                  tbl_get (tbl_set t 0x100 0x100) j
                  = if j =? 0x100 then 0 else tbl_get t j).
        { intros j Hj. rewrite tbl_get_set by lia. reflexivity. }
        unfold P. rewrite length_tbl_set.
        split; [exact Tlen|].
        split; [intros j Hj; rewrite G by lia;
                destruct (Z.eqb_spec j 0x100); [lia | apply Tlow; lia]|].
        split.
        { intros j Hj _. rewrite G by (pose proof (Hin j Hj); lia).
          destruct (Z.eqb_spec (0x100 + tbl_get t0 j) 0x100) as [E|_].
          - pose proof (Hin j Hj). lia.
          - apply Tinv; lia. }
        split; [rewrite G by lia; reflexivity|].
        intros j Hj. rewrite G by lia.
        destruct (j =? 0x100); [lia | apply Trng; lia].
      + assert (Hk1 : 1 <= k + 1 <= 255) by lia.
        pose proof (Hin (k + 1) Hk1) as HDX.
        rewrite (Tlow (k + 1)) by lia.
        set (DX := tbl_get t0 (k + 1)) in *.
        assert (G : forall j, 0 <= j ->
                  tbl_get (tbl_set t (DX + 0x100) (k + 1)) j
                  = if j =? DX + 0x100 then k + 1 else tbl_get t j).
        { intros j Hj. rewrite tbl_get_set by lia.
          rewrite u8_small by lia. reflexivity. }
        unfold P. rewrite length_tbl_set.
        split; [exact Tlen|].
        split; [intros j Hj; rewrite G by lia;
                destruct (Z.eqb_spec j (DX + 0x100)); [lia | apply Tlow; lia]|].
        split.
        { intros j Hj Hjk. pose proof (Hin j Hj) as Hj'.
          rewrite G by lia.
          destruct (Z.eqb_spec (0x100 + tbl_get t0 j) (DX + 0x100)) as [E|E].
          - assert (tbl_get t0 j = tbl_get t0 (k + 1)) by (fold DX; lia).
            apply Hinj in H; lia.
          - apply Tinv; [lia|].
            destruct (Z.eq_dec j (k + 1)) as [->|]; [fold DX in E; lia | lia]. }
        split; [rewrite G by lia; destruct (Z.eqb_spec 0x100 (DX + 0x100));
                [lia | exact T100]|].
        intros j Hj. rewrite G by lia.
        destruct (j =? DX + 0x100); [lia | apply Trng; lia]. }
  destruct HP as (Tlen & Tlow & Tinv & T100 & Trng).
  split; [exact Tlen|]. split; [exact Tlow|].
  split; [intros j Hj; apply Tinv; [lia | change (Z.of_nat (Z.to_nat (0x100 - 0))) with 256; lia]|].
  split; assumption.
Qed.

(** The finished table: 512 bytes whose two halves are inverse to each
    other. *)
Lemma ext_charTable_inverse d :
  length (ext_charTable d) = 512%nat
  /\ (forall v, 0 <= v < 256 ->
        0 <= tbl_get (ext_charTable d) v < 256
        /\ 0 <= tbl_get (ext_charTable d) (0x100 + v) < 256
        /\ tbl_get (ext_charTable d) (0x100 + tbl_get (ext_charTable d) v) = v
        /\ tbl_get (ext_charTable d) (tbl_get (ext_charTable d) (0x100 + v)) = v).
Proof.
  unfold ext_charTable. destruct (ext_seeds d) as [seed1 seed2].
  pose proof (table_first_pass_ok seed1 seed2 _ charTable_init_ok) as Hok.
  set (t0 := table_first_pass seed1 seed2 charTable_init) in *.
  destruct (table_second_pass_spec t0 Hok) as (Tlen & Tlow & Tinv & T100 & Trng).
  destruct Hok as (Hlen & Hrng & H0 & Hin & Hinj & Hsur & Hhi).
  split; [exact Tlen|].
  intros v Hv.
  split; [apply Trng; lia|]. split; [apply Trng; lia|].
  destruct (Z.eq_dec v 0) as [->|Hv0].
  - rewrite (Tlow 0) by lia. rewrite H0. change (0x100 + 0) with 0x100.
    rewrite T100, (Tlow 0), H0 by lia. auto.
  - split.
    + rewrite (Tlow v) by lia. apply Tinv. lia.
    + destruct (Hsur v ltac:(lia)) as (j & Hj & <-).
      rewrite Tinv by lia. apply Tlow. lia.
Qed.

Lemma ext_decrypt_block_spec T m dataPos pos :
  0 <= dataPos -> dataPos + 1 < 2 ^ 32 ->
  (forall j, 0 <= j < 512 -> 0 <= tbl_get T j < 256) ->
  (forall j, dataPos + 1 <= j < pos ->
     byte_at (ext_decrypt_block T m dataPos pos) j
     = tbl_get T (0x100 + byte_at m j))
  /\ (forall j, j < dataPos + 1 \/ pos <= j ->
        ext_decrypt_block T m dataPos pos j = m j).
Proof.
  intros H0 H1 HT. unfold ext_decrypt_block, for_range.
  rewrite (u32_small (dataPos + 1)) by lia.
  set (start := dataPos + 1).
  set (body := fun i (m0 : stream) => poke m0 i (tbl_get T (byte_at m0 i + 0x100))).
  set (n := Z.to_nat (pos - start)).
  pose (P := fun (k : Z) (m' : stream) =>
    (forall j, start <= j < k -> byte_at m' j = tbl_get T (0x100 + byte_at m j))
    /\ (forall j, j < start \/ k <= j -> m' j = m j)).
  assert (HP : P (start + Z.of_nat n) (for_up n start 1 body m)).
  { apply (for_up_ind P body).
    - split; [intros j Hj; lia | reflexivity].
    - intros k m' Hk (Ha & Hb). unfold body. split.
      + intros j Hj. rewrite byte_at_poke.
        destruct (Z.eqb_spec j k) as [->|Hne].
        * assert (E : byte_at m' k = byte_at m k)
            by (unfold byte_at; rewrite Hb by lia; reflexivity).
          rewrite E, Z.add_comm. apply u8_small. apply HT.
          pose proof (byte_at_range m k). lia.
        * apply Ha. lia.
      + intros j Hj. unfold poke.
        destruct (Z.eqb_spec j k); [lia | apply Hb; lia]. }
  destruct HP as (Ha & Hb). split.
  - intros j Hj. apply Ha. subst n. lia.
  - intros j Hj. apply Hb. subst n. lia.
Qed.

(** C4, as stated, fails.  For the seed dword 0 the table the code builds
    (10000 swaps) differs from the table built with swaps over 1..9999, at
    entry 57; and of the data region of the sample the first byte behind
    the seed dword keeps its value 3, although the table maps 3 to 4 as for
    the bytes after it. *)
Lemma ext_cipher_counterexample :
  tbl_get (ext_charTable 0) 57 <> tbl_get (spec_charTable 0) 57
  /\ byte_at (fst (fst (ext_decrypt_region ext_region_sample 0))) 8 = 3
  /\ byte_at (fst (fst (ext_decrypt_region ext_region_sample 0))) 9 = 4
  /\ byte_at ext_region_sample 8 = 3
  /\ tbl_get (ext_charTable 0) (0x100 + byte_at ext_region_sample 8) = 4.
Proof.
  refine (conj _ (conj _ (conj _ (conj _ _)))).
  - vm_compute. discriminate.
  - vm_compute. reflexivity.
  - vm_compute. reflexivity.
  - vm_compute. reflexivity.
  - vm_compute. reflexivity.
Qed.

(** C4, amended.  The cipher derives [seed2 = (seed1 % 250) + 6] and
    [seed1 = seed1 / 250] from the dword that opens the data region (as
    [int], each raised by 100 if negative), starts from the 512-entry table
    [charTable[i] = i], swaps the entries at [AX] and [AX + 1] with
    [AX = ((i * seed2 + seed1) % 254) + 1] (in unsigned arithmetic) for
    exactly the indices [i = 1 .. 10000], and fills the second half of the
    table as the inverse of the first.  It then substitutes, in place and
    through the second half, every byte of the region from the second byte
    behind the seed dword to the end; the seed dword, the byte right after
    it and everything outside the region stay as they were. *)
Theorem ext_cipher_substitution (buffer : stream) (pos : Z) :
  0 <= pos -> pos + 9 + dword_at buffer pos < 2 ^ 32 ->
  let endpos := dword_at buffer pos in
  let seed := dword_at buffer (pos + 4) in
  let T := ext_charTable seed in
  let adjust := fun x => if x <? 0 then x + 100 else x in
  let seed1 := adjust (Z.quot (s32 seed) 250) in
  let seed2 := adjust (Z.rem (s32 seed) 250 + 6) in
  ext_seeds seed = (seed1, seed2)
  /\ T = table_second_pass
           (fold_left (fun t i => swap_step seed1 seed2 i t)
              (map Z.of_nat (seq 1 (Z.to_nat 10000))) charTable_init)
  /\ (forall i, swap_position seed1 seed2 i
                = (i * seed2 + seed1) mod 2 ^ 32 mod 254 + 1)
  /\ length T = 512%nat
  /\ (forall v, 0 <= v < 256 ->
        tbl_get T (0x100 + tbl_get T v) = v
        /\ tbl_get T (tbl_get T (0x100 + v)) = v)
  /\ exists m',
       ext_decrypt_region buffer pos = (m', pos + 8, pos + 4 + endpos)
       /\ (forall j, pos + 9 <= j < pos + 4 + endpos ->
             byte_at m' j = tbl_get T (0x100 + byte_at buffer j))
       /\ (forall j, j < pos + 9 \/ pos + 4 + endpos <= j -> m' j = buffer j).
Proof.
  intros Hpos Hend endpos seed T adjust seed1 seed2.
  pose proof (dword_at_range buffer pos) as Hr. fold endpos in Hr, Hend.
  assert (Hseeds : ext_seeds seed = (seed1, seed2)) by reflexivity.
  split; [exact Hseeds|].
  split.
  { assert (E : map (fun k => 1 + Z.of_nat k) (seq 0 (Z.to_nat (0x2711 - 1)))
                = map Z.of_nat (seq 1 (Z.to_nat 10000))).
    { change (0x2711 - 1) with 10000.
      rewrite <- seq_shift, map_map. apply map_ext. intros k. lia. }
    subst T. unfold ext_charTable. rewrite Hseeds. cbv beta iota.
    unfold table_first_pass, for_range. rewrite for_up_fold, E. reflexivity. }
  split; [intros i; apply swap_position_eq|].
  destruct (ext_charTable_inverse seed) as (Tlen & Tinv). fold T in Tlen, Tinv.
  split; [exact Tlen|].
  split; [intros v Hv; destruct (Tinv v Hv) as (_ & _ & A & B); auto|].
  destruct (ext_decrypt_block_spec T buffer (pos + 8) (pos + 4 + endpos))
    as (Ha & Hb); [lia | lia | |].
  { intros j Hj. destruct (Z.ltb_spec j 256).
    - apply (Tinv j). lia.
    - replace j with (0x100 + (j - 256)) by lia. apply (Tinv (j - 256)). lia. }
  exists (ext_decrypt_block T buffer (pos + 8) (pos + 4 + endpos)).
  split; [|split].
  - unfold ext_decrypt_region. rewrite ReadDword_eq. fold endpos.
    rewrite ReadDword_eq. unfold skip.
    rewrite (u32_small (pos + 4)) by lia.
    fold seed. fold T.
    rewrite (u32_small (pos + 4 + 4)), (u32_small (pos + 4 + endpos)) by lia.
    replace (pos + 4 + 4) with (pos + 8) by lia. reflexivity.
  - intros j Hj. apply Ha. lia.
  - intros j Hj. apply Hb. lia.
Qed.

Lemma ext_cipher_substitution_witness :
  let buffer := ext_region_sample in
  let pos := 0 in
  let endpos := dword_at buffer pos in
  let seed := dword_at buffer (pos + 4) in
  let T := ext_charTable seed in
  let adjust := fun x => if x <? 0 then x + 100 else x in
  let seed1 := adjust (Z.quot (s32 seed) 250) in
  let seed2 := adjust (Z.rem (s32 seed) 250 + 6) in
  ext_seeds seed = (seed1, seed2)
  /\ T = table_second_pass
           (fold_left (fun t i => swap_step seed1 seed2 i t)
              (map Z.of_nat (seq 1 (Z.to_nat 10000))) charTable_init)
  /\ (forall i, swap_position seed1 seed2 i
                = (i * seed2 + seed1) mod 2 ^ 32 mod 254 + 1)
  /\ length T = 512%nat
  /\ (forall v, 0 <= v < 256 ->
        tbl_get T (0x100 + tbl_get T v) = v
        /\ tbl_get T (tbl_get T (0x100 + v)) = v)
  /\ exists m',
       ext_decrypt_region buffer pos = (m', pos + 8, pos + 4 + endpos)
       /\ (forall j, pos + 9 <= j < pos + 4 + endpos ->
             byte_at m' j = tbl_get T (0x100 + byte_at buffer j))
       /\ (forall j, j < pos + 9 \/ pos + 4 + endpos <= j -> m' j = buffer j).
Proof.
  apply (ext_cipher_substitution ext_region_sample 0).
  - lia.
  - vm_compute. reflexivity.
Defined.

Example ext_seeds_negative : ext_seeds 0xFFFFFF00 = (-1 + 100, -6 + 6).
Proof. reflexivity. Qed.

(** ** Record sections and tombstones *)

Lemma update_nth_last {A : Type} (f : A -> A) (l : list A) (x : A) :
  update_nth (length l) f (l ++ [x]) = l ++ [f x].
Proof. induction l as [|a l IH]; cbn; [reflexivity | now rewrite IH]. Qed.

Lemma modify_last_app {A : Type} (f : A -> A) (l : list A) (x : A) :
  modify_last f (l ++ [x]) = l ++ [f x].
Proof.
  unfold modify_last. rewrite length_app. cbn [length].
  replace (length l + 1 - 1)%nat with (length l) by lia.
  apply update_nth_last.
Qed.

Lemma GetAsset_last {A : Type} (l : list A) (x : A) :
  GetAsset (l ++ [x]) (Z.of_nat (length l)) = Some x.
Proof.
  unfold GetAsset. destruct (Z.ltb_spec (Z.of_nat (length l)) 0); [lia|].
  rewrite Nat2Z.id, nth_error_app2, Nat.sub_diag by lia. reflexivity.
Qed.

Lemma GetAsset_app {A : Type} (l l' : list A) (id : Z) (r : A) :
  GetAsset l id = Some r -> GetAsset (l ++ l') id = Some r.
Proof.
  unfold GetAsset. destruct (id <? 0); [discriminate|]. intros H.
  rewrite nth_error_app1; [exact H|]. apply nth_error_Some. congruence.
Qed.

Section RecordSections.

Variable zinflate : list Z -> option (list Z).
Context {R : Type}.
Variable fresh : R.
Variable tombstone : R -> R.
Variable body : stream -> Z -> R -> World -> flow (R * stream * World).
Variable buffer : stream.

(** A pass of a section's loop that goes through adds exactly one record,
    behind the ones already there. *)
Lemma load_record_appends pos data w table st' :
  load_record zinflate fresh tombstone body buffer (pos, data, w, table)
  = Continue st' ->
  exists r, snd st' = table ++ [r].
Proof.
  unfold load_record.
  destruct (InflateBlock zinflate buffer pos data) as [[[p d] n]|]; [|discriminate].
  rewrite ReadDword_eq.
  destruct (dword_at d 0 =? 0).
  - intros [= <-]. cbn [snd]. rewrite modify_last_app. eauto.
  - destruct (body d (u32 (0 + 4)) fresh w) as [c|[[r d'] w']| |]; cbn [bind];
      try discriminate.
    intros [= <-]. cbn [snd]. rewrite modify_last_app. eauto.
Qed.

(** Over any number of passes the table only grows at its end, by one
    record per pass. *)
Lemma load_records_extend m : forall st st',
  repeat_flow m (load_record zinflate fresh tombstone body buffer) st
  = Continue st' ->
  exists added, snd st' = snd st ++ added /\ length added = m.
Proof.
  induction m as [|m IH]; intros st st'; cbn [repeat_flow].
  - intros [= <-]. exists []. rewrite app_nil_r. auto.
  - destruct st as [[[pos data] w] table].
    destruct (load_record zinflate fresh tombstone body buffer (pos, data, w, table))
      as [c|st1| |] eqn:E; cbn [bind]; try discriminate.
    intros H. destruct (load_record_appends _ _ _ _ _ E) as (r & Hr).
    destruct (IH _ _ H) as (added & Ha & Hl).
    exists (r :: added). cbn [snd length]. rewrite Ha, Hr, <- app_assoc.
    split; [reflexivity | lia].
Qed.

(** A block whose leading dword is zero: the body parser is not run. *)
Lemma load_record_tombstone pos data w table pos' data' n :
  InflateBlock zinflate buffer pos data = Some (pos', data', n) ->
  dword_at data' 0 = 0 ->
  load_record zinflate fresh tombstone body buffer (pos, data, w, table)
  = Continue (pos', data', w, table ++ [tombstone fresh]).
Proof.
  intros HI H0. unfold load_record. rewrite HI, ReadDword_eq, H0.
  cbn. rewrite modify_last_app. reflexivity.
Qed.

End RecordSections.

(** C2.  In each of the eleven sections with one block per record, a record
    whose block starts with a zero dword is stored as the section's new
    record with [exists] cleared and nothing else: the body parser plays no
    part, the cursor and the block are those [InflateBlock] left, and the
    renderer and the code registry are untouched.  The record takes the
    next free slot, so its id is the number of records before it in the
    file; it keeps that slot, and the earlier records keep theirs, through
    every later pass of the loop, each of which adds one record at the
    end. *)
Theorem tombstoned_record_keeps_slot
    (zinflate : list Z -> option (list Z)) (Action : Type)
    (readAction : stream -> Z -> option (Action * Z)) (event_fuel : nat)
    (version : Z) (k : AssetKind)
    (buffer : stream) (pos : Z) (data : stream) (w : World)
    (table : list (asset_type Action k))
    (pos' : Z) (data' : stream) (n : Z) :
  InflateBlock zinflate buffer pos data = Some (pos', data', n) ->
  dword_at data' 0 = 0 ->
  let pass :=
    load_record zinflate (asset_new Action k) (asset_tomb Action k)
      (asset_body zinflate Action readAction event_fuel version k) buffer in
  let dead := asset_tomb Action k (asset_new Action k) in
  pass (pos, data, w, table) = Continue (pos', data', w, table ++ [dead])
  /\ asset_exists Action k dead = false
  /\ (forall body',
        load_record zinflate (asset_new Action k) (asset_tomb Action k) body'
          buffer (pos, data, w, table)
        = Continue (pos', data', w, table ++ [dead]))
  /\ GetAsset (table ++ [dead]) (Z.of_nat (length table)) = Some dead
  /\ (forall id r, GetAsset table id = Some r ->
        GetAsset (table ++ [dead]) id = Some r)
  /\ (forall m st',
        repeat_flow m pass (pos', data', w, table ++ [dead]) = Continue st' ->
        length (snd st') = (length table + 1 + m)%nat
        /\ GetAsset (snd st') (Z.of_nat (length table)) = Some dead
        /\ forall id r, GetAsset table id = Some r ->
                        GetAsset (snd st') id = Some r).
Proof.
  intros HI H0 pass dead.
  split; [apply (load_record_tombstone _ _ _ _ _ _ _ _ _ _ _ n HI H0)|].
  split; [destruct k; reflexivity|].
  split; [intros body'; apply (load_record_tombstone _ _ _ _ _ _ _ _ _ _ _ n HI H0)|].
  split; [apply GetAsset_last|].
  split; [intros id r; apply GetAsset_app|].
  intros m st' Hm.
  destruct (load_records_extend _ _ _ _ _ _ _ _ Hm) as (added & Ha & Hl).
  cbn [snd] in Ha. rewrite Ha. split; [|split].
  - rewrite !length_app. cbn [length]. lia.
  - apply GetAsset_app, GetAsset_last.
  - intros id r Hr. apply GetAsset_app, GetAsset_app. exact Hr.
Qed.

(** In the sample game the second sprite record is a tombstone. *)
Lemma tombstoned_record_keeps_slot_witness :
  let buffer := place [(0, tombstone_block)] in
  let data' : stream :=
    fun i => if (0 <=? i) && (i <? 4) then nth (Z.to_nat i) (dwords [0]) 0 else 0 in
  let table := [new_Sprite] in
  let pass :=
    load_record toy_inflate (asset_new unit KSprite) (asset_tomb unit KSprite)
      (asset_body toy_inflate unit (fun _ _ => None) 16 800 KSprite) buffer in
  let dead := asset_tomb unit KSprite (asset_new unit KSprite) in
  let w := mkWorld (RInit renderer_start) [] in
  pass (0, fun _ => 0, w, table) = Continue (9, data', w, table ++ [dead])
  /\ asset_exists unit KSprite dead = false
  /\ (forall body',
        load_record toy_inflate (asset_new unit KSprite) (asset_tomb unit KSprite)
          body' buffer (0, fun _ => 0, w, table)
        = Continue (9, data', w, table ++ [dead]))
  /\ GetAsset (table ++ [dead]) (Z.of_nat (length table)) = Some dead
  /\ (forall id r, GetAsset table id = Some r ->
        GetAsset (table ++ [dead]) id = Some r)
  /\ (forall m st',
        repeat_flow m pass (9, data', w, table ++ [dead]) = Continue st' ->
        length (snd st') = (length table + 1 + m)%nat
        /\ GetAsset (snd st') (Z.of_nat (length table)) = Some dead
        /\ forall id r, GetAsset table id = Some r ->
                        GetAsset (snd st') id = Some r).
Proof.
  apply (tombstoned_record_keeps_slot toy_inflate unit (fun _ _ => None) 16 800
           KSprite (place [(0, tombstone_block)]) 0 (fun _ => 0)
           (mkWorld (RInit renderer_start) []) [new_Sprite] 9 _ 4).
  - reflexivity.
  - reflexivity.
Defined.

(** The sample game end to end: three sprite slots in file order, the middle
    one a tombstone, and the object's [spriteIndex] 2 resolving to the third
    record of the file. *)
Example small_game_sprites :
  match toy_GameLoad small_game_file with
  | Continue l =>
      map spr_exists (ld_sprites unit l) = [true; false; true]
      /\ map spr_name (ld_sprites unit l) = [codes "sprA"; []; codes "sprC"]
      /\ map (fun o => option_map spr_name
                         (GetAsset (ld_sprites unit l) (obj_spriteIndex o)))
             (ld_objects unit l)
         = [Some (codes "sprC")]
  | _ => False
  end.
Proof. vm_compute. repeat split. Qed.

(** ** Failure codes of [GameLoad] *)

Lemma fails_false_bind {A B : Type} (m : flow A) (k : A -> flow B) :
  fails_false m -> (forall a, fails_false (k a)) -> fails_false (bind m k).
Proof.
  unfold fails_false. intros Hm Hk. destruct m as [c|a| |]; cbn [bind].
  - intros [= ->]. apply Hm. reflexivity.
  - apply Hk.
  - discriminate.
  - discriminate.
Qed.

Ltac split_flow :=
  repeat match goal with
         | |- fails_false (bind _ _) => apply fails_false_bind; [|intros]
         | |- fails_false (match ?x with _ => _ end) => destruct x
         | |- fails_false (if ?b then _ else _) => destruct b
         | |- fails_false (Continue _) => discriminate
         | |- fails_false (Return false) => discriminate
         | |- fails_false Abort => discriminate
         | |- fails_false Diverge => discriminate
         end.

Lemma repeat_flow_fails_false {S : Type} (step : S -> flow S) n :
  (forall s, fails_false (step s)) -> forall s, fails_false (repeat_flow n step s).
Proof.
  intros Hstep. induction n as [|n IH]; intros s; cbn [repeat_flow].
  - discriminate.
  - apply fails_false_bind; auto.
Qed.

Section FailureCodes.

Variable zinflate : list Z -> option (list Z).
Variable Action : Type.
Variable readAction : stream -> Z -> option (Action * Z).
Variable compileAction : Action -> bool.
Variable compileCode : bool * list Z -> bool.
Variable event_fuel : nat.

Lemma read_settings_fails_false version data :
  fails_false (read_settings zinflate version data).
Proof. unfold read_settings. split_flow. Qed.

Lemma sprite_frames_fails_false n : forall i oX oY st,
  fails_false (sprite_frames n i oX oY st).
Proof.
  induction n as [|n IH]; intros i oX oY st; cbn [sprite_frames].
  - discriminate.
  - split_flow; apply IH.
Qed.

Lemma timeline_moments_fails_false n : forall data dataPos moments,
  fails_false (timeline_moments Action readAction n data dataPos moments).
Proof.
  induction n as [|n IH]; intros data dataPos moments; cbn [timeline_moments].
  - discriminate.
  - split_flow; apply IH.
Qed.

Lemma object_event_list_fails_false n : forall data dataPos events,
  fails_false (object_event_list Action readAction n data dataPos events).
Proof.
  induction n as [|n IH]; intros data dataPos events; cbn [object_event_list].
  - discriminate.
  - split_flow; apply IH.
Qed.

Lemma object_events_fails_false types : forall data dataPos,
  fails_false (object_events Action readAction event_fuel types data dataPos).
Proof.
  induction types as [|t types IH]; intros data dataPos; cbn [object_events].
  - discriminate.
  - apply fails_false_bind; [apply object_event_list_fails_false|].
    intros [ev p]. apply fails_false_bind; [apply IH|].
    intros [rest p']. discriminate.
Qed.

(** None of the eleven body parsers returns [true]. *)
Lemma asset_body_fails_false version k data dataPos r w :
  fails_false (asset_body zinflate Action readAction event_fuel version k
                 data dataPos r w).
Proof.
  destruct k; cbn [asset_body].
  - unfold trigger_body. split_flow.
  - unfold sound_body. split_flow.
  - unfold sprite_body. split_flow. apply sprite_frames_fails_false.
  - unfold background_body. split_flow.
  - unfold path_body. split_flow.
  - unfold script_body. split_flow.
  - unfold font_body. split_flow.
  - unfold timeline_body. split_flow. apply timeline_moments_fails_false.
  - unfold object_body. split_flow. apply object_events_fails_false.
  - unfold room_body. split_flow.
  - unfold include_body. split_flow.
Qed.

Lemma load_section_fails_false {R : Type} (fresh : R) tombstone body
    buffer pos data w :
  (forall d p r w', fails_false (body d p r w')) ->
  fails_false (load_section zinflate fresh tombstone body buffer pos data w).
Proof.
  intros Hbody. unfold load_section. split_flow.
  apply repeat_flow_fails_false. intros [[[p d] w'] table].
  unfold load_record. split_flow. apply Hbody.
Qed.

(** [GameLoad] leaves with [return true] before its end only from the
    extension loop, and only when reading an extension file's data fails:
    every other failure is reported as [false]. *)
Lemma load_extension_true st :
  load_extension zinflate st = Return true ->
  let '(buffer, pos, data, extensions) := st in
  exists files buffer' dataPos,
    read_ext_data zinflate files buffer' dataPos data = None.
Proof.
  destruct st as [[[buffer pos] data] extensions]. unfold load_extension.
  repeat match goal with
         | |- context [let '(_, _) := ?x in _] => destruct x
         end.
  destruct (read_ext_data zinflate _ _ _ data) as [[fs d]|] eqn:E;
    [discriminate|].
  intros _. eauto.
Qed.

Lemma load_blocks_true version buffer pos rend :
  load_blocks zinflate Action readAction compileAction compileCode
    event_fuel version buffer pos rend = Return true ->
  exists buffer' pos' data',
    load_extensions zinflate buffer' pos' data' = Return true.
Proof.
  unfold load_blocks.
  destruct (InflateBlock zinflate buffer (skip pos 4) (fun _ => 0))
    as [[[p d] n]|]; [|discriminate].
  pose proof (read_settings_fails_false version d) as Hs.
  destruct (read_settings zinflate version d) as [c|settings| |];
    cbn [bind]; try discriminate.
  { intros [= ->]. contradiction. }
  repeat match goal with
         | |- context [let '(_, _) := ?x in _] => destruct x
         end.
  set (E0 := load_extensions zinflate _ _ _).
  destruct E0 as [c|[[[b1 p1] d1] exts]| |] eqn:E; cbn [bind]; try discriminate.
  { intros [= ->]. eauto. }
  intros H. exfalso. revert H.
  match goal with |- ?m = _ -> False => change (fails_false m) end.
  split_flow;
    try (apply load_section_fails_false; intros;
         first [ apply (asset_body_fails_false version KTrigger)
               | apply (asset_body_fails_false version KSound)
               | apply (asset_body_fails_false version KSprite)
               | apply (asset_body_fails_false version KBackground)
               | apply (asset_body_fails_false version KPath)
               | apply (asset_body_fails_false version KScript)
               | apply (asset_body_fails_false version KFont)
               | apply (asset_body_fails_false version KTimeline)
               | apply (asset_body_fails_false version KObject)
               | apply (asset_body_fails_false version KRoom)
               | apply (asset_body_fails_false version KIncludeFile) ]).
Qed.

Lemma repeat_flow_return {S : Type} (step : S -> flow S) n : forall s c,
  repeat_flow n step s = Return c -> exists s', step s' = Return c.
Proof.
  induction n as [|n IH]; intros s c; cbn [repeat_flow]; [discriminate|].
  destruct (step s) as [c'|s1| |] eqn:E; cbn [bind]; try discriminate.
  - intros [= ->]. eauto.
  - apply IH.
Qed.

Lemma read_ext_data_none files buffer : forall dataPos data,
  read_ext_data zinflate files buffer dataPos data = None ->
  exists p d, InflateBlock zinflate buffer p d = None.
Proof.
  induction files as [|f files IH]; intros dataPos data; cbn [read_ext_data];
    [discriminate|].
  destruct (InflateBlock zinflate buffer dataPos data) as [[[p d] n]|] eqn:E;
    [|eauto].
  destruct (read_ext_data zinflate files buffer p d) as [[rest d']|] eqn:E';
    [discriminate|].
  intros _. eapply IH. exact E'.
Qed.

Lemma GameLoad_true host rend :
  GameLoad zinflate Action readAction compileAction compileCode event_fuel
    host rend = Return true ->
  exists buffer pos data,
    load_extensions zinflate buffer pos data = Return true.
Proof.
  unfold GameLoad.
  repeat match goal with
         | |- (if ?b then _ else _) = _ -> _ => destruct b; [discriminate|]
         | |- (match ?x with Some _ => _ | None => _ end) = _ -> _ =>
             destruct x; [|discriminate]
         | |- (let '(_, _) := ?x in _) = _ -> _ => destruct x
         end.
  apply load_blocks_true.
Qed.

Lemma GameLoad_true_inflate host rend :
  GameLoad zinflate Action readAction compileAction compileCode event_fuel
    host rend = Return true ->
  exists buffer p d, InflateBlock zinflate buffer p d = None.
Proof.
  intros H. apply GameLoad_true in H. destruct H as (b & p & d & H).
  unfold load_extensions in H. destruct (ReadDword b (skip p 4)) as [count q].
  apply repeat_flow_return in H. destruct H as (st & H).
  apply load_extension_true in H. destruct st as [[[b' p'] d'] exts].
  destruct H as (files & b'' & dataPos & H).
  apply read_ext_data_none in H. destruct H as (p1 & d1 & H). eauto.
Qed.

End FailureCodes.

(** C1 fails on the code.  The sample file is a GM8.0 executable whose one
    extension holds one file with an empty data block, which the inflater
    rejects: [GameLoad] stops there, cleans up and returns [true], so the
    caller takes the interrupted load for a complete one.  (Every other
    failing stage returns [false]: [GameLoad_true_inflate].) *)
Theorem GameLoad_extension_failure_returns_true :
  GameLoad_result toy_inflate unit (fun _ _ => None) (fun _ => true)
    (fun _ => true) 16 (toy_host broken_extension_file) (RInit renderer_start)
  = Some true
  /\ toy_GameLoad broken_extension_file = Return true
  /\ exists buffer pos data,
       load_extensions toy_inflate buffer pos data = Return true.
Proof.
  assert (H : GameLoad toy_inflate unit (fun _ _ => None) (fun _ => true)
                (fun _ => true) 16 (toy_host broken_extension_file)
                (RInit renderer_start) = Return true)
    by (vm_compute; reflexivity).
  split; [vm_compute; reflexivity|].
  split; [exact H|].
  exact (GameLoad_true toy_inflate unit (fun _ _ => None) (fun _ => true)
           (fun _ => true) 16 (toy_host broken_extension_file)
           (RInit renderer_start) H).
Qed.

(** ** More on the GM8.1 stream cipher *)

(** [Decrypt81] as one call of its loop. *)
Lemma Decrypt81_unfold m len pos :
  0 <= pos < 2 ^ 31 ->
  Decrypt81 m len pos
  = (Decrypt81_loop (Z.to_nat len) m len
       (pos + 8 + (hashSeed (dword_at m pos) mod 256 + 0xA))
       (dword_at m (pos + 4)) (hashSeed (dword_at m pos)),
     pos + 8).
Proof.
  intros Hpos.
  assert (Hp : 2 ^ 31 = 2147483648) by reflexivity.
  assert (Hq : 2 ^ 32 = 4294967296) by reflexivity.
  pose proof (Z.mod_pos_bound (hashSeed (dword_at m pos)) 256 ltac:(lia)) as Hs.
  unfold Decrypt81. rewrite ReadDword_eq. cbv beta iota.
  rewrite ReadDword_eq. cbv beta iota zeta.
  rewrite (u32_small (pos + 4)) by lia.
  rewrite (u32_small (pos + 4 + 4)) by lia.
  change 0xFF with (Z.ones 8). rewrite Z.land_ones by lia.
  change (2 ^ 8) with 256.
  rewrite u32_small by lia.
  replace (pos + 4 + 4 + hashSeed (dword_at m pos) mod 256 + 0xA)
    with (pos + 8 + (hashSeed (dword_at m pos) mod 256 + 0xA)) by lia.
  replace (pos + 4 + 4) with (pos + 8) by lia. reflexivity.
Qed.

(** Two streams with the same dword at [p] have the same four bytes there. *)
Lemma dword_at_bytes m1 m2 p r :
  dword_at m1 p = dword_at m2 p -> 0 <= r < 4 ->
  byte_at m1 (p + r) = byte_at m2 (p + r).
Proof.
  rewrite !dword_at_eq. intros E Hr.
  pose proof (byte_at_range m1 p). pose proof (byte_at_range m1 (p + 1)).
  pose proof (byte_at_range m1 (p + 2)). pose proof (byte_at_range m1 (p + 3)).
  pose proof (byte_at_range m2 p). pose proof (byte_at_range m2 (p + 1)).
  pose proof (byte_at_range m2 (p + 2)). pose proof (byte_at_range m2 (p + 3)).
  assert (C : r = 0 \/ r = 1 \/ r = 2 \/ r = 3) by lia.
  destruct C as [-> | [-> | [-> | ->]]]; rewrite ?Z.add_0_r; lia.
Qed.

(** X1.  The cipher is its own inverse: the key and [seed1] dwords lie in the
    part it skips, so a second run derives the same masks and XORs them
    away again.  Running [Decrypt81] twice gives back every byte of the
    stream. *)
Theorem Decrypt81_twice (m : stream) (len pos : Z) :
  0 <= pos < 2 ^ 31 -> 0 <= len < 2 ^ 32 ->
  forall j,
    byte_at (fst (Decrypt81 (fst (Decrypt81 m len pos)) len pos)) j = byte_at m j.
Proof.
  intros Hpos Hlen j.
  assert (Hp : 2 ^ 31 = 2147483648) by reflexivity.
  rewrite (Decrypt81_unfold m len pos Hpos). cbn [fst].
  set (seed2 := hashSeed (dword_at m pos)).
  set (seed1 := dword_at m (pos + 4)).
  pose proof (Z.mod_pos_bound seed2 256 ltac:(lia)) as Hs.
  set (e := pos + 8 + (seed2 mod 256 + 0xA)).
  set (m1 := Decrypt81_loop (Z.to_nat len) m len e seed1 seed2).
  destruct (Decrypt81_loop_spec (Z.to_nat len) m len e seed1 seed2)
    as [Hd1 Ho1]; [lia | lia | lia |]. fold m1 in Hd1, Ho1.
  assert (K1 : dword_at m1 pos = dword_at m pos)
    by (apply dword_at_ext; intros i Hi; apply Ho1; lia).
  assert (K2 : dword_at m1 (pos + 4) = dword_at m (pos + 4))
    by (apply dword_at_ext; intros i Hi; apply Ho1; lia).
  rewrite (Decrypt81_unfold m1 len pos Hpos). cbn [fst].
  rewrite K1, K2. fold seed2 seed1 e.
  set (m2 := Decrypt81_loop (Z.to_nat len) m1 len e seed1 seed2).
  destruct (Decrypt81_loop_spec (Z.to_nat len) m1 len e seed1 seed2)
    as [Hd2 Ho2]; [lia | lia | lia |]. fold m2 in Hd2, Ho2.
  pose proof (Z.mod_pos_bound (len - e) 4 ltac:(lia)) as Hr.
  destruct (Z.ltb_spec j e) as [Hlo|Hge].
  { unfold byte_at. rewrite Ho2, Ho1 by lia. reflexivity. }
  destruct (Z.leb_spec (len - (len - e) mod 4) j) as [Hhi|Hin].
  { unfold byte_at. rewrite Ho2, Ho1 by lia. reflexivity. }
  (* [j] lies inside a whole dword *)
  set (k := Z.to_nat ((j - e) / 4)).
  pose proof (Z.div_mod (j - e) 4 ltac:(lia)) as Hdm.
  pose proof (Z.mod_pos_bound (j - e) 4 ltac:(lia)) as Hjr.
  pose proof (Z.div_mod (len - e) 4 ltac:(lia)) as Hlm.
  assert (Hq : 0 <= (j - e) / 4) by (apply Z.div_pos; lia).
  assert (Hk : e + 4 * Z.of_nat k + 4 <= len).
  { subst k. rewrite Z2Nat.id by lia.
    assert ((j - e) / 4 < (len - e) / 4); [|lia].
    apply Z.div_lt_upper_bound; lia. }
  assert (Ed : dword_at m2 (e + 4 * Z.of_nat k) = dword_at m (e + 4 * Z.of_nat k)).
  { rewrite Hd2, Hd1 by exact Hk.
    rewrite Z.lxor_assoc, Z.lxor_nilpotent, Z.lxor_0_r. reflexivity. }
  replace j with (e + 4 * Z.of_nat k + (j - e) mod 4)
    by (subst k; rewrite Z2Nat.id by lia; lia).
  apply dword_at_bytes; [exact Ed | lia].
Qed.

Lemma Decrypt81_twice_witness :
  byte_at (fst (Decrypt81 (fst (Decrypt81 cipher_sample 302 0)) 302 0)) 300
  = byte_at cipher_sample 300.
Proof.
  apply (Decrypt81_twice cipher_sample 302 0); split; (reflexivity || discriminate).
Defined.

(** ** The paragraph cipher *)

Lemma for_down_ind {St : Type} (P : St -> Prop) (body : Z -> St -> St) n :
  forall i s,
    P s ->
    (forall k s', i - Z.of_nat n < k <= i -> P s' -> P (body k s')) ->
    P (for_down n i body s).
Proof.
  induction n as [|n IH]; intros i s H0 Hstep; cbn [for_down]; [exact H0|].
  apply IH.
  - apply Hstep; [lia | exact H0].
  - intros k s' Hk. apply Hstep. lia.
Qed.

Lemma tbl_get_read_bytes m n : forall p k,
  0 <= tbl_get (read_bytes m p n) k < 256.
Proof.
  unfold tbl_get. induction n as [|n IH]; intros p k; cbn [read_bytes].
  - destruct (Z.to_nat k); cbn; lia.
  - destruct (Z.to_nat k) as [|k'] eqn:E; cbn [nth].
    + apply byte_at_range.
    + specialize (IH (p + 1) (Z.of_nat k')). rewrite Nat2Z.id in IH. exact IH.
Qed.

(** X2.  [DecryptData] ends with the cursor at the start of the encrypted area
    (behind the two garbage tables, the swap table and the length dword) and
    changes no byte outside that area: the header it has just read, the
    swap table and everything behind the area are as before.  An area of at
    most one byte is left alone altogether. *)
Theorem DecryptData_frame (m : stream) (pos : Z) :
  let g1 := dword_at m pos in
  let g2 := dword_at m (pos + 4) in
  let area := pos + 8 + 4 * g1 + 256 + 4 * g2 + 4 in
  let len := dword_at m (area - 4) in
  0 <= pos -> area + len + 1 < 2 ^ 32 ->
  snd (DecryptData m pos) = area
  /\ (forall j, j < area \/ area + len <= j -> fst (DecryptData m pos) j = m j)
  /\ (len <= 1 -> forall j, fst (DecryptData m pos) j = m j).
Proof.
  intros g1 g2 area len Hpos Hend.
  pose proof (dword_at_range m pos) as R1. fold g1 in R1.
  pose proof (dword_at_range m (pos + 4)) as R2. fold g2 in R2.
  pose proof (dword_at_range m (area - 4)) as R3. fold len in R3.
  assert (Ha : 268 <= area) by (unfold area; lia).
  assert (Hq : 2 ^ 32 = 4294967296) by reflexivity.
  unfold DecryptData, skip.
  rewrite ReadDword_eq. cbv beta iota. fold g1.
  rewrite (u32_small (pos + 4)) by lia.
  rewrite ReadDword_eq. cbv beta iota. fold g2.
  rewrite (u32_small (pos + 4 + 4)) by lia.
  rewrite (u32_small (4 * g1)), (u32_small (4 * g2)) by lia.
  rewrite (u32_small (pos + 4 + 4 + 4 * g1)) by lia.
  rewrite (u32_small (4 * g2 + 256)) by lia.
  rewrite (u32_small (pos + 4 + 4 + 4 * g1 + (4 * g2 + 256))) by lia.
  replace (pos + 4 + 4 + 4 * g1 + (4 * g2 + 256)) with (area - 4)
    by (unfold area; lia).
  rewrite ReadDword_eq. fold len. cbv beta iota zeta.
  replace (u32 (area - 4 + 4)) with area by (rewrite u32_small; lia).
  cbn [fst snd].
  set (swapTable := read_bytes m (pos + 4 + 4 + 4 * g1) 256).
  set (reverseTable := for_range 0 256 _ _).
  replace (u32 (area + 1)) with (area + 1) by (rewrite u32_small; lia).
  replace (u32 (area + len)) with (area + len) by (rewrite u32_small; lia).
  set (body1 := fun (i : Z) (m0 : stream) => poke m0 (i - 1) _).
  set (n1 := Z.to_nat (area + len - (area + 1))).
  assert (Hn2 : (len <= 1 -> u32 (area + len - 1) - area <= 0)
                /\ (1 <= len -> u32 (area + len - 1) = area + len - 1)).
  { split; intros H.
    - destruct (Z.eq_dec len 0) as [E|E].
      + rewrite E. replace (area + 0 - 1) with (area - 1) by lia.
        rewrite u32_small by lia. lia.
      + rewrite u32_small by lia. lia.
    - apply u32_small. lia. }
  destruct Hn2 as [Hshort Hlong].
  set (body2 := fun (i : Z) (m0 : stream) => _).
  set (n2 := Z.to_nat (u32 (area + len - 1) - area)).
  pose (P := fun m' : stream => forall j, j < area \/ area + len <= j -> m' j = m j).
  assert (P1 : P (for_down n1 (area + len) body1 m)).
  { apply (for_down_ind P body1); [intros j Hj; reflexivity|].
    intros k s' Hk Hs j Hj. unfold body1, poke.
    destruct (Z.eqb_spec j (k - 1)); [subst n1; lia | apply Hs; exact Hj]. }
  split; [reflexivity|]. split.
  - destruct (Z.le_gt_cases len 1) as [Hle|Hgt].
    + assert (E2 : n2 = O) by (subst n2; specialize (Hshort Hle); lia).
      rewrite E2. cbn [for_down]. exact P1.
    + apply (for_down_ind P body2); [exact P1|].
      intros k s' Hk Hs j Hj. subst n2. rewrite Hlong in Hk by lia.
      unfold body2. cbv zeta.
      pose proof (tbl_get_read_bytes m 256 (pos + 4 + 4 + 4 * g1)
                    (Z.land (u32 (k - area)) 0xFF)) as Hsw.
      fold swapTable in Hsw.
      set (sv := tbl_get swapTable (Z.land (u32 (k - area)) 0xFF)) in *.
      assert (Hb : u32 (k - sv) = k - sv) by (apply u32_small; unfold area in *; lia).
      rewrite Hb.
      set (b := if k - sv <? area then area else k - sv).
      assert (Hbr : area <= b <= k)
        by (subst b; destruct (Z.ltb_spec (k - sv) area); lia).
      unfold poke.
      destruct (Z.eqb_spec j b); [lia|].
      destruct (Z.eqb_spec j k); [lia | apply Hs; exact Hj].
  - intros Hle j.
    assert (E1 : n1 = O) by (subst n1; lia).
    assert (E2 : n2 = O) by (subst n2; specialize (Hshort Hle); lia).
    rewrite E1, E2. reflexivity.
Qed.

Lemma DecryptData_frame_witness :
  let m := paragraph_sample in
  let pos := 0 in
  let g1 := dword_at m pos in
  let g2 := dword_at m (pos + 4) in
  let area := pos + 8 + 4 * g1 + 256 + 4 * g2 + 4 in
  let len := dword_at m (area - 4) in
  snd (DecryptData m pos) = area
  /\ (forall j, j < area \/ area + len <= j -> fst (DecryptData m pos) j = m j)
  /\ (len <= 1 -> forall j, fst (DecryptData m pos) j = m j).
Proof.
  apply (DecryptData_frame paragraph_sample 0).
  - lia.
  - vm_compute. reflexivity.
Defined.

Example DecryptData_sample :
  map (byte_at (fst (DecryptData paragraph_sample 0)))
      [271; 272; 273; 274; 275; 276; 277; 278]
  = [0; 3; 2; 1; 0; 255; 11; 77]
  /\ snd (DecryptData paragraph_sample 0) = 272.
Proof. vm_compute. split; reflexivity. Qed.

(** ** The block inflator *)

Lemma write_bytes_get bs : forall m p i,
  write_bytes m p bs i
  = if (p <=? i) && (i <? p + Z.of_nat (length bs))
    then u8 (nth (Z.to_nat (i - p)) bs 0) else m i.
Proof.
  induction bs as [|b bs IH]; intros m p i; cbn [write_bytes length].
  - destruct (Z.leb_spec p i); destruct (Z.ltb_spec i (p + Z.of_nat 0));
      cbn; try reflexivity; lia.
  - rewrite IH. unfold poke.
    destruct (Z.leb_spec (p + 1) i); destruct (Z.ltb_spec i (p + 1 + Z.of_nat (length bs)));
      destruct (Z.leb_spec p i); destruct (Z.ltb_spec i (p + Z.of_nat (S (length bs))));
      cbn [andb]; try lia;
      destruct (Z.eqb_spec i p); try lia; try reflexivity.
    + replace (Z.to_nat (i - p)) with (S (Z.to_nat (i - (p + 1)))) by lia.
      reflexivity.
    + subst i. replace (p - p) with 0 by lia. reflexivity.
Qed.

Lemma u8_u8 z : u8 (u8 z) = u8 z.
Proof. apply u8_small, u8_range. Qed.

Lemma read_bytes_nth m n : forall p i,
  (i < n)%nat -> nth i (read_bytes m p n) 0 = byte_at m (p + Z.of_nat i).
Proof.
  induction n as [|n IH]; intros p i Hi; [lia|]. cbn [read_bytes].
  destruct i as [|i]; cbn [nth].
  - now rewrite Z.add_0_r.
  - rewrite IH by lia. f_equal. lia.
Qed.

Lemma length_read_bytes m n : forall p, length (read_bytes m p n) = n.
Proof. induction n as [|n IH]; intros p; cbn; [reflexivity | now rewrite IH]. Qed.

Lemma read_write_bytes m bs :
  read_bytes (write_bytes m 0 bs) 0 (length bs) = map u8 bs.
Proof.
  apply nth_ext with (d := 0) (d' := u8 0).
  - now rewrite length_read_bytes, length_map.
  - intros i Hi. rewrite length_read_bytes in Hi.
    rewrite read_bytes_nth by exact Hi. rewrite map_nth.
    unfold byte_at. rewrite write_bytes_get.
    destruct (Z.leb_spec 0 (0 + Z.of_nat i)); [|lia].
    destruct (Z.ltb_spec (0 + Z.of_nat i) (0 + Z.of_nat (length bs))); [|lia].
    cbn [andb]. rewrite u8_u8. do 2 f_equal. lia.
Qed.

(** The loop collects the bytes of every call in order. *)
Lemma InflateBlock_loop_run chunks last : forall buffer inflatedData,
  exists buffer',
    InflateBlock_loop (zlib_run chunks last) buffer inflatedData
    = Some (Some (buffer', inflatedData ++ map u8 (concat chunks ++ last)))
    /\ forall i, Z.of_nat (length (concat chunks ++ last)) <= i ->
                 buffer' i = buffer i.
Proof.
  unfold zlib_run. induction chunks as [|c chunks IH]; intros buffer inflatedData.
  - cbn [map app InflateBlock_loop concat]. rewrite read_write_bytes.
    eexists. split; [reflexivity|].
    intros i Hi. rewrite write_bytes_get.
    destruct (Z.leb_spec 0 i); destruct (Z.ltb_spec i (0 + Z.of_nat (length last)));
      cbn [andb]; try reflexivity; lia.
  - cbn [map app InflateBlock_loop concat]. rewrite read_write_bytes.
    destruct (IH (write_bytes buffer 0 c) (inflatedData ++ map u8 c))
      as (buffer' & E & Hrest).
    exists buffer'. split.
    + rewrite E. rewrite <- (app_assoc c), (map_app u8 c), (app_assoc inflatedData).
      reflexivity.
    + intros i Hi. rewrite <- app_assoc, length_app in Hi.
      rewrite Hrest by lia. rewrite write_bytes_get.
      destruct (Z.leb_spec 0 i); destruct (Z.ltb_spec i (0 + Z.of_nat (length c)));
        cbn [andb]; try reflexivity; lia.
Qed.

Lemma InflateBlock_calls_run
    (chunks : list (list Z)) (last : list Z)
    (pStream : stream) (pPos : Z) (pOutBuffer : stream) (pOutBufferSize : Z) :
  let out := concat chunks ++ last in
  let n := Z.of_nat (length out) in
  Forall (fun c => Z.of_nat (length c) <= pOutBufferSize) (chunks ++ [last]) ->
  n < 2 ^ 32 ->
  exists buffer',
    InflateBlock_calls true (zlib_run chunks last) pStream pPos pOutBuffer
      pOutBufferSize
    = InflateTrue (u32 (u32 (pPos + 4) + dword_at pStream pPos)) buffer'
        (Z.max pOutBufferSize n) n
    /\ (forall i, 0 <= i < n -> byte_at buffer' i = u8 (nth (Z.to_nat i) out 0))
    /\ (n <= pOutBufferSize -> forall i, n <= i -> buffer' i = pOutBuffer i).
Proof.
  intros out n Hfit Hn.
  unfold InflateBlock_calls. rewrite ReadDword_eq. cbn [negb].
  destruct chunks as [|c chunks].
  - (* the first call already ends the stream *)
    cbn [zlib_run map app]. subst out n. cbn [concat app] in *.
    apply Forall_inv in Hfit.
    eexists. split; [|split].
    + rewrite (u32_small (Z.of_nat (length last))) by (split; [lia | exact Hn]).
      rewrite Z.max_l by lia. reflexivity.
    + intros i Hi. unfold byte_at. rewrite write_bytes_get.
      destruct (Z.leb_spec 0 i); destruct (Z.ltb_spec i (0 + Z.of_nat (length last)));
        cbn [andb]; try lia.
      rewrite u8_u8. do 2 f_equal. lia.
    + intros _ i Hi. rewrite write_bytes_get.
      destruct (Z.leb_spec 0 i); destruct (Z.ltb_spec i (0 + Z.of_nat (length last)));
        cbn [andb]; try reflexivity; lia.
  - change (zlib_run (c :: chunks) last) with ((c, Z_OK) :: zlib_run chunks last).
    cbv beta iota zeta. rewrite read_write_bytes.
    destruct (InflateBlock_loop_run chunks last (write_bytes pOutBuffer 0 c) (map u8 c))
      as (b1 & E & Hrest).
    rewrite E.
    assert (Hout : map u8 c ++ map u8 (concat chunks ++ last) = map u8 out)
      by (subst out; cbn [concat]; rewrite <- app_assoc, !map_app; reflexivity).
    rewrite Hout. rewrite length_map. fold n.
    rewrite (u32_small n) by (split; [lia | exact Hn]).
    assert (Hlen : Z.of_nat (length (concat chunks ++ last)) <= n
                   /\ Z.of_nat (length c) <= n).
    { subst n out. cbn [concat]. rewrite <- app_assoc, !length_app. lia. }
    destruct (Z.gtb_spec n pOutBufferSize) as [Hbig|Hsmall].
    + exists (stream_of_list (map u8 out)). split; [|split].
      * rewrite Z.max_r by lia. reflexivity.
      * intros i Hi. unfold byte_at, stream_of_list. rewrite length_map. fold n.
        destruct (Z.leb_spec 0 i); destruct (Z.ltb_spec i n); cbn [andb]; try lia.
        rewrite (nth_indep _ 0 (u8 0)) by (rewrite length_map; lia).
        rewrite map_nth. apply u8_u8.
      * intros Hle. lia.
    + exists (write_bytes b1 0 (map u8 out)). split; [|split].
      * rewrite Z.max_l by lia. reflexivity.
      * intros i Hi. unfold byte_at. rewrite write_bytes_get, length_map. fold n.
        destruct (Z.leb_spec 0 i); destruct (Z.ltb_spec i (0 + n)); cbn [andb]; try lia.
        rewrite (nth_indep _ 0 (u8 0)) by (rewrite length_map; lia).
        rewrite map_nth, !u8_u8. do 2 f_equal. lia.
      * intros _ i Hi. rewrite write_bytes_get, length_map. fold n.
        destruct (Z.leb_spec 0 i); destruct (Z.ltb_spec i (0 + n)); cbn [andb]; try lia.
        rewrite Hrest by lia.
        rewrite write_bytes_get.
        destruct (Z.ltb_spec i (0 + Z.of_nat (length c))); [lia|].
        rewrite andb_false_r. reflexivity.
Qed.

(** X3.  However zlib spreads its output over successive calls of [inflate] (no
    call writing more than the buffer holds), [InflateBlock] returns [true]
    with the cursor behind the compressed block, the whole output in order
    at the start of the buffer and its length in [*pOutSize]; the buffer is
    exchanged for a larger one exactly when the output does not fit, and
    otherwise keeps its old contents behind the output. *)
Theorem InflateBlock_assembles_output
    (chunks : list (list Z)) (last : list Z)
    (pStream : stream) (pPos : Z) (pOutBuffer : stream) (pOutBufferSize : Z) :
  let out := concat chunks ++ last in
  let n := Z.of_nat (length out) in
  Forall (fun c => Z.of_nat (length c) <= pOutBufferSize) (chunks ++ [last]) ->
  n < 2 ^ 32 ->
  exists buffer',
    InflateBlock_calls true (zlib_run chunks last) pStream pPos pOutBuffer
      pOutBufferSize
    = InflateTrue (u32 (u32 (pPos + 4) + dword_at pStream pPos)) buffer'
        (Z.max pOutBufferSize n) n
    /\ (forall i, 0 <= i < n -> byte_at buffer' i = u8 (nth (Z.to_nat i) out 0))
    /\ (n <= pOutBufferSize -> forall i, n <= i -> buffer' i = pOutBuffer i).
Proof.
  intros out n Hfit Hn.
  exact (InflateBlock_calls_run chunks last pStream pPos pOutBuffer
           pOutBufferSize Hfit Hn).
Qed.

Lemma InflateBlock_assembles_output_witness :
  let chunks := [[1; 2]; [3; 4]; [5]] in
  let last := [6; 7] in
  let out := concat chunks ++ last in
  let n := Z.of_nat (length out) in
  exists buffer',
    InflateBlock_calls true (zlib_run chunks last) (stream_of_list [9; 0; 0; 0])
      0 (fun _ => 0) 2
    = InflateTrue (u32 (u32 (0 + 4) + dword_at (stream_of_list [9; 0; 0; 0]) 0))
        buffer' (Z.max 2 n) n
    /\ (forall i, 0 <= i < n -> byte_at buffer' i = u8 (nth (Z.to_nat i) out 0))
    /\ (n <= 2 -> forall i, n <= i -> buffer' i = 0).
Proof.
  apply (InflateBlock_assembles_output [[1; 2]; [3; 4]; [5]] [6; 7]
           (stream_of_list [9; 0; 0; 0]) 0 (fun _ => 0) 2).
  - repeat constructor; cbn; lia.
  - reflexivity.
Defined.

(** X4.  The inflator fails, and only reports [false], when zlib cannot be
    initialised or when a call of [inflate] answers with an error code,
    however many calls succeeded before it and whatever would follow. *)
Theorem InflateBlock_zlib_error
    (calls : list (list Z * zcode)) (chunks : list (list Z)) (bad : list Z)
    (pStream : stream) (pPos : Z) (pOutBuffer : stream) (pOutBufferSize : Z) :
  InflateBlock_calls false calls pStream pPos pOutBuffer pOutBufferSize
  = InflateFalse
  /\ InflateBlock_calls true
       (map (fun c => (c, Z_OK)) chunks ++ (bad, Z_OTHER) :: calls)
       pStream pPos pOutBuffer pOutBufferSize
     = InflateFalse.
Proof.
  unfold InflateBlock_calls. rewrite ReadDword_eq. cbn [negb]. split; [reflexivity|].
  destruct chunks as [|c chunks]; [reflexivity|].
  cbn [map app].
  assert (L : forall cs buffer data,
             InflateBlock_loop
               (map (fun c => (c, Z_OK)) cs ++ (bad, Z_OTHER) :: calls) buffer data
             = Some None).
  { induction cs as [|c' cs IH]; intros buffer data; cbn [map app InflateBlock_loop].
    - reflexivity.
    - apply IH. }
  rewrite L. reflexivity.
Qed.

(** X5.  The loader's view of the inflator, [InflateBlock] with the inflated
    bytes given by one function of the compressed block, is what the chunked
    calls produce when the output fits the buffer: the same cursor, the same
    length and the same buffer contents. *)
Theorem InflateBlock_folds_calls
    (zinflate : list Z -> option (list Z))
    (chunks : list (list Z)) (last : list Z)
    (pStream : stream) (pPos : Z) (pOutBuffer : stream) (pOutBufferSize : Z) :
  let out := concat chunks ++ last in
  let n := Z.of_nat (length out) in
  zinflate (read_bytes pStream (u32 (pPos + 4)) (Z.to_nat (dword_at pStream pPos)))
  = Some out ->
  Forall (fun c => Z.of_nat (length c) <= pOutBufferSize) (chunks ++ [last]) ->
  n <= pOutBufferSize -> n < 2 ^ 32 ->
  exists pos' b1 b2,
    InflateBlock zinflate pStream pPos pOutBuffer = Some (pos', b1, n)
    /\ InflateBlock_calls true (zlib_run chunks last) pStream pPos pOutBuffer
         pOutBufferSize
       = InflateTrue pos' b2 pOutBufferSize n
    /\ forall i, 0 <= i -> byte_at b1 i = byte_at b2 i.
Proof.
  intros out n Hz Hfit Hsmall Hn.
  destruct (InflateBlock_calls_run chunks last pStream pPos pOutBuffer
              pOutBufferSize Hfit Hn) as (b2 & E & Hin & Hout).
  fold out n in E, Hin, Hout.
  rewrite Z.max_l in E by lia.
  unfold InflateBlock. rewrite ReadDword_eq. rewrite Hz. fold n.
  rewrite (u32_small n) by (split; [lia | exact Hn]).
  eexists _, _, b2. split; [reflexivity|]. split; [exact E|].
  intros i Hi. unfold byte_at at 1.
  destruct (Z.leb_spec 0 i); [|lia].
  destruct (Z.ltb_spec i n); cbn [andb].
  - rewrite Hin by lia. reflexivity.
  - unfold byte_at. rewrite Hout by lia. reflexivity.
Qed.

Lemma InflateBlock_folds_calls_witness :
  let pStream := stream_of_list [3; 0; 0; 0; 1; 7; 8] in
  exists pos' b1 b2,
    InflateBlock toy_inflate pStream 0 (fun _ => 0) = Some (pos', b1, 2)
    /\ InflateBlock_calls true (zlib_run [[7]] [8]) pStream 0 (fun _ => 0) 4
       = InflateTrue pos' b2 4 2
    /\ forall i, 0 <= i -> byte_at b1 i = byte_at b2 i.
Proof.
  apply (InflateBlock_folds_calls toy_inflate [[7]] [8]
           (stream_of_list [3; 0; 0; 0; 1; 7; 8]) 0 (fun _ => 0) 4).
  - reflexivity.
  - repeat constructor; cbn; lia.
  - cbn. lia.
  - reflexivity.
Defined.

(** ** Bit reflection *)

Lemma land_1_testbit v : (Z.land v 1 =? 0) = negb (Z.testbit v 0).
Proof.
  change 1 with (Z.ones 1) at 1. rewrite Z.land_ones by lia.
  change (2 ^ 1) with 2. rewrite Zmod_odd, Z.bit0_odd.
  destruct (Z.odd v); reflexivity.
Qed.

Lemma testbit_u32_bit s n :
  0 <= s < 32 -> Z.testbit (u32 (Z.shiftl 1 s)) n = (n =? s).
Proof.
  intros Hs. unfold u32. rewrite Z.shiftl_1_l.
  rewrite Z.mod_small.
  - destruct (Z.eqb_spec n s) as [->|Hne].
    + apply Z.pow2_bits_true. lia.
    + apply Z.pow2_bits_false. congruence.
  - split; [apply Z.pow_nonneg; lia | apply Z.pow_lt_mono_r; lia].
Qed.

Lemma Crc32Reflect_loop_bits c n : forall k i value rValue,
  1 <= i -> i + Z.of_nat k = c + 1 -> c <= 32 ->
  Z.testbit (Crc32Reflect_loop k i c value rValue) n
  = Z.testbit rValue n
    || ((0 <=? n) && (n <=? c - i) && Z.testbit value (c - i - n)).
Proof.
  induction k as [|k IH]; intros i value rValue Hi Hk Hc; cbn [Crc32Reflect_loop].
  - destruct (Z.leb_spec 0 n); destruct (Z.leb_spec n (c - i)); cbn [andb];
      rewrite ?orb_false_r; try reflexivity; lia.
  - rewrite IH by lia. rewrite land_1_testbit.
    replace (c - (i + 1)) with (c - i - 1) by lia.
    assert (Hbit : Z.testbit (Z.lor rValue (u32 (Z.shiftl 1 (c - i)))) n
                   = Z.testbit rValue n || (n =? c - i))
      by (rewrite Z.lor_spec, testbit_u32_bit by lia; reflexivity).
    destruct (Z.leb_spec 0 n) as [Hn|Hn]; cbn [andb];
      destruct (Z.leb_spec n (c - i - 1)); destruct (Z.leb_spec n (c - i));
      cbn [andb]; try lia;
      rewrite ?Z.shiftr_spec by lia;
      replace (c - i - 1 - n + 1) with (c - i - n) by lia;
      destruct (Z.eqb_spec n (c - i)) as [->|Hne]; try lia;
      rewrite ?Z.sub_diag;
      destruct (Z.testbit value 0); cbn [negb]; rewrite ?Hbit;
      rewrite ?orb_false_r, ?orb_true_r; reflexivity.
Qed.

(** X6.  [Crc32Reflect value c] holds the lowest [c] bits of [value] in reverse
    order, bit [n] of the result being bit [c - 1 - n] of [value], and has no
    other bit set. *)
Theorem Crc32Reflect_reverses_bits (value c n : Z) :
  0 <= c <= 32 ->
  Z.testbit (Crc32Reflect value c) n
  = (0 <=? n) && (n <? c) && Z.testbit value (c - 1 - n).
Proof.
  intros Hc. unfold Crc32Reflect.
  rewrite (Crc32Reflect_loop_bits c n) by lia.
  rewrite Z.bits_0. cbn [orb].
  replace (n <=? c - 1) with (n <? c) by (destruct (Z.ltb_spec n c); destruct (Z.leb_spec n (c - 1)); (reflexivity || lia)).
  reflexivity.
Qed.

Lemma Crc32Reflect_reverses_bits_witness :
  Z.testbit (Crc32Reflect 0xB0 8) 2
  = (0 <=? 2) && (2 <? 8) && Z.testbit 0xB0 (8 - 1 - 2).
Proof. apply (Crc32Reflect_reverses_bits 0xB0 8 2). lia. Defined.

(** X7.  Reflecting twice over the same width gives back the lowest [c] bits of
    the value. *)
Theorem Crc32Reflect_twice (value c : Z) :
  0 <= c <= 32 ->
  Crc32Reflect (Crc32Reflect value c) c = value mod 2 ^ c.
Proof.
  intros Hc. apply Z.bits_inj'. intros n Hn.
  unfold Crc32Reflect at 1. rewrite (Crc32Reflect_loop_bits c n) by lia.
  rewrite Z.bits_0. cbn [orb].
  unfold Crc32Reflect. rewrite (Crc32Reflect_loop_bits c (c - 1 - n)) by lia.
  rewrite Z.bits_0. cbn [orb].
  destruct (Z.leb_spec 0 n); [|lia]. cbn [andb].
  destruct (Z.leb_spec n (c - 1)); cbn [andb].
  - destruct (Z.leb_spec 0 (c - 1 - n)); [|lia].
    destruct (Z.leb_spec (c - 1 - n) (c - 1)); [|lia]. cbn [andb].
    replace (c - 1 - (c - 1 - n)) with n by lia.
    symmetry. apply Z.mod_pow2_bits_low. lia.
  - symmetry. apply Z.mod_pow2_bits_high. lia.
Qed.

Lemma Crc32Reflect_twice_witness :
  Crc32Reflect (Crc32Reflect 0x1B0 8) 8 = 0x1B0 mod 2 ^ 8.
Proof. apply (Crc32Reflect_twice 0x1B0 8). lia. Defined.

(** ** Pixel conversion *)

(** Where the byte at offset [j] comes from after [n] passes of the pixel
    loop started at [p]. *)
Lemma swap_loop_bytes n : forall p m j,
  byte_at
    (for_up n p 4
       (fun p m => let tmp := byte_at m p in
                   poke (poke m p (byte_at m (p + 2))) (p + 2) tmp) m) j
  = if (p <=? j) && (j <? p + 4 * Z.of_nat n)
    then if (j - p) mod 4 =? 0 then byte_at m (j + 2)
         else if (j - p) mod 4 =? 2 then byte_at m (j - 2)
         else byte_at m j
    else byte_at m j.
Proof.
  induction n as [|n IH]; intros p m j; cbn [for_up].
  - destruct (Z.leb_spec p j); destruct (Z.ltb_spec j (p + 4 * Z.of_nat 0));
      cbn [andb]; try reflexivity; lia.
  - rewrite IH. cbv zeta.
    replace ((j - (p + 4)) mod 4) with ((j - p) mod 4)
      by (replace (j - (p + 4)) with (j - p + (-1) * 4) by lia;
          now rewrite Z.mod_add by lia).
    pose proof (Z.mod_pos_bound (j - p) 4 ltac:(lia)) as Hm.
    pose proof (Z.div_mod (j - p) 4 ltac:(lia)) as Hd.
    rewrite !byte_at_poke, !u8_small by apply byte_at_range.
    destruct (Z.leb_spec (p + 4) j); destruct (Z.ltb_spec j (p + 4 + 4 * Z.of_nat n));
      destruct (Z.leb_spec p j); destruct (Z.ltb_spec j (p + 4 * Z.of_nat (S n)));
      cbn [andb]; try lia;
      destruct (Z.eqb_spec ((j - p) mod 4) 0);
      destruct (Z.eqb_spec ((j - p) mod 4) 2);
      destruct (Z.eqb_spec (j + 2) (p + 2)); destruct (Z.eqb_spec (j + 2) p);
      destruct (Z.eqb_spec (j - 2) (p + 2)); destruct (Z.eqb_spec (j - 2) p);
      destruct (Z.eqb_spec j (p + 2)); destruct (Z.eqb_spec j p);
      try lia; try reflexivity; subst;
      try (f_equal; lia).
Qed.

Lemma swap_loop_outside n : forall p m j,
  j < p \/ p + 4 * Z.of_nat n <= j ->
  for_up n p 4
    (fun p m => let tmp := byte_at m p in
                poke (poke m p (byte_at m (p + 2))) (p + 2) tmp) m j
  = m j.
Proof.
  induction n as [|n IH]; intros p m j Hj; cbn [for_up]; [reflexivity|].
  rewrite IH by lia. cbv zeta. unfold poke.
  destruct (Z.eqb_spec j (p + 2)); [lia|].
  destruct (Z.eqb_spec j p); [lia | reflexivity].
Qed.

(** X8.  The conversion loop over [k] four-byte pixels exchanges the first and
    third byte of every pixel, leaves the second and fourth and everything
    outside the pixel data alone, and ends with the cursor behind the
    data. *)
Theorem swap_channels_exchanges (data : stream) (dataPos k : Z) :
  0 <= k -> dataPos + 4 * k < 2 ^ 32 -> 0 <= dataPos ->
  let '(data', dataPos') := swap_channels data dataPos (dataPos + 4 * k) in
  dataPos' = dataPos + 4 * k
  /\ (forall q, 0 <= q < k ->
        byte_at data' (dataPos + 4 * q) = byte_at data (dataPos + 4 * q + 2)
        /\ byte_at data' (dataPos + 4 * q + 1) = byte_at data (dataPos + 4 * q + 1)
        /\ byte_at data' (dataPos + 4 * q + 2) = byte_at data (dataPos + 4 * q)
        /\ byte_at data' (dataPos + 4 * q + 3) = byte_at data (dataPos + 4 * q + 3))
  /\ (forall j, j < dataPos \/ dataPos + 4 * k <= j -> data' j = data j).
Proof.
  intros Hk Hend Hpos. unfold swap_channels.
  replace ((dataPos + 4 * k - dataPos + 3) / 4) with k
    by (replace (dataPos + 4 * k - dataPos + 3) with (3 + k * 4) by lia;
        rewrite Z.div_add by lia; reflexivity).
  rewrite Z2Nat.id by lia.
  split; [apply u32_small; split; [lia | exact Hend]|]. split.
  - intros q Hq. rewrite !swap_loop_bytes, Z2Nat.id by lia.
    assert (M : forall r, 0 <= r < 4 -> (dataPos + 4 * q + r - dataPos) mod 4 = r).
    { intros r Hr. replace (dataPos + 4 * q + r - dataPos) with (r + q * 4) by lia.
      rewrite Z.mod_add by lia. apply Z.mod_small. lia. }
    assert (M0 : (dataPos + 4 * q - dataPos) mod 4 = 0)
      by (rewrite <- (M 0) by lia; f_equal; lia).
    rewrite M0, !M by lia.
    repeat match goal with
           | |- context [?a <=? ?b] => destruct (Z.leb_spec a b); try lia
           | |- context [?a <? ?b] => destruct (Z.ltb_spec a b); try lia
           end.
    cbn [andb Z.eqb Pos.eqb].
    repeat split; f_equal; lia.
  - intros j Hj. apply swap_loop_outside. rewrite Z2Nat.id by lia. exact Hj.
Qed.

Lemma swap_channels_exchanges_witness :
  let data := stream_of_list [10; 11; 12; 13; 20; 21; 22; 23] in
  let '(data', dataPos') := swap_channels data 0 (0 + 4 * 2) in
  dataPos' = 0 + 4 * 2
  /\ (forall q, 0 <= q < 2 ->
        byte_at data' (0 + 4 * q) = byte_at data (0 + 4 * q + 2)
        /\ byte_at data' (0 + 4 * q + 1) = byte_at data (0 + 4 * q + 1)
        /\ byte_at data' (0 + 4 * q + 2) = byte_at data (0 + 4 * q)
        /\ byte_at data' (0 + 4 * q + 3) = byte_at data (0 + 4 * q + 3))
  /\ (forall j, j < 0 \/ 0 + 4 * 2 <= j -> data' j = data j).
Proof.
  apply (swap_channels_exchanges (stream_of_list [10; 11; 12; 13; 20; 21; 22; 23]) 0 2).
  - lia.
  - reflexivity.
  - lia.
Defined.

(** X9.  Converting the same pixel data twice gives back every byte: the
    exchange is its own inverse. *)
Theorem swap_channels_twice (data : stream) (dataPos k : Z) :
  0 <= k -> dataPos + 4 * k < 2 ^ 32 -> 0 <= dataPos ->
  forall j,
    byte_at (fst (swap_channels (fst (swap_channels data dataPos (dataPos + 4 * k)))
                    dataPos (dataPos + 4 * k))) j
    = byte_at data j.
Proof.
  intros Hk _ _ j. unfold swap_channels. cbn [fst].
  replace ((dataPos + 4 * k - dataPos + 3) / 4) with k
    by (replace (dataPos + 4 * k - dataPos + 3) with (3 + k * 4) by lia;
        rewrite Z.div_add by lia; reflexivity).
  rewrite !swap_loop_bytes, Z2Nat.id by lia.
  pose proof (Z.mod_pos_bound (j - dataPos) 4 ltac:(lia)) as Hm.
  pose proof (Z.div_mod (j - dataPos) 4 ltac:(lia)) as Hd.
  replace ((j + 2 - dataPos) mod 4) with ((j - dataPos + 2) mod 4) by (f_equal; lia).
  replace ((j - 2 - dataPos) mod 4) with ((j - dataPos - 2) mod 4) by (f_equal; lia).
  destruct (Z.leb_spec dataPos j); destruct (Z.ltb_spec j (dataPos + 4 * k));
    cbn [andb]; try reflexivity.
  destruct (Z.eqb_spec ((j - dataPos) mod 4) 0) as [E0|N0].
  - assert (E : (j - dataPos + 2) mod 4 = 2).
    { rewrite Z.add_mod, E0 by lia. reflexivity. }
    rewrite E. cbn [Z.eqb Pos.eqb].
    destruct (Z.leb_spec dataPos (j + 2)); [|lia].
    destruct (Z.ltb_spec (j + 2) (dataPos + 4 * k)); [|lia].
    cbn [andb]. f_equal. lia.
  - destruct (Z.eqb_spec ((j - dataPos) mod 4) 2) as [E2|N2]; [|reflexivity].
    assert (E : (j - dataPos - 2) mod 4 = 0).
    { rewrite Zminus_mod, E2. reflexivity. }
    rewrite E. cbn [Z.eqb].
    destruct (Z.leb_spec dataPos (j - 2)); [|lia].
    destruct (Z.ltb_spec (j - 2) (dataPos + 4 * k)); [|lia].
    cbn [andb]. f_equal. lia.
Qed.

Lemma swap_channels_twice_witness :
  byte_at (fst (swap_channels
                  (fst (swap_channels (stream_of_list [10; 11; 12; 13]) 0 (0 + 4 * 1)))
                  0 (0 + 4 * 1))) 2
  = byte_at (stream_of_list [10; 11; 12; 13]) 2.
Proof.
  apply (swap_channels_twice (stream_of_list [10; 11; 12; 13]) 0 1).
  - lia.
  - reflexivity.
  - lia.
Defined.

(** ** Pending images and the sanity checks of [_Compile] *)

(** X10.  Submitting an image keeps the pending images in order: the new
    pre-image goes to the end of the list with the pixel bytes copied, it
    names the record added for it, and the running maxima cover it and all
    earlier ones. *)
Theorem RMakeImage_keeps_pending_ok
    (r : Renderer) (w h oX oY : Z) (bytes : stream) :
  _contextSet r = false ->
  Z.of_nat (length (_atlasImages r)) < 2 ^ 32 ->
  pending_ok r ->
  exists r' ix,
    RMakeImage r w h oX oY bytes = Some (r', ix)
    /\ _preImages r'
       = _preImages r
         ++ [mkRPreImage w h (read_bytes bytes 0 (Z.to_nat (u32 (w * h * 4))))
               ix 0 0]
    /\ ix = Z.of_nat (length (_atlasImages r))
    /\ _tallest r' = Z.max (_tallest r) w
    /\ _widest r' = Z.max (_widest r) h
    /\ pending_ok r'.
Proof.
  intros Hc Hlen Hok. unfold RMakeImage. rewrite Hc.
  rewrite (u32_small (Z.of_nat (length (_atlasImages r))))
    by (split; [lia | exact Hlen]).
  do 2 eexists. split; [reflexivity|]. cbn.
  repeat (split; [reflexivity|]).
  unfold pending_ok. cbn. apply Forall_app. split.
  - eapply Forall_impl; [|exact Hok].
    intros p ((a & Ha & Hw & Hh) & Ht & Hx). unfold pre_image_ok. cbn.
    split; [|lia]. exists a. split; [|auto].
    rewrite nth_error_app1; [exact Ha|]. apply nth_error_Some. congruence.
  - constructor; [|constructor]. unfold pre_image_ok. cbn.
    split; [|lia]. exists (mkRAtlasImage 0 0 0 w h oX oY).
    split; [|split; reflexivity].
    rewrite Nat2Z.id, nth_error_app2, Nat.sub_diag by lia. reflexivity.
Qed.

Lemma RMakeImage_keeps_pending_ok_witness :
  exists r' ix,
    RMakeImage (RInit renderer_start) 2 3 1 1 sample_pixels = Some (r', ix)
    /\ _preImages r'
       = _preImages (RInit renderer_start)
         ++ [mkRPreImage 2 3
               (read_bytes sample_pixels 0 (Z.to_nat (u32 (2 * 3 * 4)))) ix 0 0]
    /\ ix = Z.of_nat (length (_atlasImages (RInit renderer_start)))
    /\ _tallest r' = Z.max (_tallest (RInit renderer_start)) 2
    /\ _widest r' = Z.max (_widest (RInit renderer_start)) 3
    /\ pending_ok r'.
Proof.
  apply (RMakeImage_keeps_pending_ok (RInit renderer_start) 2 3 1 1 sample_pixels).
  - reflexivity.
  - reflexivity.
  - constructor.
Defined.

(** X11.  One pending image wider or higher than the largest texture the backend
    takes makes [_Compile] give up at once: it returns [false] and leaves
    every table as it was, whatever the packer would do. *)
Theorem _Compile_rejects_oversize
    (find_best_packing : Z -> list (Z * Z) -> (Z * Z) * list (nat * option (Z * Z)))
    (pixel_malloc : Z -> Z -> bool)
    (r : Renderer) (firstAtlas : Z) (p : RPreImage) :
  pending_ok r ->
  In p (_preImages r) ->
  _maxTextureSize r < pre_w p \/ _maxTextureSize r < pre_h p ->
  _Compile find_best_packing pixel_malloc r firstAtlas = Some (r, false).
Proof.
  intros Hok Hin Hbig. unfold pending_ok in Hok. rewrite Forall_forall in Hok.
  destruct (Hok p Hin) as (_ & Ht & Hw).
  unfold _Compile. destruct (Z.to_nat (_maxTextures r + 1)); cbn [_Compile_rec];
    destruct (Z.gtb_spec (_tallest r) (_maxTextureSize r)); try reflexivity;
    destruct (Z.gtb_spec (_widest r) (_maxTextureSize r)); try reflexivity; lia.
Qed.

Lemma _Compile_rejects_oversize_witness :
  _Compile pack_one_per_bin malloc_always oversize_pending 0
  = Some (oversize_pending, false).
Proof.
  apply (_Compile_rejects_oversize pack_one_per_bin malloc_always
           oversize_pending 0
           (mkRPreImage 5 5 (repeat 0 100%nat) 0 0 0)).
  - constructor; [|constructor]. split; [|split; vm_compute; discriminate].
    exists (mkRAtlasImage 0 0 0 5 5 0 0). repeat split.
  - left. reflexivity.
  - left. reflexivity.
Defined.

(** ** What [_Compile] changes *)

Lemma length_place_images packed fa : forall imgs,
  length (place_images packed fa imgs) = length imgs.
Proof.
  induction packed as [|p packed IH]; intros imgs; cbn [place_images];
    [reflexivity|].
  rewrite IH. apply length_update_nth.
Qed.

Lemma map_update_nth_same {A B : Type} (g : A -> B) (f : A -> A) (l : list A) :
  (forall a, g (f a) = g a) ->
  forall i, map g (update_nth i f l) = map g l.
Proof.
  intros H. induction l as [|a l IH]; intros [|i]; cbn; try reflexivity.
  - now rewrite H.
  - now rewrite IH.
Qed.

Lemma origins_place_images packed fa : forall imgs,
  map (fun a => (originX a, originY a)) (place_images packed fa imgs)
  = map (fun a => (originX a, originY a)) imgs.
Proof.
  induction packed as [|p packed IH]; intros imgs; cbn [place_images];
    [reflexivity|].
  rewrite IH. apply map_update_nth_same. reflexivity.
Qed.

Lemma compile_frame_refl r : compile_frame r r.
Proof. unfold compile_frame. repeat split. Qed.

(** One level of the recursion, then by induction on the levels left. *)
Lemma _Compile_rec_returns pack alloc : forall fuel r firstAtlas,
  0 <= firstAtlas ->
  _maxTextures r < 2 ^ 32 - 1 ->
  _maxTextures r + 1 - firstAtlas <= Z.of_nat fuel ->
  exists r' ok,
    _Compile_rec pack alloc fuel r firstAtlas = Some (r', ok)
    /\ compile_frame r r'
    /\ (forall i, i < firstAtlas \/ _maxTextures r < i ->
                  _atlases r' i = _atlases r i).
Proof.
  induction fuel as [|fuel IH]; intros r fa Hfa Hmax Hfuel;
    cbn [_Compile_rec].
  - destruct (_tallest r >? _maxTextureSize r);
      [exists r, false; auto using compile_frame_refl|].
    destruct (_widest r >? _maxTextureSize r);
      [exists r, false; auto using compile_frame_refl|].
    destruct (Z.gtb_spec fa (_maxTextures r));
      [exists r, false; auto using compile_frame_refl | lia].
  - destruct (_tallest r >? _maxTextureSize r);
      [exists r, false; auto using compile_frame_refl|].
    destruct (_widest r >? _maxTextureSize r);
      [exists r, false; auto using compile_frame_refl|].
    destruct (Z.gtb_spec fa (_maxTextures r)) as [|Hle];
      [exists r, false; auto using compile_frame_refl|].
    destruct (_pixelCount r =? 0);
      [exists r, true; auto using compile_frame_refl|].
    destruct (pack (_maxTextureSize r) _) as [sz reports].
    destruct (run_callbacks (_preImages r) reports [] []) as [[pre packed] unpacked].
    destruct (negb (alloc fa _)).
    { do 2 eexists. split; [reflexivity|]. split.
      - unfold compile_frame. cbn. repeat split.
      - intros i _. reflexivity. }
    destruct unpacked as [|u us].
    + do 2 eexists. split; [reflexivity|]. split.
      * unfold compile_frame. cbn.
        repeat (split; [reflexivity|]).
        split; [apply origins_place_images|].
        intros i. destruct (i =? fa); reflexivity.
      * intros i Hi. cbn. destruct (Z.eqb_spec i fa); [lia | reflexivity].
    + rewrite (u32_small (fa + 1)) by lia.
      match goal with
      | |- context [_Compile_rec pack alloc fuel ?r2 _] =>
          destruct (IH r2 (fa + 1)) as (r' & ok & E & Hf & Hat);
            [lia | exact Hmax | cbn; lia |]
      end.
      exists r', ok. split; [exact E|].
      unfold compile_frame in *. cbn in Hf, Hat. cbn.
      destruct Hf as (F1 & F2 & F3 & F4 & F5 & F6 & F7 & F8 & F9 & F10 & F11 & F12).
      split; [|intros i Hi; rewrite Hat by lia;
               destruct (Z.eqb_spec i fa); [lia | reflexivity]].
      repeat (split; [assumption|]).
      split; [rewrite F11; apply origins_place_images|].
      intros i. rewrite F12. destruct (i =? fa); reflexivity.
Qed.

(** X12.  With fewer texture units than the atlas table has slots,
    [_Compile] always returns, for any packer and whether or not [malloc]
    finds room: each level moves on to the next atlas and the third sanity
    check ends the recursion.  It changes no scalar of the renderer, not
    the draw commands, not the number of image records or their origins,
    and no atlas slot outside [firstAtlas .. _maxTextures], so that every
    store to the table stays inside it. *)
Theorem _Compile_returns
    (find_best_packing : Z -> list (Z * Z) -> (Z * Z) * list (nat * option (Z * Z)))
    (pixel_malloc : Z -> Z -> bool)
    (r : Renderer) (firstAtlas : Z) :
  0 <= firstAtlas ->
  _maxTextures r < atlas_slots ->
  exists r' ok,
    _Compile find_best_packing pixel_malloc r firstAtlas = Some (r', ok)
    /\ compile_frame r r'
    /\ (forall i, i < firstAtlas \/ _maxTextures r < i ->
                  _atlases r' i = _atlases r i)
    /\ (forall i, atlas_slots <= i -> _atlases r' i = _atlases r i).
Proof.
  intros Hfa Hmax. unfold atlas_slots in *. unfold _Compile.
  destruct (_Compile_rec_returns find_best_packing pixel_malloc
              (Z.to_nat (_maxTextures r + 1)) r firstAtlas)
    as (r' & ok & E & Hf & Hat); [exact Hfa | lia | lia |].
  exists r', ok. split; [exact E|]. split; [exact Hf|]. split; [exact Hat|].
  intros i Hi. apply Hat. lia.
Qed.

Lemma _Compile_returns_witness :
  exists r' ok,
    _Compile pack_one_per_bin malloc_always two_pending 0 = Some (r', ok)
    /\ compile_frame two_pending r'
    /\ (forall i, i < 0 \/ _maxTextures two_pending < i ->
                  _atlases r' i = _atlases two_pending i)
    /\ (forall i, atlas_slots <= i -> _atlases r' i = _atlases two_pending i).
Proof.
  apply (_Compile_returns pack_one_per_bin malloc_always two_pending 0).
  - lia.
  - reflexivity.
Defined.

(** The two images of the sample go to the atlases 0 and 1. *)
Example _Compile_two_pending :
  option_map (fun x => (map atlasId (_atlasImages (fst x)), snd x))
    (_Compile pack_one_per_bin malloc_always two_pending 0)
  = Some ([0; 1], true).
Proof. reflexivity. Qed.

(** ** Drawing a whole image *)



(** ** The atlas bound after a frame *)

Lemma last_cons_default {A : Type} (l : list A) : forall b d d',
  last (b :: l) d = last (b :: l) d'.
Proof.
  induction l as [|c l IH]; intros b d d'; [reflexivity|].
  change (last (c :: l) d = last (c :: l) d'). apply IH.
Qed.

Lemma last_run {A : Type} (g : A -> Z) (a : Z) (l1 : list A) : forall l2 d,
  l1 <> [] -> Forall (fun x => g x = a) l1 ->
  last (map g (l1 ++ l2)) d = last (map g l2) a.
Proof.
  induction l1 as [|x l1 IH]; intros l2 d Hne Hall; [congruence|].
  inversion Hall as [|? ? Hx Hrest]; subst.
  destruct l1 as [|y l1].
  - cbn [app map]. destruct l2 as [|z l2]; [reflexivity|].
    cbn [map].
    change (last (g z :: map g l2) d = last (g z :: map g l2) (g x)).
    apply last_cons_default.
  - change (last (map g ((y :: l1) ++ l2)) d = last (map g l2) (g x)).
    apply IH; [discriminate | exact Hrest].
Qed.

Lemma RRenderFrame_loop_bound cmds :
  Z.of_nat (length cmds) < 2 ^ 32 ->
  Forall (fun c => 0 <= cmd_atlasId c < 2 ^ 32) cmds ->
  forall fuel drawn bound,
    0 <= drawn <= Z.of_nat (length cmds) ->
    Z.of_nat (length cmds) - drawn <= Z.of_nat fuel ->
    exists b bs,
      RRenderFrame_loop fuel cmds drawn bound = Some (b, bs)
      /\ u32 b = last (map cmd_atlasId (skipn (Z.to_nat drawn) cmds)) (u32 bound).
Proof.
  intros Hlen Hids.
  induction fuel as [|fuel IH]; intros drawn bound Hd Hfuel.
  - exists bound, []. cbn.
    destruct (Z.ltb_spec drawn (Z.of_nat (length cmds))); [lia|].
    rewrite skipn_all2 by lia. split; reflexivity.
  - cbn [RRenderFrame_loop].
    destruct (Z.ltb_spec drawn (Z.of_nat (length cmds))) as [Hlt|Hge].
    2:{ exists bound, []. rewrite skipn_all2 by lia. split; reflexivity. }
    destruct (nth_error cmds (Z.to_nat drawn)) as [c|] eqn:Hc.
    2:{ apply nth_error_None in Hc. lia. }
    assert (Hin : 0 <= cmd_atlasId c < 2 ^ 32).
    { rewrite Forall_forall in Hids. apply Hids.
      apply nth_error_In with (n := Z.to_nat drawn). exact Hc. }
    rewrite count_run_spec by lia.
    set (k := run_length (cmd_atlasId c) (skipn (Z.to_nat drawn) cmds)).
    assert (Hk1 : (1 <= k)%nat).
    { subst k. rewrite (skipn_nth_error _ _ _ Hc). cbn.
      rewrite Z.eqb_refl. lia. }
    assert (Hk2 : (k <= length cmds - Z.to_nat drawn)%nat).
    { subst k. etransitivity; [apply run_length_le|]. rewrite length_skipn. lia. }
    rewrite Z.add_0_l.
    rewrite (u32_small (drawn + Z.of_nat k)) by lia.
    set (bound' := if negb (u32 bound =? cmd_atlasId c)
                   then s32 (cmd_atlasId c) else bound).
    assert (Hb : u32 bound' = cmd_atlasId c).
    { subst bound'. destruct (Z.eqb_spec (u32 bound) (cmd_atlasId c)); cbn [negb];
        [assumption | apply u32_s32; exact Hin]. }
    destruct (IH (drawn + Z.of_nat k) bound') as (b & bs & E & Hlast); [lia | lia |].
    rewrite E. do 2 eexists. split; [reflexivity|].
    rewrite Hlast, Hb.
    replace (Z.to_nat (drawn + Z.of_nat k)) with (k + Z.to_nat drawn)%nat by lia.
    rewrite <- skipn_skipn.
    set (l := skipn (Z.to_nat drawn) cmds) in *.
    rewrite <- (firstn_skipn k l) at 2.
    symmetry. apply last_run.
    + intros Hnil. apply (f_equal (@length _)) in Hnil.
      rewrite length_firstn in Hnil. cbn in Hnil.
      subst l. rewrite length_skipn in Hnil. lia.
    + apply run_length_same.
Qed.

(** X15.  After [RRenderFrame] the bound atlas is the atlas of the last command
    of the frame, and a frame without commands leaves it as it was; nothing
    but [boundAtlas] changes. *)
Theorem RRenderFrame_bound_atlas (r : Renderer) :
  Z.of_nat (length (_drawCommands r)) < 2 ^ 32 ->
  Forall (fun c => 0 <= cmd_atlasId c < 2 ^ 32) (_drawCommands r) ->
  exists r' bs,
    RRenderFrame r = Some (r', bs)
    /\ r' = set_boundAtlas r (boundAtlas r')
    /\ u32 (boundAtlas r')
       = last (map cmd_atlasId (_drawCommands r)) (u32 (boundAtlas r)).
Proof.
  intros Hlen Hids.
  destruct (RRenderFrame_loop_bound (_drawCommands r) Hlen Hids
              (length (_drawCommands r)) 0 (boundAtlas r))
    as (b & bs & E & Hlast); [lia | lia |].
  exists (set_boundAtlas r b), bs. unfold RRenderFrame. rewrite E.
  split; [reflexivity|]. split; [reflexivity | exact Hlast].
Qed.

Lemma RRenderFrame_bound_atlas_witness :
  exists r' bs,
    RRenderFrame sample_frame = Some (r', bs)
    /\ r' = set_boundAtlas sample_frame (boundAtlas r')
    /\ u32 (boundAtlas r')
       = last (map cmd_atlasId (_drawCommands sample_frame))
           (u32 (boundAtlas sample_frame)).
Proof.
  apply (RRenderFrame_bound_atlas sample_frame).
  - reflexivity.
  - repeat constructor; vm_compute; discriminate.
Defined.

(** ** A frame drawn from one atlas *)

Lemma run_length_all a l :
  Forall (fun c => cmd_atlasId c = a) l -> run_length a l = length l.
Proof.
  induction 1 as [|c l Hc _ IH]; cbn [run_length length]; [reflexivity|].
  rewrite Hc, Z.eqb_refl, IH. reflexivity.
Qed.

(** X16.  When every command of a frame draws from the same atlas, the frame is
    flushed as one batch holding all of them, and the texture is bound for
    it only if another atlas was bound before. *)
Theorem RRenderFrame_single_atlas (r : Renderer) (a : Z) :
  _drawCommands r <> [] ->
  Z.of_nat (length (_drawCommands r)) < 2 ^ 32 ->
  0 <= a < 2 ^ 32 ->
  Forall (fun c => cmd_atlasId c = a) (_drawCommands r) ->
  exists b,
    RRenderFrame r
    = Some (set_boundAtlas r b,
            [mkRBatch 0 (Z.of_nat (length (_drawCommands r)))
               (negb (u32 (boundAtlas r) =? a))])
    /\ u32 b = a.
Proof.
  intros Hne Hlen Ha Hall. unfold RRenderFrame.
  destruct (_drawCommands r) as [|c cmds] eqn:Hcmds; [congruence|].
  set (l := c :: cmds) in *.
  assert (Hc : cmd_atlasId c = a) by (inversion Hall; assumption).
  change (length l) with (S (length cmds)) at 1.
  cbn [RRenderFrame_loop].
  destruct (Z.ltb_spec 0 (Z.of_nat (length l))) as [_|Hlt];
    [|subst l; cbn [length] in Hlt; lia].
  change (nth_error l (Z.to_nat 0)) with (Some c). cbv beta iota.
  rewrite count_run_spec; [|exact Hlen | lia | lia].
  change (skipn (Z.to_nat 0) l) with l.
  rewrite Hc, (run_length_all a l Hall), !Z.add_0_l.
  rewrite (u32_small (Z.of_nat (length l))) by lia.
  assert (Hend : forall fuel bound,
            RRenderFrame_loop fuel l (Z.of_nat (length l)) bound = Some (bound, [])).
  { intros [|fuel] bound; cbn [RRenderFrame_loop];
      rewrite Z.ltb_irrefl; reflexivity. }
  rewrite Hend. eexists. split; [reflexivity|].
  destruct (Z.eqb_spec (u32 (boundAtlas r)) a) as [Heq|_]; cbn [negb];
    [exact Heq | apply u32_s32; exact Ha].
Qed.

Lemma RRenderFrame_single_atlas_witness :
  exists b,
    RRenderFrame
      (set_drawCommands (RInit renderer_start)
         (map (fun x => mkRDrawCommand x 0 1 1 64 64 5 0 0) [0; 1; 2]))
    = Some (set_boundAtlas
              (set_drawCommands (RInit renderer_start)
                 (map (fun x => mkRDrawCommand x 0 1 1 64 64 5 0 0) [0; 1; 2])) b,
            [mkRBatch 0
               (Z.of_nat
                  (length
                     (_drawCommands
                        (set_drawCommands (RInit renderer_start)
                           (map (fun x => mkRDrawCommand x 0 1 1 64 64 5 0 0)
                              [0; 1; 2])))))
               (negb (u32 (boundAtlas
                             (set_drawCommands (RInit renderer_start)
                                (map (fun x => mkRDrawCommand x 0 1 1 64 64 5 0 0)
                                   [0; 1; 2]))) =? 5))])
    /\ u32 b = 5.
Proof.
  apply (RRenderFrame_single_atlas
           (set_drawCommands (RInit renderer_start)
              (map (fun x => mkRDrawCommand x 0 1 1 64 64 5 0 0) [0; 1; 2])) 5).
  - discriminate.
  - reflexivity.
  - lia.
  - repeat constructor.
Defined.

(** ** Placing the packed images *)

Lemma nth_error_update_nth {A : Type} (f : A -> A) (l : list A) : forall i j,
  nth_error (update_nth i f l) j
  = if Nat.eqb j i then option_map f (nth_error l j) else nth_error l j.
Proof.
  induction l as [|a l IH]; intros [|i] [|j]; cbn; try reflexivity.
  - destruct (Nat.eqb _ _); reflexivity.
  - apply IH.
Qed.

Lemma packed_of_update pre placed i p xy :
  nth_error pre i = Some p ->
  packed_of (update_nth i (fun _ => placed_image p xy) pre) placed
  = packed_of pre placed.
Proof.
  intros Hp. unfold packed_of. apply flat_map_ext. intros [j xy'].
  cbn [fst snd]. rewrite nth_error_update_nth.
  destruct (Nat.eqb_spec j i) as [->|]; [|reflexivity].
  rewrite Hp. reflexivity.
Qed.

(** A run of successful reports: [packed] receives the placed copies in
    report order and [unpacked] nothing. *)
Lemma run_callbacks_placed placed : forall pre packed unpacked,
  exists pre',
    run_callbacks pre (map (fun e => (fst e, Some (snd e))) placed) packed unpacked
    = (pre', packed ++ packed_of pre placed, unpacked)
    /\ length pre' = length pre.
Proof.
  induction placed as [|[i [x y]] placed IH]; intros pre packed unpacked.
  - exists pre. cbn. rewrite app_nil_r. auto.
  - cbn [map fst snd run_callbacks].
    unfold packed_of. cbn [flat_map fst snd]. fold (packed_of pre placed).
    destruct (nth_error pre i) as [p|] eqn:Hp.
    + destruct (IH (update_nth i (fun _ => mkRPreImage (pre_w p) (pre_h p)
                                               (pre_data p) (pre_imgIndex p) x y) pre)
                  (packed ++ [mkRPreImage (pre_w p) (pre_h p) (pre_data p)
                                (pre_imgIndex p) x y]) unpacked)
        as (pre' & E & L).
      exists pre'. rewrite E. split.
      * change (mkRPreImage (pre_w p) (pre_h p) (pre_data p) (pre_imgIndex p) x y)
          with (placed_image p (x, y)).
        rewrite (packed_of_update pre placed i p (x, y) Hp), <- app_assoc.
        reflexivity.
      * rewrite L. apply length_update_nth.
    + destruct (IH pre packed unpacked) as (pre' & E & L).
      exists pre'. rewrite E. auto.
Qed.

(** With pairwise different targets, the placement loop rewrites exactly
    the records the packed images name. *)
Lemma place_images_spec fa packed : forall imgs,
  NoDup (map (fun p => Z.to_nat (pre_imgIndex p)) packed) ->
  forall j,
    nth_error (place_images packed fa imgs) j
    = match find (fun p => Nat.eqb (Z.to_nat (pre_imgIndex p)) j) packed with
      | Some p =>
          option_map (fun a => mkRAtlasImage fa (pre_x p) (pre_y p) (pre_w p)
                                 (pre_h p) (originX a) (originY a))
            (nth_error imgs j)
      | None => nth_error imgs j
      end.
Proof.
  induction packed as [|p packed IH]; intros imgs Hnd j; cbn [place_images find map];
    [reflexivity|].
  inversion Hnd as [|? ? Hnotin Hnd']; subst.
  rewrite IH by exact Hnd'. rewrite nth_error_update_nth.
  destruct (Nat.eqb_spec (Z.to_nat (pre_imgIndex p)) j) as [Heq|Hne].
  - assert (Hfind : find (fun q => Nat.eqb (Z.to_nat (pre_imgIndex q)) j) packed = None).
    { destruct (find _ packed) as [q|] eqn:Hq; [|reflexivity].
      apply find_some in Hq. destruct Hq as [Hin Hq].
      apply Nat.eqb_eq in Hq. exfalso. apply Hnotin. rewrite Heq, <- Hq.
      apply (in_map (fun p => Z.to_nat (pre_imgIndex p))). exact Hin. }
    rewrite Hfind. destruct (Nat.eqb_spec j (Z.to_nat (pre_imgIndex p))); [|congruence].
    reflexivity.
  - destruct (Nat.eqb_spec j (Z.to_nat (pre_imgIndex p))); [congruence|].
    reflexivity.
Qed.

Lemma find_unique {A : Type} (g : A -> nat) (l : list A) (x : A) :
  NoDup (map g l) -> In x l ->
  find (fun y => Nat.eqb (g y) (g x)) l = Some x.
Proof.
  induction l as [|a l IH]; intros Hnd Hin; [contradiction|].
  inversion Hnd as [|? ? Hnotin Hnd']; subst. cbn [find].
  destruct Hin as [->|Hin].
  - rewrite Nat.eqb_refl. reflexivity.
  - destruct (Nat.eqb_spec (g a) (g x)) as [Heq|_]; [|apply IH; assumption].
    exfalso. apply Hnotin. rewrite Heq. apply in_map. exact Hin.
Qed.

Lemma NoDup_packed_of pre placed :
  NoDup (map fst placed) ->
  NoDup (map (fun p => Z.to_nat (pre_imgIndex p)) pre) ->
  NoDup (map (fun p => Z.to_nat (pre_imgIndex p)) (packed_of pre placed)).
Proof.
  intros Hi Hp. induction placed as [|[i xy] placed IH]; [constructor|].
  cbn [map fst] in Hi. inversion Hi as [|? ? Hnotin Hi']; subst.
  unfold packed_of. cbn [flat_map fst snd]. fold (packed_of pre placed).
  destruct (nth_error pre i) as [p|] eqn:Hpi; [|apply IH; exact Hi'].
  cbn [app map]. constructor; [|apply IH; exact Hi'].
  intros Hin. apply in_map_iff in Hin. destruct Hin as (q & Hq & Hin).
  unfold packed_of in Hin. apply in_flat_map in Hin.
  destruct Hin as ([i' xy'] & Hin' & Hq').
  cbn [fst snd] in Hq'.
  destruct (nth_error pre i') as [p'|] eqn:Hpi'; [|contradiction].
  destruct Hq' as [<-|[]]. cbn in Hq.
  assert (i' = i).
  { assert (Hl : (i < length pre)%nat) by (apply nth_error_Some; congruence).
    assert (Hl' : (i' < length pre)%nat) by (apply nth_error_Some; congruence).
    rewrite NoDup_nth_error in Hp. apply Hp.
    - rewrite length_map. exact Hl'.
    - rewrite !nth_error_map, Hpi, Hpi'. cbn. congruence. }
  subst i'. apply Hnotin. apply (in_map fst) in Hin'. exact Hin'.
Qed.

(** X13.  One atlas of the table, for a packer that places every rectangle:
    [_Compile] then ends at this atlas and returns what [malloc] answered.
    With a pixel buffer it returns [true], records the size of the bin in
    the atlas slot, and gives every placed image the atlas id, the reported
    position and the pre-image's size, keeping the origin; no other image
    record changes.  Without one it returns [false] and no image record and
    no atlas slot has changed.  (The packer reports every rectangle once,
    and the pending images name different records.) *)
Theorem _Compile_places_all
    (find_best_packing : Z -> list (Z * Z) -> (Z * Z) * list (nat * option (Z * Z)))
    (pixel_malloc : Z -> Z -> bool)
    (r : Renderer) (firstAtlas : Z) (size : Z * Z) (placed : list (nat * (Z * Z))) :
  _tallest r <= _maxTextureSize r ->
  _widest r <= _maxTextureSize r ->
  0 <= firstAtlas < atlas_slots ->
  firstAtlas <= _maxTextures r ->
  _pixelCount r <> 0 ->
  find_best_packing (_maxTextureSize r)
    (map (fun p => (pre_w p, pre_h p)) (_preImages r))
  = (size, map (fun e => (fst e, Some (snd e))) placed) ->
  NoDup (map fst placed) ->
  NoDup (map (fun p => Z.to_nat (pre_imgIndex p)) (_preImages r)) ->
  let buffer := pixel_malloc firstAtlas (u32 (fst size * snd size * 4)) in
  exists r',
    _Compile find_best_packing pixel_malloc r firstAtlas = Some (r', buffer)
    /\ if buffer
       then
         _atlases r' firstAtlas
         = mkRAtlas (glTex (_atlases r firstAtlas)) (fst size) (snd size)
         /\ (forall i xy p,
               In (i, xy) placed -> nth_error (_preImages r) i = Some p ->
               nth_error (_atlasImages r') (Z.to_nat (pre_imgIndex p))
               = option_map
                   (fun a => mkRAtlasImage firstAtlas (fst xy) (snd xy) (pre_w p)
                               (pre_h p) (originX a) (originY a))
                   (nth_error (_atlasImages r) (Z.to_nat (pre_imgIndex p))))
         /\ (forall j,
               (forall i xy p, In (i, xy) placed ->
                               nth_error (_preImages r) i = Some p ->
                               Z.to_nat (pre_imgIndex p) <> j) ->
               nth_error (_atlasImages r') j = nth_error (_atlasImages r) j)
       else
         _atlasImages r' = _atlasImages r
         /\ (forall i, _atlases r' i = _atlases r i).
Proof.
  intros Ht Hw Hslot Hfa Hpix Hpack Hnd Hpre buffer.
  pose proof (NoDup_packed_of _ _ Hnd Hpre) as Hnd'.
  destruct (run_callbacks_placed placed (_preImages r) [] []) as (pre' & Hrun & _).
  cbn [app] in Hrun.
  assert (E : forall fuel,
            _Compile_rec find_best_packing pixel_malloc fuel r firstAtlas
            = if buffer
              then Some (mkRenderer (_drawCommands r) pre'
                           (place_images (packed_of (_preImages r) placed)
                              firstAtlas (_atlasImages r))
                           (fun i => if i =? firstAtlas
                                     then mkRAtlas (glTex (_atlases r i)) (fst size)
                                            (snd size)
                                     else _atlases r i)
                           (boundAtlas r) (_tallest r) (_widest r) (_pixelCount r)
                           (_colourOutsideRoom r) (_roomBGColour r) (_contextSet r)
                           (_maxTextures r) (_maxTextureSize r), true)
              else Some (mkRenderer (_drawCommands r) pre' (_atlasImages r)
                           (_atlases r)
                           (boundAtlas r) (_tallest r) (_widest r) (_pixelCount r)
                           (_colourOutsideRoom r) (_roomBGColour r) (_contextSet r)
                           (_maxTextures r) (_maxTextureSize r), false)).
  { intros [|fuel']; cbn [_Compile_rec];
      (destruct (Z.gtb_spec (_tallest r) (_maxTextureSize r)); [lia|]);
      (destruct (Z.gtb_spec (_widest r) (_maxTextureSize r)); [lia|]);
      (destruct (Z.gtb_spec firstAtlas (_maxTextures r)); [lia|]);
      (destruct (Z.eqb_spec (_pixelCount r) 0); [contradiction|]);
      rewrite Hpack, Hrun; cbv beta iota; fold buffer;
      destruct buffer; reflexivity. }
  unfold _Compile. rewrite E. destruct buffer.
  2:{ eexists. split; [reflexivity|]. cbn. auto. }
  eexists. split; [reflexivity|]. cbn [_atlases _atlasImages].
  split; [rewrite Z.eqb_refl; reflexivity|]. split.
  - intros i xy p Hin Hp. rewrite place_images_spec by exact Hnd'.
    assert (Hq : In (placed_image p xy) (packed_of (_preImages r) placed)).
    { unfold packed_of. apply in_flat_map. exists (i, xy). split; [exact Hin|].
      cbn [fst snd]. rewrite Hp. left. reflexivity. }
    pose proof (find_unique (fun p => Z.to_nat (pre_imgIndex p)) _ _ Hnd' Hq) as Hf.
    cbn [placed_image pre_imgIndex] in Hf. rewrite Hf. reflexivity.
  - intros j Hj. rewrite place_images_spec by exact Hnd'.
    destruct (find _ (packed_of (_preImages r) placed)) as [q|] eqn:Hq;
      [|reflexivity].
    apply find_some in Hq. destruct Hq as [Hin Hq]. apply Nat.eqb_eq in Hq.
    unfold packed_of in Hin. apply in_flat_map in Hin.
    destruct Hin as ([i xy] & Hin & Hq'). cbn [fst snd] in Hq'.
    destruct (nth_error (_preImages r) i) as [p|] eqn:Hp; [|contradiction].
    destruct Hq' as [<-|[]]. cbn in Hq.
    exfalso. exact (Hj i xy p Hin Hp Hq).
Qed.

Lemma _Compile_places_all_witness :
  let buffer := malloc_always 0 (u32 (fst (4, 4) * snd (4, 4) * 4)) in
  exists r',
    _Compile pack_one_per_bin malloc_always one_pending 0 = Some (r', buffer)
    /\ if buffer
       then
         _atlases r' 0
         = mkRAtlas (glTex (_atlases one_pending 0)) (fst (4, 4)) (snd (4, 4))
         /\ (forall i xy p,
               In (i, xy) [(O, (0, 0))] ->
               nth_error (_preImages one_pending) i = Some p ->
               nth_error (_atlasImages r') (Z.to_nat (pre_imgIndex p))
               = option_map
                   (fun a => mkRAtlasImage 0 (fst xy) (snd xy) (pre_w p)
                               (pre_h p) (originX a) (originY a))
                   (nth_error (_atlasImages one_pending)
                      (Z.to_nat (pre_imgIndex p))))
         /\ (forall j,
               (forall i xy p, In (i, xy) [(O, (0, 0))] ->
                               nth_error (_preImages one_pending) i = Some p ->
                               Z.to_nat (pre_imgIndex p) <> j) ->
               nth_error (_atlasImages r') j
               = nth_error (_atlasImages one_pending) j)
       else
         _atlasImages r' = _atlasImages one_pending
         /\ (forall i, _atlases r' i = _atlases one_pending i).
Proof.
  apply (_Compile_places_all pack_one_per_bin malloc_always one_pending 0 (4, 4)
           [(O, (0, 0))]).
  - vm_compute. discriminate.
  - vm_compute. discriminate.
  - unfold atlas_slots. lia.
  - vm_compute. discriminate.
  - vm_compute. discriminate.
  - reflexivity.
  - repeat constructor. intros [].
  - repeat constructor. intros [].
Defined.

(** The image of the sample ends up in atlas 0, whose slot records the 4x4
    bin; when [malloc] finds no room the call fails and the slot stays
    empty. *)
Example _Compile_sample :
  option_map (fun x => (_atlasImages (fst x), _atlases (fst x) 0, snd x))
    (_Compile pack_one_per_bin malloc_always one_pending 0)
  = Some ([mkRAtlasImage 0 0 0 4 4 1 2], mkRAtlas 0 4 4, true)
  /\ option_map (fun x => (_atlases (fst x) 0, snd x))
       (_Compile pack_one_per_bin (fun _ _ => false) one_pending 0)
     = Some (mkRAtlas 0 0 0, false).
Proof. split; reflexivity. Qed.

(** ** What a completed load guarantees *)

Lemma completes_with_bind {A B : Type} (P : B -> Prop) (m : flow A)
    (k : A -> flow B) :
  (forall a, completes_with P (k a)) -> completes_with P (bind m k).
Proof.
  unfold completes_with. intros Hk b. destruct m as [c|a| |]; cbn [bind];
    try discriminate. apply Hk.
Qed.

Ltac run_to_end :=
  repeat match goal with
         | |- completes_with _ (bind _ _) => apply completes_with_bind; intros
         | |- completes_with _ (if ?b then _ else _) => destruct b eqn:?
         | |- completes_with _ (match ?x with _ => _ end) => destruct x
         | |- completes_with _ (Return _) => intros ? ?; discriminate
         | |- completes_with _ Abort => intros ? ?; discriminate
         | |- completes_with _ Diverge => intros ? ?; discriminate
         end.

Lemma detect_version_values buffer size :
  let v := fst (fst (detect_version buffer size)) in
  v = 800 \/ v = 810 \/ v = 0.
Proof.
  unfold detect_version. destruct (ReadDword buffer 2000000) as [d pos].
  destruct (d =? 1234321); [left; reflexivity|].
  destruct (scan_81 1024 buffer 3800004) as [p|]; [|right; right; reflexivity].
  destruct (Decrypt81 buffer (u32 size) p). right; left; reflexivity.
Qed.

Section CompletedLoad.

Variable zinflate : list Z -> option (list Z).
Variable Action : Type.
Variable readAction : stream -> Z -> option (Action * Z).
Variable compileAction : Action -> bool.
Variable compileCode : bool * list Z -> bool.
Variable event_fuel : nat.

Lemma load_blocks_complete version buffer pos rend l :
  load_blocks zinflate Action readAction compileAction compileCode
    event_fuel version buffer pos rend = Continue l ->
  ld_version Action l = version
  /\ compile_scripts compileCode (w_code (ld_world Action l)) (ld_scripts Action l) = true
  /\ compile_timelines Action compileAction (ld_timelines Action l) = true
  /\ compile_objects Action compileAction (ld_objects Action l) = true
  /\ compile_triggers compileCode (w_code (ld_world Action l)) (ld_triggers Action l) = true
  /\ compile_rooms compileCode (w_code (ld_world Action l)) (ld_rooms Action l) = true.
Proof.
  revert l.
  change (completes_with
            (fun l =>
               ld_version Action l = version
               /\ compile_scripts compileCode (w_code (ld_world Action l))
                    (ld_scripts Action l) = true
               /\ compile_timelines Action compileAction (ld_timelines Action l) = true
               /\ compile_objects Action compileAction (ld_objects Action l) = true
               /\ compile_triggers compileCode (w_code (ld_world Action l))
                    (ld_triggers Action l) = true
               /\ compile_rooms compileCode (w_code (ld_world Action l))
                    (ld_rooms Action l) = true)
            (load_blocks zinflate Action readAction compileAction compileCode
               event_fuel version buffer pos rend)).
  unfold load_blocks. run_to_end.
  intros ? [= <-]. cbn.
  repeat match goal with
         | E : negb ?b = false |- _ => apply negb_false_iff in E
         end.
  repeat split; assumption.
Qed.

End CompletedLoad.

(** X17.  When [GameLoad] runs to its final [return true], both managers were
    initialised, the file could be opened and buffered, it is at least
    0x1B bytes long and starts with "MZ", its version was recognised as
    8.0 or 8.1, and every script, timeline, object event, trigger and room
    creation code that belongs to an existing record compiled. *)
Theorem GameLoad_complete
    (zinflate : list Z -> option (list Z)) (Action : Type)
    (readAction : stream -> Z -> option (Action * Z))
    (compileAction : Action -> bool) (compileCode : bool * list Z -> bool)
    (event_fuel : nat) (host : Host) (rend : Renderer) (l : Loaded Action) :
  GameLoad zinflate Action readAction compileAction compileCode event_fuel
    host rend = Continue l ->
  actions_init host = true /\ code_init host = true /\ buffer_alloc host = true
  /\ (exists file,
        game_file host = Some file
        /\ 0x1B <= u32 (file_size file)
        /\ byte_at (file_bytes file) 0 = 77
        /\ byte_at (file_bytes file) 1 = 90
        /\ ld_version Action l
           = fst (fst (detect_version (file_bytes file) (file_size file))))
  /\ (ld_version Action l = 800 \/ ld_version Action l = 810)
  /\ compile_scripts compileCode (w_code (ld_world Action l)) (ld_scripts Action l) = true
  /\ compile_timelines Action compileAction (ld_timelines Action l) = true
  /\ compile_objects Action compileAction (ld_objects Action l) = true
  /\ compile_triggers compileCode (w_code (ld_world Action l)) (ld_triggers Action l) = true
  /\ compile_rooms compileCode (w_code (ld_world Action l)) (ld_rooms Action l) = true.
Proof.
  unfold GameLoad. intros H.
  destruct (actions_init host); [|discriminate]. cbn [negb] in H.
  destruct (code_init host); [|discriminate]. cbn [negb] in H.
  destruct (game_file host) as [file|]; [|discriminate].
  destruct (buffer_alloc host); [|discriminate]. cbn [negb] in H.
  destruct (Z.ltb_spec (u32 (file_size file)) 0x1B) as [|Hsize]; [discriminate|].
  destruct (Z.eqb_spec (byte_at (file_bytes file) 0) 77) as [HM|];
    [|discriminate].
  destruct (Z.eqb_spec (byte_at (file_bytes file) 1) 90) as [HZ|];
    [|discriminate].
  cbn [andb negb] in H.
  pose proof (detect_version_values (file_bytes file) (file_size file)) as Hv.
  destruct (detect_version (file_bytes file) (file_size file))
    as [[version buffer] pos] eqn:Hdv.
  cbn [fst] in Hv.
  destruct (Z.eqb_spec version 0) as [|Hnz]; [discriminate|].
  apply load_blocks_complete in H.
  destruct H as (Hver & Hc).
  repeat (split; [reflexivity|]).
  split; [exists file; rewrite Hdv; cbn [fst]; repeat split; auto|].
  split; [rewrite Hver; destruct Hv as [?|[?|?]]; auto; contradiction|].
  exact Hc.
Qed.

Lemma GameLoad_complete_witness :
  exists l,
    GameLoad toy_inflate unit (fun _ _ => None) (fun _ => true) (fun _ => true)
      16 (toy_host small_game_file) (RInit renderer_start) = Continue l
    /\ actions_init (toy_host small_game_file) = true
    /\ code_init (toy_host small_game_file) = true
    /\ buffer_alloc (toy_host small_game_file) = true
    /\ (exists file,
          game_file (toy_host small_game_file) = Some file
          /\ 0x1B <= u32 (file_size file)
          /\ byte_at (file_bytes file) 0 = 77
          /\ byte_at (file_bytes file) 1 = 90
          /\ ld_version unit l
             = fst (fst (detect_version (file_bytes file) (file_size file))))
    /\ (ld_version unit l = 800 \/ ld_version unit l = 810)
    /\ compile_scripts (fun _ => true) (w_code (ld_world unit l)) (ld_scripts unit l)
       = true
    /\ compile_timelines unit (fun _ => true) (ld_timelines unit l) = true
    /\ compile_objects unit (fun _ => true) (ld_objects unit l) = true
    /\ compile_triggers (fun _ => true) (w_code (ld_world unit l))
         (ld_triggers unit l) = true
    /\ compile_rooms (fun _ => true) (w_code (ld_world unit l)) (ld_rooms unit l)
       = true.
Proof.
  assert (H : match GameLoad toy_inflate unit (fun _ _ => None) (fun _ => true)
                      (fun _ => true) 16 (toy_host small_game_file)
                      (RInit renderer_start) with
              | Continue _ => True
              | _ => False
              end) by (vm_compute; exact I).
  destruct (GameLoad toy_inflate unit (fun _ _ => None) (fun _ => true)
              (fun _ => true) 16 (toy_host small_game_file)
              (RInit renderer_start)) as [c|l| |] eqn:E; try contradiction.
  exists l. split; [reflexivity|].
  exact (GameLoad_complete toy_inflate unit (fun _ _ => None) (fun _ => true)
           (fun _ => true) 16 (toy_host small_game_file) (RInit renderer_start)
           l E).
Defined.

(** ** [GameLoad] and the abort of [RMakeImage] *)

Lemma no_abort_bind {A B : Type} (Q : A -> Prop) (Q' : B -> Prop)
    (m : flow A) (k : A -> flow B) :
  no_abort Q m -> (forall a, Q a -> no_abort Q' (k a)) -> no_abort Q' (bind m k).
Proof. destruct m as [c|a| |]; cbn; auto. Qed.

Lemma repeat_flow_no_abort {St : Type} (Q : St -> Prop) (step : St -> flow St) n :
  (forall s, Q s -> no_abort Q (step s)) ->
  forall s, Q s -> no_abort Q (repeat_flow n step s).
Proof.
  intros Hstep. induction n as [|n IH]; intros s Hs; cbn [repeat_flow].
  - exact Hs.
  - apply (no_abort_bind Q); auto.
Qed.

Ltac step_no_abort :=
  repeat match goal with
         | H : _contextSet ?r = false
           |- no_abort _ (match RMakeImage ?r ?w ?h ?ox ?oy ?b with _ => _ end) =>
             let r' := fresh "rend" in
             let E := fresh "E" in
             let C := fresh "Hc" in
             destruct (RMakeImage_accepts r w h ox oy b H) as (r' & E & _ & C & _);
             rewrite E
         | |- no_abort _ (match ?x with _ => _ end) =>
             lazymatch x with
             | RMakeImage _ _ _ _ _ _ => fail
             | _ => destruct x
             end
         | |- no_abort _ (if ?b then _ else _) => destruct b
         | |- no_abort _ (Return _) => exact I
         | |- no_abort _ Diverge => exact I
         | |- no_abort _ (Continue _) => cbn; first [assumption | exact I]
         end.

Section NoAbort.

Variable zinflate : list Z -> option (list Z).
Variable Action : Type.
Variable readAction : stream -> Z -> option (Action * Z).
Variable compileAction : Action -> bool.
Variable compileCode : bool * list Z -> bool.
Variable event_fuel : nat.

Lemma read_settings_no_abort version data :
  no_abort (fun _ => True) (read_settings zinflate version data).
Proof.
  unfold read_settings.
  repeat first [ progress step_no_abort
               | apply (no_abort_bind (fun _ => True)); [|intros ? _] ].
Qed.

Lemma load_extensions_no_abort buffer pos data :
  no_abort (fun _ => True) (load_extensions zinflate buffer pos data).
Proof.
  unfold load_extensions. step_no_abort.
  apply repeat_flow_no_abort; [|exact I].
  intros [[[b p] d] exts] _. unfold load_extension. step_no_abort.
Qed.

Lemma sprite_frames_no_abort n : forall i oX oY data dataPos w frames width height,
  _contextSet (w_rend w) = false ->
  no_abort (fun st => _contextSet (w_rend (snd (fst (fst (fst st))))) = false)
    (sprite_frames n i oX oY (data, dataPos, w, frames, width, height)).
Proof.
  induction n as [|n IH]; intros i oX oY data dataPos w frames width height Hw;
    cbn [sprite_frames].
  - exact Hw.
  - step_no_abort; apply IH; exact Hc.
Qed.

Lemma timeline_moments_no_abort n : forall data dataPos moments,
  no_abort (fun _ => True)
    (timeline_moments Action readAction n data dataPos moments).
Proof.
  induction n as [|n IH]; intros data dataPos moments; cbn [timeline_moments].
  - exact I.
  - step_no_abort. apply IH.
Qed.

Lemma object_event_list_no_abort n : forall data dataPos events,
  no_abort (fun _ => True)
    (object_event_list Action readAction n data dataPos events).
Proof.
  induction n as [|n IH]; intros data dataPos events; cbn [object_event_list].
  - exact I.
  - step_no_abort. apply IH.
Qed.

Lemma object_events_no_abort types : forall data dataPos,
  no_abort (fun _ => True)
    (object_events Action readAction event_fuel types data dataPos).
Proof.
  induction types as [|t types IH]; intros data dataPos; cbn [object_events].
  - exact I.
  - apply (no_abort_bind (fun _ => True)); [apply object_event_list_no_abort|].
    intros [ev p] _. apply (no_abort_bind (fun _ => True)); [apply IH|].
    intros [rest p'] _. exact I.
Qed.

(** None of the eleven body parsers aborts while [_contextSet] is unset,
    and each leaves it unset. *)
Lemma asset_body_no_abort version k data dataPos r w :
  _contextSet (w_rend w) = false ->
  no_abort (fun x => _contextSet (w_rend (snd x)) = false)
    (asset_body zinflate Action readAction event_fuel version k data dataPos r w).
Proof.
  intros Hw. destruct k; cbn [asset_body].
  - unfold trigger_body. step_no_abort.
  - unfold sound_body. step_no_abort.
  - unfold sprite_body. step_no_abort.
    eapply no_abort_bind; [apply sprite_frames_no_abort; exact Hw|].
    intros [[[[[d p] w'] f] wd] ht] Hw'. cbn in Hw'. step_no_abort.
  - unfold background_body. step_no_abort.
  - unfold path_body. step_no_abort.
  - unfold script_body. step_no_abort.
  - unfold font_body. step_no_abort.
  - unfold timeline_body. step_no_abort.
    eapply no_abort_bind; [apply timeline_moments_no_abort|].
    intros [m p] _. step_no_abort.
  - unfold object_body. step_no_abort.
    eapply no_abort_bind; [apply object_events_no_abort|].
    intros [m p] _. step_no_abort.
  - unfold room_body. step_no_abort.
  - unfold include_body. step_no_abort.
Qed.

Lemma load_section_no_abort {R : Type} (fresh : R) tombstone body
    buffer pos data w :
  (forall d p r w', _contextSet (w_rend w') = false ->
                    no_abort (fun x => _contextSet (w_rend (snd x)) = false)
                      (body d p r w')) ->
  _contextSet (w_rend w) = false ->
  no_abort (fun st => _contextSet (w_rend (snd (fst st))) = false)
    (load_section zinflate fresh tombstone body buffer pos data w).
Proof.
  intros Hbody Hw. unfold load_section. step_no_abort.
  apply repeat_flow_no_abort; [|exact Hw].
  intros [[[p d] w'] table] Hw'. cbn in Hw'. unfold load_record. step_no_abort.
  eapply no_abort_bind; [apply Hbody; exact Hw'|].
  intros [[r' d'] w''] Hw''. cbn in Hw''. step_no_abort.
Qed.

Lemma load_blocks_no_abort version buffer pos rend :
  _contextSet rend = false ->
  no_abort (fun l => _contextSet (w_rend (ld_world Action l)) = false)
    (load_blocks zinflate Action readAction compileAction compileCode
       event_fuel version buffer pos rend).
Proof.
  intros Hr. unfold load_blocks.
  repeat first
    [ progress step_no_abort
    | eapply no_abort_bind;
      [ first
          [ apply read_settings_no_abort
          | apply load_extensions_no_abort
          | apply load_section_no_abort;
            [ intros;
              first [ apply (asset_body_no_abort version KTrigger)
                    | apply (asset_body_no_abort version KSound)
                    | apply (asset_body_no_abort version KSprite)
                    | apply (asset_body_no_abort version KBackground)
                    | apply (asset_body_no_abort version KPath)
                    | apply (asset_body_no_abort version KScript)
                    | apply (asset_body_no_abort version KFont)
                    | apply (asset_body_no_abort version KTimeline)
                    | apply (asset_body_no_abort version KObject)
                    | apply (asset_body_no_abort version KRoom)
                    | apply (asset_body_no_abort version KIncludeFile) ];
              assumption
            | cbn; assumption ] ]
      | let st := fresh "st" in
        let Hst := fresh "Hst" in
        intros st Hst;
        try (destruct st as [[[? ?] ?] ?]; cbn in Hst) ] ].
Qed.

End NoAbort.

(** X18.  Called while [_contextSet] is unset, as it is after [RInit],
    [GameLoad] never runs into the [abort()] of [RMakeImage], whatever the
    file holds, and a load that completes leaves [_contextSet] unset. *)
Theorem GameLoad_never_aborts
    (zinflate : list Z -> option (list Z)) (Action : Type)
    (readAction : stream -> Z -> option (Action * Z))
    (compileAction : Action -> bool) (compileCode : bool * list Z -> bool)
    (event_fuel : nat) (host : Host) (rend : Renderer) :
  _contextSet rend = false ->
  GameLoad zinflate Action readAction compileAction compileCode event_fuel
    host rend <> Abort
  /\ forall l,
       GameLoad zinflate Action readAction compileAction compileCode event_fuel
         host rend = Continue l ->
       _contextSet (w_rend (ld_world Action l)) = false.
Proof.
  intros Hr.
  assert (H : no_abort (fun l => _contextSet (w_rend (ld_world Action l)) = false)
                (GameLoad zinflate Action readAction compileAction compileCode
                   event_fuel host rend)).
  { unfold GameLoad. step_no_abort. apply load_blocks_no_abort. exact Hr. }
  destruct (GameLoad zinflate Action readAction compileAction compileCode
              event_fuel host rend) as [c|l| |]; cbn in H.
  - split; [discriminate | intros ? [=]].
  - split; [discriminate | intros ? [= <-]; exact H].
  - contradiction.
  - split; [discriminate | intros ? [=]].
Qed.

Lemma GameLoad_never_aborts_witness :
  GameLoad toy_inflate unit (fun _ _ => None) (fun _ => true) (fun _ => true)
    16 (toy_host small_game_file) (RInit renderer_start) <> Abort
  /\ forall l,
       GameLoad toy_inflate unit (fun _ _ => None) (fun _ => true) (fun _ => true)
         16 (toy_host small_game_file) (RInit renderer_start) = Continue l ->
       _contextSet (w_rend (ld_world unit l)) = false.
Proof.
  apply (GameLoad_never_aborts toy_inflate unit (fun _ _ => None) (fun _ => true)
           (fun _ => true) 16 (toy_host small_game_file) (RInit renderer_start)).
  reflexivity.
Defined.

(** ** The frames of a sprite *)




(** The sample sprite: two frames of 1 x 1 pixels, registered as the
    images 0 and 1 with the origin (3, 5) and their channels exchanged.
    With the length of the second frame set to 5 the check fails at that
    frame and the loader returns [false]. *)
Example sprite_body_sample :
  match sprite_body (two_frame_sprite 4) 0 new_Sprite
          (mkWorld (RInit renderer_start) []) with
  | Continue (s', _, w') =>
      spr_frames s' = [0; 1] /\ spr_width s' = 1 /\ spr_height s' = 1
      /\ _atlasImages (w_rend w')
         = [mkRAtlasImage 0 0 0 1 1 3 5; mkRAtlasImage 0 0 0 1 1 3 5]
      /\ map pre_data (_preImages (w_rend w'))
         = [[30; 20; 10; 255]; [60; 50; 40; 255]]
  | _ => False
  end
  /\ sprite_frame_list (two_frame_sprite 5) 0 = [(1, 1, 4); (1, 1, 5)]
  /\ sprite_body (two_frame_sprite 5) 0 new_Sprite
       (mkWorld (RInit renderer_start) []) = Return false.
Proof. vm_compute. repeat split. Qed.
